(** * Rich text editor: selection inspector and formatting mutator

    A shallow embedding of [src/components/RichTextEditor.tsx].  The component
    is a set of event handlers over the browser's document tree and its
    current selection.  The handlers are embedded as functions of an explicit
    editor state; the DOM operations they call ([surroundContents],
    [cloneContents], [closest], [replaceChild], ...) are embedded from the
    steps the DOM standard gives for them, over a tree of text and element
    nodes addressed by child-index paths.  What the handlers ask of the
    browser that such a tree does not settle (the computed style of an
    element, the text of the selection as it is rendered, what the parser
    makes of markup) is a capability of the host, which the handlers take as
    a parameter.  Strings are over the characters of Latin-1, the code units
    0 to 255.

    Embedded: [hasParentWithTag], [hasStyle], [updateEditorState],
    [toggleFormat], [handleCreateLink], [handleHeadingChange],
    [handleFontSizeChange], [formatAlignment], [toggleList], [handleKeyDown],
    [handlePaste], the handlers written inline in the toolbar (remove link,
    undo, redo) and the binding of handlers to events.  [updateContent] and
    the [onMount] callback pass markup between the tree and the [content]
    signal; the signal is not part of the state modelled here and they are
    not embedded.  Nor are, for the same reason, the last three lines of
    [updateEditorState], which hand the markup of the editor to the signal
    and to [props.onContentChange]: the effects of this model are the
    alerts, the prompts and the calls of [preventDefault] and [execCommand]. *)

From Stdlib Require Import List String Ascii Bool Arith ZArith Lia DecimalString.
Import ListNotations.
Set Warnings "-register-all".
Local Open Scope string_scope.
Local Open Scope list_scope.

(** ** Strings, as the handlers use them *)

Module Str.

(** [s.substring(0, n)] *)
Fixpoint take (n : nat) (s : string) : string :=
  match n, s with
  | S n', String c r => String c (take n' r)
  | _, _ => EmptyString
  end.

(** [s.substring(n)] *)
Fixpoint drop (n : nat) (s : string) : string :=
  match n, s with
  | S n', String _ r => drop n' r
  | _, _ => s
  end.

(** The data of a character-data node from [o] on, [count] units long. *)
Definition substringData (o count : nat) (s : string) : string :=
  take count (drop o s).

(** White space that [String.prototype.trim] strips, among the characters
    of Latin-1: TAB, LF, VT, FF, CR, SPACE and NO-BREAK SPACE. *)
Definition is_white_space (c : ascii) : bool :=
  let n := nat_of_ascii c in
  ((9 <=? n)%nat && (n <=? 13)%nat) || (n =? 32)%nat || (n =? 160)%nat.

Fixpoint trimStart (s : string) : string :=
  match s with
  | String c r => if is_white_space c then trimStart r else s
  | EmptyString => EmptyString
  end.

Definition reverse (s : string) : string :=
  string_of_list_ascii (rev (list_ascii_of_string s)).

Definition trimEnd (s : string) : string := reverse (trimStart (reverse s)).

Definition trim (s : string) : string := trimEnd (trimStart s).

(** JavaScript truthiness of a string: only the empty string is falsy. *)
Definition truthy (s : string) : bool :=
  match s with EmptyString => false | String _ _ => true end.

(** [hay.includes(needle)], the test behind the [*=] attribute selector. *)
Definition includes (needle hay : string) : bool :=
  match index 0 needle hay with Some _ => true | None => false end.

(** [s.startsWith(p)] *)
Definition startsWith (p s : string) : bool := prefix p s.

(** The capital letters of Latin-1 are A to Z and, but for the
    multiplication sign, the characters 192 to 222. *)
Definition lower_char (c : ascii) : ascii :=
  let n := nat_of_ascii c in
  if ((65 <=? n)%nat && (n <=? 90)%nat)
     || ((192 <=? n)%nat && (n <=? 222)%nat && negb (n =? 215)%nat)
  then ascii_of_nat (n + 32) else c.

Fixpoint toLowerCase (s : string) : string :=
  match s with
  | String c r => String (lower_char c) (toLowerCase r)
  | EmptyString => EmptyString
  end.

Definition mem (s : string) (l : list string) : bool :=
  existsb (String.eqb s) l.

(** Concatenation of a list of strings. *)
Fixpoint join (l : list string) : string :=
  match l with
  | [] => EmptyString
  | x :: r => x ++ join r
  end.

End Str.

(** ** The document tree *)

(** One declaration of an inline style: property and value. *)
Definition declaration : Type := string * string.

(** The attributes the editor reads or writes.  An element's inline style is
  kept twice, as the host keeps it: [styleText] is the text of the [style]
  attribute, which attribute selectors see; [styleDecls] is the declaration
  block the host parsed from it, which [element.style] reads and writes.
  Writing through [element.style] replaces the text by the serialisation of
  the block. *)
Record attributes : Type := mkAttributes {
  styleText : string;
  styleDecls : list declaration;
  classList : list string;
  href : option string;
  target : option string;
  rel : option string
}.

(** The attributes of an element fresh from [document.createElement]. *)
Definition no_attributes : attributes :=
  {| styleText := ""; styleDecls := []; classList := [];
     href := None; target := None; rel := None |}.

(** A node is a text node or an element; [tagName] is kept in lower case,
  which is how every use in the source reads it
  ([tagName.toLowerCase()], selectors). *)
Inductive node : Type :=
| Text (data : string)
| Element (tagName : string) (attrs : attributes) (childNodes : list node).

(** A node is addressed by the child indices that lead to it from the
  document element. *)
Definition path : Type := list nat.

(** A boundary point: a node and an offset into its data (text) or into its
  children (element). *)
Record boundary : Type := mkBoundary { container : path; offset : nat }.

(** A range of the document, start before end in tree order. *)
Record range : Type := mkRange { rstart : boundary; rend : boundary }.

Module Dom.

Definition children (n : node) : list node :=
  match n with
  | Element _ _ cs => cs
  | Text _ => []
  end.

Definition is_text (n : node) : bool :=
  match n with Text _ => true | Element _ _ _ => false end.

(** The DOM's length of a node. *)
Definition node_length (n : node) : nat :=
  match n with
  | Text d => String.length d
  | Element _ _ cs => List.length cs
  end.

(** The child of index [i]; where a path does not lead to a node of the
    tree (which no boundary point of the document does) the empty text
    node stands in. *)
Definition child (n : node) (i : nat) : node := nth i (children n) (Text "").

Fixpoint node_at (n : node) (p : path) : option node :=
  match p with
  | [] => Some n
  | i :: r =>
      match nth_error (children n) i with
      | Some c => node_at c r
      | None => None
      end
  end.

Definition update_nth {A : Type} (f : A -> A) (i : nat) (l : list A) : list A :=
  match nth_error l i with
  | Some x => firstn i l ++ f x :: skipn (S i) l
  | None => l
  end.

(** The tree with the node at [p] replaced by its image under [f]. *)
Fixpoint alter_at (f : node -> node) (n : node) (p : path) : node :=
  match p with
  | [] => f n
  | i :: r =>
      match n with
      | Element t a cs => Element t a (update_nth (fun c => alter_at f c r) i cs)
      | Text d => Text d
      end
  end.

Definition set_children (cs : list node) (n : node) : node :=
  match n with
  | Element t a _ => Element t a cs
  | Text d => Text d
  end.

(** [node.textContent] *)
Fixpoint textContent (n : node) : string :=
  match n with
  | Text d => d
  | Element _ _ cs => Str.join (map textContent cs)
  end.

Definition text_of (l : list node) : string := Str.join (map textContent l).

(** Children [from] to [to] (exclusive). *)
Definition slice {A : Type} (from to : nat) (l : list A) : list A :=
  firstn (to - from) (skipn from l).

(** *** Paths *)

(** [element.parentElement]; the document element has none. *)
Definition parentElement (p : path) : option path :=
  match p with
  | [] => None
  | _ :: _ => Some (removelast p)
  end.

(** The walk [element = element.parentElement] until there is none: the
    paths of the node, its parent, ..., the document element. *)
Fixpoint climb (fuel : nat) (p : path) : list path :=
  p :: match fuel with
       | O => []
       | S fuel' =>
           match parentElement p with
           | Some q => climb fuel' q
           | None => []
           end
       end.

Definition inclusive_ancestors (p : path) : list path := climb (List.length p) p.

Definition has_tag_in (doc : node) (tags : list string) (p : path) : bool :=
  match node_at doc p with
  | Some (Element t _ _) => Str.mem t tags
  | _ => false
  end.

(** [element.closest(sel)] for a selector that is a list of tag names: the
    nearest inclusive ancestor with one of the tags. *)
Definition closest (doc : node) (p : path) (tags : list string) : option path :=
  find (has_tag_in doc tags) (inclusive_ancestors p).

Definition tag_at (doc : node) (p : path) : string :=
  match node_at doc p with
  | Some (Element t _ _) => t
  | _ => ""
  end.

(** [node.nodeType === Node.TEXT_NODE ? node.parentElement : node] *)
Definition element_of (doc : node) (p : path) : option path :=
  match node_at doc p with
  | Some (Text _) => parentElement p
  | _ => Some p
  end.

(** The longest common prefix of two paths and what is left of each. *)
Fixpoint split_common (p q : path) : path * path * path :=
  match p, q with
  | i :: p', j :: q' =>
      if (i =? j)%nat then
        let '(c, rp, rq) := split_common p' q' in (i :: c, rp, rq)
      else ([], p, q)
  | _, _ => ([], p, q)
  end.

(** *** Ranges *)

Fixpoint path_eqb (p q : path) : bool :=
  match p, q with
  | [], [] => true
  | i :: p', j :: q' => (i =? j)%nat && path_eqb p' q'
  | _, _ => false
  end.

(** [range.collapsed] *)
Definition collapsed (r : range) : bool :=
  path_eqb (container (rstart r)) (container (rend r))
  && (offset (rstart r) =? offset (rend r))%nat.

(** [range.commonAncestorContainer] *)
Definition commonAncestorContainer (r : range) : path :=
  fst (fst (split_common (container (rstart r)) (container (rend r)))).

(** The range that selects the node at [w]: from just before it to just
    after it, in its parent. *)
Definition selectNode (w : path) : range :=
  {| rstart := {| container := removelast w; offset := last w 0 |};
     rend := {| container := removelast w; offset := S (last w 0) |} |}.

(** The part of [n] that lies before the boundary point ([p], [o]) inside
    it: what is left of a partially contained node at the end of a range
    when the range is cloned, or of one at its start when the range is
    extracted. *)
Fixpoint before_node (n : node) (p : path) (o : nat) : node :=
  match p with
  | [] =>
      match n with
      | Text d => Text (Str.take o d)
      | Element t a cs => Element t a (firstn o cs)
      end
  | i :: r =>
      match n with
      | Text d => Text d
      | Element t a cs => Element t a (firstn i cs ++ [before_node (child n i) r o])
      end
  end.

(** The part of [n] that lies after the boundary point. *)
Fixpoint after_node (n : node) (p : path) (o : nat) : node :=
  match p with
  | [] =>
      match n with
      | Text d => Text (Str.drop o d)
      | Element t a cs => Element t a (skipn o cs)
      end
  | i :: r =>
      match n with
      | Text d => Text d
      | Element t a cs => Element t a (after_node (child n i) r o :: skipn (S i) cs)
      end
  end.

(** The children [cs] of the common ancestor of a range, cut at the two
    boundary points (given relative to the common ancestor): what stays
    before the range, what the range holds, what stays after it.  A child on
    the way to a boundary point is partially contained: it is split by
    [before_node] and [after_node]. *)
Definition cut_children (cs : list node) (sr : path) (so : nat) (er : path) (eo : nat)
  : list node * list node * list node :=
  let c i := nth i cs (Text "") in
  match sr, er with
  | [], [] =>
      (firstn so cs, slice so eo cs, skipn eo cs)
  | i :: sr', [] =>
      (firstn i cs ++ [before_node (c i) sr' so],
       after_node (c i) sr' so :: slice (S i) eo cs,
       skipn eo cs)
  | [], j :: er' =>
      (firstn so cs,
       slice so j cs ++ [before_node (c j) er' eo],
       after_node (c j) er' eo :: skipn (S j) cs)
  | i :: sr', j :: er' =>
      (firstn i cs ++ [before_node (c i) sr' so],
       after_node (c i) sr' so :: slice (S i) j cs ++ [before_node (c j) er' eo],
       after_node (c j) er' eo :: skipn (S j) cs)
  end.

(** [range.cloneContents()]: the children of the fragment. *)
Definition cloneContents (doc : node) (r : range) : list node :=
  if collapsed r then []
  else
    let '(ca, sr, er) := split_common (container (rstart r)) (container (rend r)) in
    let so := offset (rstart r) in
    let eo := offset (rend r) in
    match node_at doc ca with
    | Some (Text d) => [Text (Str.substringData so (eo - so) d)]
    | Some (Element _ _ cs) => snd (fst (cut_children cs sr so er eo))
    | None => []
    end.

(** [range.toString()] *)
Definition range_toString (doc : node) (r : range) : string :=
  text_of (cloneContents doc r).

(** [range.extractContents()]: the document without the contents of the
    range, the children of the fragment, and the range afterwards, which is
    collapsed where the contents were. *)
Definition extractContents (doc : node) (r : range) : node * list node * range :=
  if collapsed r then (doc, [], r)
  else
    let '(ca, sr, er) := split_common (container (rstart r)) (container (rend r)) in
    let so := offset (rstart r) in
    let eo := offset (rend r) in
    match node_at doc ca with
    | Some (Text d) =>
        let b := {| container := ca; offset := so |} in
        (alter_at (fun _ => Text (Str.take so d ++ Str.drop eo d)) doc ca,
         [Text (Str.substringData so (eo - so) d)],
         {| rstart := b; rend := b |})
    | Some (Element _ _ cs) =>
        let '(before, inside, after) := cut_children cs sr so er eo in
        let b := {| container := ca;
                    offset := match sr with [] => so | i :: _ => S i end |} in
        (alter_at (set_children (before ++ after)) doc ca, inside,
         {| rstart := b; rend := b |})
    | None => (doc, [], r)
    end.

(** Whether a node other than a text node is partially contained in the
    range: a child of the common ancestor that leads to one boundary point
    and not to the other. *)
Definition partially_contains_non_text (doc : node) (r : range) : bool :=
  let '(ca, sr, er) := split_common (container (rstart r)) (container (rend r)) in
  match node_at doc ca with
  | Some n =>
      match sr with [] => false | i :: _ => negb (is_text (child n i)) end
      || match er with [] => false | j :: _ => negb (is_text (child n j)) end
  | None => false
  end.

(** What a DOM operation throws. *)
Inductive DOMException : Type :=
| InvalidStateError
| HierarchyRequestError.

(** [range.insertNode(n)] for a collapsed range at [b], which is what every
    call of the source has: the document with [n] inserted at the boundary
    point, the path of [n], and the range afterwards.  A text node that holds
    the boundary point is split there, also at its first or last position,
    which leaves an empty text node beside [n]. *)
Definition insertNode (doc : node) (b : boundary) (n : node)
  : DOMException + (node * path * range) :=
  let sp := container b in
  let o := offset b in
  match node_at doc sp with
  | Some (Text d) =>
      match sp with
      | [] => inl HierarchyRequestError
      | _ :: _ =>
          let pp := removelast sp in
          let k := last sp 0 in
          let split par :=
            set_children (firstn k (children par)
                          ++ [Text (Str.take o d); n; Text (Str.drop o d)]
                          ++ skipn (S k) (children par)) par in
          inr (alter_at split doc pp, pp ++ [S k],
               {| rstart := b; rend := {| container := pp; offset := S (S k) |} |})
      end
  | Some (Element _ _ cs) =>
      let idx := Nat.min o (List.length cs) in
      inr (alter_at (set_children (firstn o cs ++ n :: skipn o cs)) doc sp,
           sp ++ [idx],
           {| rstart := b; rend := {| container := sp; offset := S idx |} |})
  | None => inl HierarchyRequestError
  end.

(** [range.surroundContents(newParent)], by the steps of the DOM standard:
    throw if a node other than a text node is partially contained; extract
    the contents of the range; empty [newParent]; insert it where the range
    has collapsed to; append the extracted contents to it; select it. *)
Definition surroundContents (doc : node) (r : range) (newParent : node)
  : DOMException + (node * range) :=
  if partially_contains_non_text doc r then inl InvalidStateError
  else
    let '(doc1, fragment, r1) := extractContents doc r in
    match insertNode doc1 (rstart r1) (set_children [] newParent) with
    | inl e => inl e
    | inr (doc2, w, _) =>
        inr (alter_at (set_children fragment) doc2 w, selectNode w)
    end.

(** Whether [q] is [p] or leads to it. *)
Fixpoint is_prefix (q p : path) : bool :=
  match q, p with
  | [], _ => true
  | i :: q', j :: p' => (i =? j)%nat && is_prefix q' p'
  | _ :: _, [] => false
  end.

(** What [parent.replaceChild(new, old)] does to a boundary point of a live
    range, [q] being the path of [old]: a point inside [old] moves to where
    [old] was in its parent; a point of the parent just after [old] ends up
    just before [new] (the removal moves it down, the insertion does not
    move it back); any other point stays. *)
Definition boundary_after_replace (q : path) (b : boundary) : boundary :=
  if is_prefix q (container b) then
    {| container := removelast q; offset := last q 0 |}
  else if path_eqb (container b) (removelast q) && (offset b =? S (last q 0))%nat then
    {| container := removelast q; offset := last q 0 |}
  else b.

Definition range_after_replace (q : path) (r : range) : range :=
  {| rstart := boundary_after_replace q (rstart r);
     rend := boundary_after_replace q (rend r) |}.

(** *** Inline style and class list *)

(** The serialisation of a declaration block, which is the text the host
    writes into the [style] attribute: [property: value;], the declarations
    separated by one space. *)
Definition serialize_declaration (d : declaration) : string :=
  fst d ++ ": " ++ snd d ++ ";".

Definition serialize_block (ds : list declaration) : string :=
  String.concat " " (map serialize_declaration ds).

(** [style.setProperty]: the value of a property already declared is
    replaced in place, a new declaration goes to the end. *)
Fixpoint set_property (p v : string) (ds : list declaration) : list declaration :=
  match ds with
  | [] => [(p, v)]
  | (p', v') :: ds' =>
      if String.eqb p' p then (p, v) :: ds' else (p', v') :: set_property p v ds'
  end.

Fixpoint get_property (p : string) (ds : list declaration) : option string :=
  match ds with
  | [] => None
  | (p', v') :: ds' => if String.eqb p' p then Some v' else get_property p ds'
  end.

Definition with_style (ds : list declaration) (a : attributes) : attributes :=
  {| styleText := serialize_block ds; styleDecls := ds;
     classList := classList a; href := href a; target := target a; rel := rel a |}.

(** [element.style.cssText = ...] with a text that parses to [ds] (also
    [element.style = ...], which forwards to it). *)
Definition set_cssText (ds : list declaration) (a : attributes) : attributes :=
  with_style ds a.

(** [element.style.<property> = v] *)
Definition style_set (p v : string) (a : attributes) : attributes :=
  with_style (set_property p v (styleDecls a)) a.

Definition with_classList (cl : list string) (a : attributes) : attributes :=
  {| styleText := styleText a; styleDecls := styleDecls a;
     classList := cl; href := href a; target := target a; rel := rel a |}.

(** [classList.remove(...tokens)] *)
Definition classList_remove (tokens : list string) (a : attributes) : attributes :=
  with_classList (filter (fun c => negb (Str.mem c tokens)) (classList a)) a.

(** [classList.add(token)] *)
Definition classList_add (token : string) (a : attributes) : attributes :=
  with_classList
    (if Str.mem token (classList a) then classList a else classList a ++ [token]) a.

Definition alter_attributes (f : attributes -> attributes) (n : node) : node :=
  match n with
  | Element t a cs => Element t (f a) cs
  | Text d => Text d
  end.

(** Whether the node or one of its descendants is an element that the
    selector matches. *)
Fixpoint matches_within (sel : string -> attributes -> bool) (n : node) : bool :=
  match n with
  | Text _ => false
  | Element t a cs => sel t a || existsb (matches_within sel) cs
  end.

(** [root.querySelector(sel) !== null], [root] holding the nodes [l]. *)
Definition querySelector_finds (sel : string -> attributes -> bool) (l : list node)
  : bool :=
  existsb (matches_within sel) l.

(** *** Markup *)

(** [target.innerHTML = source.innerHTML] rebuilds the children of [source]
    under [target] from their serialisation; what comes back is what the
    parser of the host makes of the markup ([innerHTML_copy] below).  For
    markup that the parser leaves as it stands, text nodes that were adjacent
    come back as one, since their serialisations run together, and empty text
    nodes do not come back at all; elements come back with their attributes
    and with their own children rebuilt in the same way.  That much is
    [reparse_children], the round trip of the host of the concrete cases.  A
    browser does more: it re-nests markup that is not valid where it stands
    (a list in a paragraph, nested anchors), turns CR into LF and drops
    NUL. *)
Fixpoint merge_text (l : list node) : list node :=
  match l with
  | [] => []
  | Text d :: l' =>
      match merge_text l' with
      | Text d' :: m => Text (d ++ d') :: m
      | m => match d with EmptyString => m | String _ _ => Text d :: m end
      end
  | Element t a cs :: l' => Element t a cs :: merge_text l'
  end.

Fixpoint reparse (n : node) : node :=
  match n with
  | Text d => Text d
  | Element t a cs => Element t a (merge_text (map reparse cs))
  end.

Definition reparse_children (cs : list node) : list node :=
  merge_text (map reparse cs).

End Dom.

Import Dom.

(** ** The host *)

(** What the handlers ask of the browser that the tree does not settle:
    - [getComputedStyle doc element property] is
      [window.getComputedStyle(element)[property]], which depends on the
      style sheets of the page;
    - [selectionText doc range] is [selection.toString()] for a selection
      with that range: the text of the selection as the host renders it,
      which is not the text of the range where part of it is not displayed;
    - [innerHTML_copy tag cs] is the child list that
      [x.innerHTML = y.innerHTML] gives [x], an element of tag [tag] fresh
      from [createElement], [cs] being the children of [y]: what the parser
      makes of the serialisation of [cs] inside such an element. *)
Record Host : Type := mkHost {
  getComputedStyle : node -> path -> string -> string;
  selectionText : node -> range -> string;
  innerHTML_copy : string -> list node -> list node
}.

(** ** The editor state and its handlers *)

(** What a handler does that the host or the user sees, besides the tree. *)
Inductive effect : Type :=
| Alert (message : string)
| Prompt (message : string)
| PreventDefault
| ExecCommand (commandId : string).

(** The state the handlers share: whether [editorRef] is assigned, the
    document, the selection of the window ([None]: no selection, or one
    without a range), the five signals of the component, and the effects so
    far, oldest first. *)
Record state : Type := mkState {
  editorRef : bool;
  document : node;
  selection : option range;
  isBold : bool;
  isItalic : bool;
  isUnderline : bool;
  isStrikethrough : bool;
  currentBlock : string;
  effects : list effect
}.

Definition with_document (d : node) (st : state) : state :=
  {| editorRef := editorRef st; document := d; selection := selection st;
     isBold := isBold st; isItalic := isItalic st; isUnderline := isUnderline st;
     isStrikethrough := isStrikethrough st; currentBlock := currentBlock st;
     effects := effects st |}.

Definition with_selection (r : option range) (st : state) : state :=
  {| editorRef := editorRef st; document := document st; selection := r;
     isBold := isBold st; isItalic := isItalic st; isUnderline := isUnderline st;
     isStrikethrough := isStrikethrough st; currentBlock := currentBlock st;
     effects := effects st |}.

Definition with_formats (b i u s : bool) (st : state) : state :=
  {| editorRef := editorRef st; document := document st; selection := selection st;
     isBold := b; isItalic := i; isUnderline := u;
     isStrikethrough := s; currentBlock := currentBlock st;
     effects := effects st |}.

Definition with_currentBlock (t : string) (st : state) : state :=
  {| editorRef := editorRef st; document := document st; selection := selection st;
     isBold := isBold st; isItalic := isItalic st; isUnderline := isUnderline st;
     isStrikethrough := isStrikethrough st; currentBlock := t;
     effects := effects st |}.

Definition log (e : effect) (st : state) : state :=
  {| editorRef := editorRef st; document := document st; selection := selection st;
     isBold := isBold st; isItalic := isItalic st; isUnderline := isUnderline st;
     isStrikethrough := isStrikethrough st; currentBlock := currentBlock st;
     effects := effects st ++ [e] |}.

(** A handler returns, or an exception leaves it uncaught (the source has no
    [try]); either way the state is what the handler made of it up to
    there. *)
Inductive outcome : Type :=
| Returned (st : state)
| Thrown (e : DOMException) (st : state).

Definition final_state (o : outcome) : state :=
  match o with
  | Returned st => st
  | Thrown _ st => st
  end.

Definition handler : Type := state -> outcome.

(** Run [h], then [k] unless [h] threw. *)
Definition and_then (h k : handler) : handler :=
  fun st =>
    match h st with
    | Returned st' => k st'
    | Thrown e st' => Thrown e st'
    end.

Notation "h ;; k" := (and_then h k) (at level 61, right associativity).

(** [parseInt(s)]; [None] is NaN.  The integer read is the Number that
    [parseInt] gives while it is below 2^53 in absolute value, which is the
    case of every value of the size menu. *)
Module Number.

Definition digit_value (radix : nat) (c : ascii) : option nat :=
  let n := nat_of_ascii c in
  let v :=
    if ((48 <=? n)%nat && (n <=? 57)%nat) then Some (n - 48)
    else if ((97 <=? n)%nat && (n <=? 122)%nat) then Some (n - 87)
    else if ((65 <=? n)%nat && (n <=? 90)%nat) then Some (n - 55)
    else None in
  match v with
  | Some d => if (d <? radix)%nat then Some d else None
  | None => None
  end.

Fixpoint parse_digits (radix : nat) (s : string) (acc : option Z) : option Z :=
  match s with
  | String c r =>
      match digit_value radix c with
      | Some d =>
          parse_digits radix r
            (Some (match acc with Some a => a | None => 0 end * Z.of_nat radix
                   + Z.of_nat d)%Z)
      | None => acc
      end
  | EmptyString => acc
  end.

Definition parseInt (s : string) : option Z :=
  let s1 := Str.trimStart s in
  let '(sign, s2) :=
    match s1 with
    | String "-"%char r => ((-1)%Z, r)
    | String "+"%char r => (1%Z, r)
    | _ => (1%Z, s1)
    end in
  let '(radix, s3) :=
    match s2 with
    | String "0"%char (String "x"%char r) => (16, r)
    | String "0"%char (String "X"%char r) => (16, r)
    | _ => (10, s2)
    end in
  option_map (Z.mul sign) (parse_digits radix s3 None).

(** The decimal text of an integer, as a template literal prints it. *)
Definition toString (z : Z) : string :=
  DecimalString.NilZero.string_of_int (Z.to_int z).

End Number.

Section Handlers.

(** The host the handlers run in. *)
Variable host : Host.

(** [hasParentWithTag(element, tagNames)]: the loop visits the element, its
    parent element, and so on up to the document element. *)
Definition hasParentWithTag (doc : node) (element : option path) (tagNames : list string)
  : bool :=
  match element with
  | Some p => existsb (has_tag_in doc tagNames) (inclusive_ancestors p)
  | None => false
  end.

(** The selector [[style*="prop:value"]]. *)
Definition style_attribute_includes (styleProp value : string)
  : string -> attributes -> bool :=
  fun _ a => Str.includes (styleProp ++ ":" ++ value) (styleText a).

(** [hasStyle(styleProp, value)] *)
Definition hasStyle (styleProp value : string) (st : state) : bool :=
  match selection st with
  | None => false
  | Some range =>
      if collapsed range then
        let node := container (rstart range) in
        match element_of (document st) node with
        | Some element =>
            String.eqb (getComputedStyle host (document st) element styleProp) value
        | None => false
        end
      else
        querySelector_finds (style_attribute_includes styleProp value)
          (cloneContents (document st) range)
  end.

Definition block_tags : list string :=
  ["h1"; "h2"; "h3"; "p"; "div"; "li"; "ul"; "ol"].

(** [updateEditorState()], up to the five signals.  Its last three lines
    hand the markup of the editor to the [content] signal and to
    [props.onContentChange]; neither is part of the state modelled here, and
    the lines are left out: of what the inspector tells the embedding page
    this model says nothing. *)
Definition updateEditorState : handler :=
  fun st =>
    if negb (editorRef st) then Returned st
    else
      match selection st with
      | None => Returned st
      | Some range =>
          let container := commonAncestorContainer range in
          match element_of (document st) container with
          | Some element =>
              let bold :=
                hasParentWithTag (document st) (Some element) ["b"; "strong"]
                || hasStyle "font-weight" "bold" st
                || hasStyle "font-weight" "700" st in
              let italic :=
                hasParentWithTag (document st) (Some element) ["i"; "em"]
                || hasStyle "font-style" "italic" st in
              let underline :=
                hasParentWithTag (document st) (Some element) ["u"]
                || hasStyle "text-decoration" "underline" st in
              let strikethrough :=
                hasParentWithTag (document st) (Some element) ["s"; "strike"; "del"]
                || hasStyle "text-decoration" "line-through" st in
              let st' := with_formats bold italic underline strikethrough st in
              match closest (document st) element block_tags with
              | Some blockElement =>
                  Returned (with_currentBlock (tag_at (document st) blockElement) st')
              | None => Returned st'
              end
          | None => Returned st
          end
      end.

(** [range.surroundContents(newParent)] on the range of the selection, which
    is the range object every handler holds: the document and the selection
    change together, or the exception leaves the handler. *)
Definition surroundSelection (newParent : node) : handler :=
  fun st =>
    match selection st with
    | None => Returned st
    | Some range =>
        match surroundContents (document st) range newParent with
        | inl e => Thrown e st
        | inr (doc', range') =>
            Returned (with_selection (Some range') (with_document doc' st))
        end
    end.

(** [Object.assign(document.createElement(tag), { style: ... })], the style
    text parsing to the declarations [ds]. *)
Definition styled_element (tag : string) (ds : list declaration) : node :=
  Element tag (set_cssText ds no_attributes) [].

(** The element that [toggleFormat] wraps the range in, by the cases of its
    [switch]; no case, no wrapping. *)
Definition format_wrapper (format : string) : option node :=
  if String.eqb format "bold" then
    Some (styled_element "strong" [("font-weight", "bold")])
  else if String.eqb format "italic" then
    Some (styled_element "em" [("font-style", "italic")])
  else if String.eqb format "underline" then
    Some (styled_element "u" [("text-decoration", "underline")])
  else if String.eqb format "strikeThrough" then
    Some (styled_element "s" [("text-decoration", "line-through")])
  else None.

(** [toggleFormat(format)].  The range that [surroundContents] has moved
    is the range of the selection; [removeAllRanges] and [addRange(range)]
    put the same range back. *)
Definition toggleFormat (format : string) : handler :=
  fun st =>
    if negb (editorRef st) then Returned st
    else
      match selection st with
      | None => Returned st
      | Some _ =>
          ((match format_wrapper format with
            | Some newParent => surroundSelection newParent
            | None => Returned
            end) ;; updateEditorState) st
      end.

Definition link_element (url : string) : node :=
  Element "a"
    {| styleText := ""; styleDecls := []; classList := [];
       href := Some (if Str.startsWith "http" url then url
                     else ("https://" ++ url)%string);
       target := Some "_blank";
       rel := Some "noopener noreferrer" |} [].

(** The text of the range of the selection, [range.toString()]: the data of
    the text nodes in the range, displayed or not. *)
Definition selection_toString (st : state) : string :=
  match selection st with
  | Some range => range_toString (document st) range
  | None => ""
  end.

(** [selection?.toString()], the text of the selection as the host renders
    it; a selection without a range has no text. *)
Definition selection_text (st : state) : string :=
  match selection st with
  | Some range => selectionText host (document st) range
  | None => ""
  end.

(** [handleCreateLink()]; [answer] is what the user gives the prompt if it
    comes to that, [None] when the prompt is dismissed. *)
Definition handleCreateLink (answer : option string) : handler :=
  fun st =>
    if negb (Str.truthy (Str.trim (selection_text st))) then
      Returned (log (Alert "Please select text to create a link") st)
    else
      let st1 := log (Prompt "Enter URL:") st in
      match answer with
      | None => Returned st1
      | Some url =>
          if negb (Str.truthy url) then Returned st1
          else (surroundSelection (link_element url) ;; updateEditorState) st1
      end.

Definition heading_tags : list string := ["h1"; "h2"; "h3"; "p"; "div"].

(** [parent.replaceChild(newElement, old)] through [old.parentNode?.]: the
    node at [q] gives way to [newElement] and the range of the selection
    follows; the root of the model has no parent node, and nothing is
    replaced there. *)
Definition replaceChild (q : path) (newElement : node) (st : state) : state :=
  match q with
  | [] => st
  | _ :: _ =>
      with_selection (option_map (range_after_replace q) (selection st))
        (with_document (alter_at (fun _ => newElement) (document st) q) st)
  end.

Definition children_at (doc : node) (p : path) : list node :=
  match node_at doc p with
  | Some n => children n
  | None => []
  end.

(** [handleHeadingChange(e)], [select_value] being [e.target.value]: one of
    the values of the menu, "", "h1", "h2", "h3". *)
Definition handleHeadingChange (select_value : string) : handler :=
  fun st =>
    let value := if Str.truthy select_value then select_value else "p" in
    match selection st with
    | None => Returned st
    | Some range =>
        let blockElement :=
          match parentElement (commonAncestorContainer range) with
          | Some parent => closest (document st) parent heading_tags
          | None => None
          end in
        match blockElement with
        | Some block =>
            let newElement :=
              Element value no_attributes
                (innerHTML_copy host value (children_at (document st) block)) in
            updateEditorState (replaceChild block newElement st)
        | None =>
            (surroundSelection (Element value no_attributes []) ;; updateEditorState) st
        end
    end.

(** [span.style.fontSize = `${n * 4 + 12}px`] on a fresh span: the host
    keeps a declaration only if the value is a length that a font size can
    be, so neither [NaNpx] nor a negative length is kept. *)
Definition fontSize_attributes (n : option Z) : attributes :=
  match n with
  | Some z =>
      if (0 <=? z * 4 + 12)%Z then
        style_set "font-size" (Number.toString (z * 4 + 12) ++ "px") no_attributes
      else no_attributes
  | None => no_attributes
  end.

(** [handleFontSizeChange(e)], [size] being [e.target.value]: one of the
    values of the menu, "", "1", "3", "5", "7". *)
Definition handleFontSizeChange (size : string) : handler :=
  fun st =>
    if negb (Str.truthy size) then Returned st
    else
      match selection st with
      | None => Returned st
      | Some _ =>
          let span := Element "span" (fontSize_attributes (Number.parseInt size)) [] in
          (surroundSelection span ;; updateEditorState) st
      end.

(** The parameter type of [formatAlignment]. *)
Inductive alignment : Type := left | center | right.

Definition alignment_value (a : alignment) : string :=
  match a with
  | left => "left"
  | center => "center"
  | right => "right"
  end.

Definition alignment_class (a : alignment) : string :=
  match a with
  | left => "text-left"
  | center => "text-center"
  | right => "text-right"
  end.

Definition alignment_classes : list string :=
  ["text-left"; "text-center"; "text-right"].

(** What [formatAlignment] does to the attributes of the block element. *)
Definition align_attributes (a : alignment) (at_ : attributes) : attributes :=
  style_set "text-align" (alignment_value a)
    (classList_add (alignment_class a)
       (classList_remove alignment_classes at_)).

(** [formatAlignment(alignment)] *)
Definition formatAlignment (a : alignment) : handler :=
  fun st =>
    if negb (editorRef st) then Returned st
    else
      match selection st with
      | None => Returned st
      | Some range =>
          match element_of (document st) (commonAncestorContainer range) with
          | Some blockElement =>
              updateEditorState
                (with_document
                   (alter_at (alter_attributes (align_attributes a))
                      (document st) blockElement) st)
          | None => Returned st
          end
      end.

(** The parameter type of [toggleList]. *)
Inductive list_type : Type := ul | ol.

Definition list_tag (t : list_type) : string :=
  match t with
  | ul => "ul"
  | ol => "ol"
  end.

(** The [listItem] of [toggleList]: the nearest [li] from the parent of the
    common ancestor when that is a text node, from the common ancestor itself
    otherwise. *)
Definition listItem_of (doc : node) (range : range) : option path :=
  let ancestor := commonAncestorContainer range in
  match node_at doc ancestor with
  | Some (Text _) =>
      match parentElement ancestor with
      | Some parent => closest doc parent ["li"]
      | None => None
      end
  | _ => closest doc ancestor ["li"]
  end.

(** [toggleList(type)] *)
Definition toggleList (type : list_type) : handler :=
  fun st =>
    if negb (editorRef st) then Returned st
    else
      match selection st with
      | None => Returned st
      | Some range =>
          match listItem_of (document st) range with
          | Some item =>
              let content := children_at (document st) item in
              let same_type :=
                match parentElement item with
                | Some list => String.eqb (tag_at (document st) list) (list_tag type)
                | None => false
                end in
              if same_type then
                let p := Element "p" no_attributes (innerHTML_copy host "p" content) in
                updateEditorState (replaceChild item p st)
              else
                let newItem :=
                  Element "li" no_attributes (innerHTML_copy host "li" content) in
                let newList :=
                  Element (list_tag type) no_attributes
                    (innerHTML_copy host (list_tag type) content ++ [newItem]) in
                updateEditorState (replaceChild item newList st)
          | None =>
              let '(doc1, content, range1) :=
                if collapsed range then (document st, [], range)
                else extractContents (document st) range in
              let list :=
                Element (list_tag type) no_attributes
                  [Element "li" no_attributes content] in
              match insertNode doc1 (rstart range1) list with
              | inl e => Thrown e (with_selection (Some range1) (with_document doc1 st))
              | inr (doc2, w, _) =>
                  let inside :=
                    {| container := w ++ [0]; offset := List.length content |} in
                  updateEditorState
                    (with_selection (Some {| rstart := inside; rend := inside |})
                       (with_document doc2 st))
              end
          end
      end.

(** The fields of the keyboard event that [handleKeyDown] reads. *)
Record KeyboardEvent : Type := mkKeyboardEvent {
  ctrlKey : bool;
  metaKey : bool;
  key : string
}.

(** [handleKeyDown(e)].  [e.preventDefault()] and [document.execCommand] are
    recorded as effects; what the host's undo and redo do to the tree is the
    host's business and is not modelled. *)
Definition handleKeyDown (e : KeyboardEvent) : handler :=
  fun st =>
    if ctrlKey e || metaKey e then
      let st1 := log PreventDefault st in
      let k := Str.toLowerCase (key e) in
      if String.eqb k "b" then toggleFormat "bold" st1
      else if String.eqb k "i" then toggleFormat "italic" st1
      else if String.eqb k "u" then toggleFormat "underline" st1
      else if String.eqb k "z" then Returned (log (ExecCommand "undo") st1)
      else if String.eqb k "y" then Returned (log (ExecCommand "redo") st1)
      else Returned st1
    else Returned st.

End Handlers.

(** ** The editing surface and the buttons written inline *)

(** [range.deleteContents()]: the contents leave the tree as they do with
    [extractContents], the range collapses where they were, and no fragment
    is kept. *)
Definition deleteContents (doc : node) (r : range) : node * range :=
  let '(doc', _, r') := extractContents doc r in (doc', r').

(** One turn of [while (link.firstChild) parent.insertBefore(link.firstChild, link)],
    seen from the children of [parent], the link being the child of index
    [i]: the first child of the link leaves it and stands just before it,
    which moves the link one place on. *)
Definition lift_first_child (i : nat) (siblings : list node) : option (list node) :=
  match nth_error siblings i with
  | Some (Element t a (c :: rest)) =>
      Some (firstn i siblings ++ c :: Element t a rest :: skipn (S i) siblings)
  | _ => None
  end.

(** The loop, which turns while the link has a first child: the children of
    [parent] and the index of the link when it ends.  [turns] bounds the
    number of turns; the number of children of the link is enough. *)
Fixpoint lift_children (turns : nat) (i : nat) (siblings : list node)
  : list node * nat :=
  match turns with
  | O => (siblings, i)
  | S turns' =>
      match lift_first_child i siblings with
      | Some siblings' => lift_children turns' (S i) siblings'
      | None => (siblings, i)
      end
  end.

(** [parent.removeChild(child)], the child of index [i]. *)
Definition remove_nth {A : Type} (i : nat) (l : list A) : list A :=
  firstn i l ++ skipn (S i) l.

(** The loop and the [removeChild] that follows it, on the link at [q]. *)
Definition unwrap_link (q : path) (doc : node) : node :=
  alter_at
    (fun parent =>
       let '(siblings, i) :=
         lift_children (List.length (children_at doc q)) (last q 0) (children parent) in
       set_children (remove_nth i siblings) parent)
    doc (removelast q).

Section Surface.

(** The host, as for the handlers above. *)
Variable host : Host.

(** [handlePaste(e)], [plain_text] being
    [e.clipboardData?.getData('text/plain')], [None] where the event has no
    clipboard data.  [setStartAfter(textNode)] and [setEndAfter(textNode)]
    collapse the range just after the inserted node, in its parent. *)
Definition handlePaste (plain_text : option string) : handler :=
  fun st =>
    let st1 := log PreventDefault st in
    let text :=
      match plain_text with
      | Some s => if Str.truthy s then s else ""
      | None => ""
      end in
    match selection st1 with
    | None => Returned st1
    | Some range =>
        let '(doc1, range1) := deleteContents (document st1) range in
        match insertNode doc1 (rstart range1) (Text text) with
        | inl e => Thrown e (with_selection (Some range1) (with_document doc1 st1))
        | inr (doc2, w, _) =>
            let after := {| container := removelast w; offset := S (last w 0) |} in
            updateEditorState host
              (with_selection (Some {| rstart := after; rend := after |})
                 (with_document doc2 st1))
        end
    end.

(** The [onClick] of the button "Remove Link".  The boundary points of the
    range lie inside the link; the removal of the child that holds them
    moves them to the start of the link, and the removal of the link to where
    the link stood last, after the children that have left it.  [None]: the
    loop does not end, which is what it does on a link that has children and
    no parent node. *)
Definition handleRemoveLink : state -> option outcome :=
  fun st =>
    match selection st with
    | None => Some (Returned st)
    | Some range =>
        let link :=
          match parentElement (commonAncestorContainer range) with
          | Some parent => closest (document st) parent ["a"]
          | None => None
          end in
        match link with
        | Some [] =>
            match children (document st) with
            | [] => Some (updateEditorState host st)
            | _ :: _ => None
            end
        | Some (i :: q') =>
            let q := i :: q' in
            let b := {| container := removelast q;
                        offset := last q 0 + List.length (children_at (document st) q) |} in
            Some (updateEditorState host
                    (with_selection (Some {| rstart := b; rend := b |})
                       (with_document (unwrap_link q (document st)) st)))
        | None => Some (Returned st)
        end
    end.

End Surface.

(** What the user does to the component, by the handlers the markup binds:
    the buttons and menus of the toolbar, and the events of the editing
    surface. *)
Inductive interaction : Type :=
| FormatButton (format : string)
| HeadingMenu (value : string)
| FontSizeMenu (value : string)
| AlignButton (a : alignment)
| ListButton (t : list_type)
| LinkButton (answer : option string)
| UnlinkButton
| UndoButton
| RedoButton
| MouseUp
| KeyUp
| Input
| Blur
| Paste (plain_text : option string)
| KeyDown (e : KeyboardEvent).

(** The handler bound to an interaction. *)
Definition react (host : Host) (i : interaction) : state -> option outcome :=
  fun st =>
    match i with
    | FormatButton format => Some (toggleFormat host format st)
    | HeadingMenu value => Some (handleHeadingChange host value st)
    | FontSizeMenu value => Some (handleFontSizeChange host value st)
    | AlignButton a => Some (formatAlignment host a st)
    | ListButton t => Some (toggleList host t st)
    | LinkButton answer => Some (handleCreateLink host answer st)
    | UnlinkButton => handleRemoveLink host st
    | UndoButton => Some (Returned (log (ExecCommand "undo") st))
    | RedoButton => Some (Returned (log (ExecCommand "redo") st))
    | MouseUp | KeyUp | Input | Blur => Some (updateEditorState host st)
    | Paste plain_text => Some (handlePaste host plain_text st)
    | KeyDown e => Some (handleKeyDown host e st)
    end.

(** ** Notions the properties are stated with *)

(** A boundary point of the document: its container is a node of the tree
    and its offset is within the node. *)
Definition valid_boundary (doc : node) (b : boundary) : bool :=
  match node_at doc (container b) with
  | Some n => (offset b <=? node_length n)%nat
  | None => false
  end.

(** Tree order of boundary points. *)
Definition boundary_leb (s e : boundary) : bool :=
  let '(_, sr, er) := split_common (container s) (container e) in
  match sr, er with
  | [], [] => (offset s <=? offset e)%nat
  | [], j :: _ => (offset s <=? j)%nat
  | i :: _, [] => (i <? offset e)%nat
  | i :: _, j :: _ => (i <? j)%nat
  end.

(** A range of the document. *)
Definition valid_range (doc : node) (r : range) : bool :=
  valid_boundary doc (rstart r) && valid_boundary doc (rend r)
  && boundary_leb (rstart r) (rend r).

(** Where [surroundContents] puts the new parent: after the first half of
    the text node the range starts in, or at the start offset in the common
    ancestor. *)
Definition wrapper_path (doc : node) (r : range) : path :=
  let '(ca, sr, _) := split_common (container (rstart r)) (container (rend r)) in
  match node_at doc ca with
  | Some (Text _) => removelast ca ++ [S (last ca 0)]
  | _ => ca ++ [match sr with [] => offset (rstart r) | i :: _ => S i end]
  end.

(** The number of nodes of a tree. *)
Fixpoint node_count (n : node) : nat :=
  match n with
  | Text _ => 1
  | Element _ _ cs => S (list_sum (map node_count cs))
  end.

(** [q] is the nearest inclusive ancestor of [p] with one of the tags. *)
Definition nearest_with_tag (doc : node) (tags : list string) (p q : path) : Prop :=
  is_prefix q p = true
  /\ has_tag_in doc tags q = true
  /\ forall q', is_prefix q q' = true -> is_prefix q' p = true ->
                has_tag_in doc tags q' = true -> q' = q.

(** A selection text that [handleCreateLink] turns down. *)
Definition blank (s : string) : bool := negb (Str.truthy (Str.trim s)).

(** The ASCII white space of HTML: TAB, LF, FF, CR and SPACE. *)
Definition is_ascii_whitespace (c : ascii) : bool :=
  let n := nat_of_ascii c in
  (n =? 9)%nat || (n =? 10)%nat || (n =? 12)%nat || (n =? 13)%nat || (n =? 32)%nat.

(** The tokens of a space-separated attribute value. *)
Fixpoint tokens_from (acc : string) (s : string) : list string :=
  match s with
  | EmptyString => match acc with EmptyString => [] | _ => [acc] end
  | String c r =>
      if is_ascii_whitespace c then
        match acc with
        | EmptyString => tokens_from EmptyString r
        | _ => acc :: tokens_from EmptyString r
        end
      else tokens_from (acc ++ String c EmptyString) r
  end.

Definition tokens (s : string) : list string := tokens_from EmptyString s.

Definition is_alignment_class (c : string) : bool := Str.mem c alignment_classes.

(** The block signal after a step: as before it, or one of the tags the
    inspector looks for. *)
Definition block_signal_kept (st st' : state) : Prop :=
  currentBlock st' = currentBlock st \/ In (currentBlock st') block_tags.

(** The selection lies in the document: the document element is an element,
    and the range of the selection, if there is one, is a range of the
    document. *)
Definition selection_in_document (st : state) : bool :=
  negb (is_text (document st))
  && match selection st with
     | Some r => valid_range (document st) r
     | None => true
     end.

(** ** Documents and states for the concrete cases *)

(** A host for the concrete cases: its style engine knows inline
    declarations only, it renders all the text of a range, and its parser is
    given markup that it leaves as it stands. *)
Definition inline_style_engine : Host :=
  {| getComputedStyle := fun doc p prop =>
       match node_at doc p with
       | Some (Element _ a _) =>
           match get_property prop (styleDecls a) with
           | Some v => v
           | None => ""
           end
       | _ => ""
       end;
     selectionText := range_toString;
     innerHTML_copy := fun _ cs => reparse_children cs |}.

Definition plain (tag : string) (cs : list node) : node :=
  Element tag no_attributes cs.

(** A page whose body holds the editor [div] with the given content; the
    editor is at path [[0; 0]]. *)
Definition page (content : list node) : node :=
  plain "html" [plain "body" [plain "div" content]].

(** The state of a mounted editor before any formatting signal is set. *)
Definition mounted (doc : node) (r : range) : state :=
  {| editorRef := true; document := doc; selection := Some r;
     isBold := false; isItalic := false; isUnderline := false;
     isStrikethrough := false; currentBlock := "p"; effects := [] |}.

Definition span_of (sp : path) (so : nat) (ep : path) (eo : nat) : range :=
  {| rstart := {| container := sp; offset := so |};
     rend := {| container := ep; offset := eo |} |}.

(** [<p>Hello</p>] in the editor; the text node is at [[0; 0; 0; 0]]. *)
Definition hello_page : node := page [plain "p" [Text "Hello"]].

(** [<p>ab<b>cd</b></p>] in the editor. *)
Definition mixed_page : node :=
  page [plain "p" [Text "ab"; plain "b" [Text "cd"]]].

(** [<ol><li>x</li><li>y</li></ol>] in the editor. *)
Definition ordered_page : node :=
  page [plain "ol" [plain "li" [Text "x"]; plain "li" [Text "y"]]].

(** [<ul><li>Hello</li></ul>] in the editor. *)
Definition bullet_page : node :=
  page [plain "ul" [plain "li" [Text "Hello"]]].

(** [<p class="lead text-left text-right" style="color: red; text-align: left;">Hello</p>]
    in the editor. *)
Definition aligned_page : node :=
  page [Element "p"
          {| styleText := "color: red; text-align: left;";
             styleDecls := [("color", "red"); ("text-align", "left")];
             classList := ["lead"; "text-left"; "text-right"];
             href := None; target := None; rel := None |}
          [Text "Hello"]].

(** A page with a note beside the editor: text in a [span] that no block
    element holds, at [[0; 0; 0]]; the editor holds a heading. *)
Definition note_page : node :=
  plain "html"
    [plain "body"
       [plain "span" [Text "note"];
        plain "div" [plain "h1" [Text "Title"]]]].

(** The editor after the inspector has seen a selection in the heading of
    [note_page] and the user has then selected text in the note. *)
Definition note_selected : state :=
  with_selection (Some (span_of [0; 0; 0] 0 [0; 0; 0] 4))
    (final_state
       (updateEditorState inline_style_engine
          (mounted note_page (span_of [0; 1; 0; 0] 0 [0; 1; 0; 0] 5)))).

(** [<p>see <a href="https://example.com">the <b>site</b></a> now</p>] in
    the editor; the link is at [[0; 0; 0; 1]]. *)
Definition linked_page : node :=
  page [plain "p"
          [Text "see ";
           Element "a"
             {| styleText := ""; styleDecls := []; classList := [];
                href := Some "https://example.com"; target := Some "_blank";
                rel := Some "noopener noreferrer" |}
             [Text "the "; plain "b" [Text "site"]];
           Text " now"]].

(** * Properties *)

(** ** Paths and the walk to the document element *)

Lemma is_prefix_refl p : is_prefix p p = true.
Proof. induction p; simpl; [reflexivity|]. now rewrite Nat.eqb_refl. Qed.

Lemma is_prefix_app q p : is_prefix q p = true <-> exists r, p = q ++ r.
Proof.
  revert p. induction q as [|i q IH]; intros p; simpl.
  - split; eauto.
  - destruct p as [|j p].
    + split; [discriminate|]. intros [r Hr]. discriminate Hr.
    + rewrite andb_true_iff, Nat.eqb_eq, IH. split.
      * intros [-> [r ->]]. now exists r.
      * intros [r Hr]. injection Hr as -> ->. eauto.
Qed.

Lemma is_prefix_trans a b c :
  is_prefix a b = true -> is_prefix b c = true -> is_prefix a c = true.
Proof.
  rewrite !is_prefix_app. intros [r ->] [r' ->].
  exists (r ++ r'). now rewrite app_assoc.
Qed.

Lemma is_prefix_antisym a b :
  is_prefix a b = true -> is_prefix b a = true -> a = b.
Proof.
  rewrite !is_prefix_app. intros [r ->] [r' H].
  rewrite <- app_assoc in H. rewrite <- (app_nil_r a) in H at 1.
  apply app_inv_head in H. symmetry in H. apply app_eq_nil in H as [-> _].
  now rewrite app_nil_r.
Qed.

Lemma is_prefix_removelast p : is_prefix (removelast p) p = true.
Proof.
  apply is_prefix_app. destruct p as [|i p]; [now exists []|].
  exists [last (i :: p) 0]. apply app_removelast_last. discriminate.
Qed.

Lemma is_prefix_proper q p :
  is_prefix q p = true -> q = p \/ is_prefix q (removelast p) = true.
Proof.
  rewrite is_prefix_app. intros [r ->].
  destruct r as [|x r] using rev_ind; [left; now rewrite app_nil_r|].
  right. rewrite app_assoc, removelast_last. apply is_prefix_app. eauto.
Qed.

Lemma length_removelast_cons (i : nat) (p : path) :
  List.length (removelast (i :: p)) = List.length p.
Proof.
  rewrite removelast_firstn_len, length_firstn. simpl. lia.
Qed.

Lemma find_climb_nearest (f : path -> bool) fuel p q :
  List.length p <= fuel ->
  find f (climb fuel p) = Some q ->
  is_prefix q p = true /\ f q = true
  /\ forall q', is_prefix q q' = true -> is_prefix q' p = true -> f q' = true -> q' = q.
Proof.
  revert p. induction fuel as [|fuel IH]; intros p Hlen; simpl.
  - destruct p; [|simpl in Hlen; lia].
    destruct (f []) eqn:Hf; [|discriminate]. intros [= <-].
    repeat split; auto. intros q' _ Hq' _. now destruct q'.
  - destruct (f p) eqn:Hf.
    + intros [= <-]. split; [apply is_prefix_refl|]. split; [assumption|].
      intros q' H1 H2 _. now apply is_prefix_antisym.
    + destruct p as [|i p]; [discriminate|].
      cbn [parentElement]. intros Hfind.
      apply IH in Hfind; [|rewrite length_removelast_cons; simpl in Hlen; lia].
      destruct Hfind as (Hpre & Hq & Hnear).
      split; [eapply is_prefix_trans; [eassumption|apply is_prefix_removelast]|].
      split; [assumption|].
      intros q' H1 H2 H3. apply is_prefix_proper in H2 as [->|H2]; [congruence|].
      now apply Hnear.
Qed.

Lemma find_climb_none (f : path -> bool) fuel p :
  List.length p <= fuel ->
  find f (climb fuel p) = None ->
  forall q, is_prefix q p = true -> f q = false.
Proof.
  revert p. induction fuel as [|fuel IH]; intros p Hlen; simpl.
  - destruct p; [|simpl in Hlen; lia].
    destruct (f []) eqn:Hf; [discriminate|]. intros _ q Hq. now destruct q.
  - destruct (f p) eqn:Hf; [discriminate|].
    destruct p as [|i p].
    + intros _ q Hq. now destruct q.
    + cbn [parentElement]. intros Hfind q Hq.
      apply is_prefix_proper in Hq as [->|Hq]; [assumption|].
      eapply IH; [|eassumption|eassumption].
      rewrite length_removelast_cons; simpl in Hlen; lia.
Qed.

(** [closest] returns the nearest inclusive ancestor with one of the tags. *)
Lemma closest_nearest doc p tags q :
  closest doc p tags = Some q -> nearest_with_tag doc tags p q.
Proof.
  unfold closest, inclusive_ancestors, nearest_with_tag. intros H.
  now apply find_climb_nearest in H.
Qed.

(** When it returns none, no inclusive ancestor has one of the tags. *)
Lemma closest_none doc p tags :
  closest doc p tags = None ->
  forall q, is_prefix q p = true -> has_tag_in doc tags q = false.
Proof.
  unfold closest, inclusive_ancestors. intros H q Hq.
  eapply find_climb_none; [|exact H|exact Hq]. apply le_n.
Qed.

Lemma is_prefix_comparable a b p :
  is_prefix a p = true -> is_prefix b p = true ->
  is_prefix a b = true \/ is_prefix b a = true.
Proof.
  revert b p. induction a as [|i a IH]; intros b p; [now left|].
  destruct b as [|j b]; [now right|].
  destruct p as [|k p]; [discriminate|]. simpl.
  rewrite !andb_true_iff, !Nat.eqb_eq. intros [-> Ha] [-> Hb].
  destruct (IH b p Ha Hb); [left|right]; auto.
Qed.

Lemma nearest_with_tag_unique doc tags p q q' :
  nearest_with_tag doc tags p q -> nearest_with_tag doc tags p q' -> q = q'.
Proof.
  intros (Hp & Ht & Hn) (Hp' & Ht' & Hn').
  destruct (is_prefix_comparable q q' p Hp Hp') as [H|H].
  - symmetry. now apply Hn.
  - now apply Hn'.
Qed.

(** ** Reading and rewriting the tree at a path *)

Lemma nth_error_update_nth_same {A : Type} (f : A -> A) i (l : list A) x :
  nth_error l i = Some x -> nth_error (update_nth f i l) i = Some (f x).
Proof.
  intros H. unfold update_nth. rewrite H.
  assert (Hi : i < List.length l) by (apply nth_error_Some; congruence).
  rewrite nth_error_app2; rewrite length_firstn, Nat.min_l by lia; [|lia].
  now rewrite Nat.sub_diag.
Qed.

Lemma list_split_nth {A : Type} (l : list A) i x :
  nth_error l i = Some x -> l = firstn i l ++ x :: skipn (S i) l.
Proof.
  revert l. induction i as [|i IH]; intros [|y l]; simpl; try discriminate.
  - now intros [= ->].
  - intros H. f_equal. now apply IH.
Qed.

Lemma nth_error_update_nth_other {A : Type} (f : A -> A) i j (l : list A) :
  i <> j -> nth_error (update_nth f i l) j = nth_error l j.
Proof.
  intros Hij. unfold update_nth.
  destruct (nth_error l i) as [x|] eqn:H; [|reflexivity].
  assert (Hi : i < List.length l) by (apply nth_error_Some; congruence).
  rewrite (list_split_nth l i x H) at 3.
  destruct (Nat.lt_ge_cases j i) as [Hlt|Hge].
  - rewrite !nth_error_app1 by (rewrite length_firstn; lia). reflexivity.
  - rewrite !nth_error_app2 by (rewrite length_firstn; lia).
    rewrite length_firstn, Nat.min_l by lia.
    destruct (j - i) as [|d] eqn:Hd; [lia|]. reflexivity.
Qed.

Lemma node_at_app doc p q :
  node_at doc (p ++ q)
  = match node_at doc p with Some n => node_at n q | None => None end.
Proof.
  revert doc. induction p as [|i p IH]; intros doc; simpl; [reflexivity|].
  destruct (nth_error (children doc) i); [apply IH|reflexivity].
Qed.

Lemma node_at_alter_at_same f doc p n :
  node_at doc p = Some n -> node_at (alter_at f doc p) p = Some (f n).
Proof.
  revert doc. induction p as [|i p IH]; intros doc; simpl.
  - now intros [= ->].
  - destruct doc as [d|t a cs]; simpl; [now destruct i|].
    destruct (nth_error cs i) as [c|] eqn:Hc; [|discriminate].
    intros H. rewrite (nth_error_update_nth_same _ _ _ _ Hc). now apply IH.
Qed.

Lemma alter_at_ext f g doc p :
  (forall n, node_at doc p = Some n -> f n = g n) ->
  alter_at f doc p = alter_at g doc p.
Proof.
  revert doc. induction p as [|i p IH]; intros doc H; simpl.
  - now apply H.
  - destruct doc as [d|t a cs]; [reflexivity|]. f_equal.
    unfold update_nth. destruct (nth_error cs i) as [c|] eqn:Hc; [|reflexivity].
    f_equal. f_equal. apply IH. intros n Hn. apply H. simpl. now rewrite Hc.
Qed.

Lemma alter_at_app f doc p q :
  alter_at f doc (p ++ q) = alter_at (fun n => alter_at f n q) doc p.
Proof.
  revert doc. induction p as [|i p IH]; intros doc; simpl; [reflexivity|].
  destruct doc as [d|t a cs]; [reflexivity|]. f_equal.
  unfold update_nth. destruct (nth_error cs i); [|reflexivity].
  now rewrite IH.
Qed.

Lemma update_nth_twice {A : Type} (f g : A -> A) i (l : list A) :
  update_nth g i (update_nth f i l) = update_nth (fun x => g (f x)) i l.
Proof.
  unfold update_nth at 1.
  destruct (nth_error l i) as [x|] eqn:H.
  - rewrite (nth_error_update_nth_same f _ _ _ H).
    unfold update_nth. rewrite H.
    assert (Hi : i < List.length l) by (apply nth_error_Some; congruence).
    rewrite firstn_app, firstn_firstn, length_firstn, !Nat.min_l by lia.
    rewrite Nat.sub_diag, firstn_O, app_nil_r.
    f_equal. f_equal.
    rewrite skipn_app, length_firstn, Nat.min_l by lia.
    rewrite skipn_all2 by (rewrite length_firstn; lia).
    replace (S i - i) with 1 by lia. reflexivity.
  - unfold update_nth. rewrite H, H. reflexivity.
Qed.

Lemma update_nth_ext {A : Type} (f g : A -> A) i (l : list A) :
  (forall x, nth_error l i = Some x -> f x = g x) ->
  update_nth f i l = update_nth g i l.
Proof.
  intros H. unfold update_nth. destruct (nth_error l i) as [x|]; [|reflexivity].
  now rewrite (H x eq_refl).
Qed.

Lemma alter_at_twice f g doc p :
  alter_at g (alter_at f doc p) p = alter_at (fun n => g (f n)) doc p.
Proof.
  revert doc. induction p as [|i p IH]; intros doc; simpl; [reflexivity|].
  destruct doc as [d|t a cs]; [reflexivity|]. simpl. f_equal.
  rewrite update_nth_twice. apply update_nth_ext. intros x _. apply IH.
Qed.

(** A node that is neither at [p], nor above it, nor below it stays. *)
Lemma node_at_alter_at_apart f doc p q :
  is_prefix p q = false -> is_prefix q p = false ->
  node_at (alter_at f doc p) q = node_at doc q.
Proof.
  revert doc q. induction p as [|i p IH]; intros doc q; [discriminate|].
  destruct q as [|j q]; [discriminate|]. simpl.
  destruct doc as [d|t a cs]; [reflexivity|]. simpl.
  destruct (Nat.eqb_spec i j) as [->|Hij]; simpl.
  - rewrite ?Nat.eqb_refl. simpl. intros Hpq Hqp.
    destruct (nth_error cs j) as [c|] eqn:Hc.
    + rewrite (nth_error_update_nth_same _ _ _ _ Hc). now apply IH.
    + unfold update_nth. now rewrite Hc, Hc.
  - intros _ _. now rewrite nth_error_update_nth_other.
Qed.

Lemma alter_at_missing f doc p :
  node_at doc p = None -> alter_at f doc p = doc.
Proof.
  revert doc. induction p as [|i p IH]; intros doc; simpl; [discriminate|].
  destruct doc as [d|t a cs]; [reflexivity|]. simpl. intros H. f_equal.
  unfold update_nth. destruct (nth_error cs i) as [c|] eqn:Hc; [|reflexivity].
  rewrite (IH c H). symmetry. now apply list_split_nth.
Qed.

(** ** Strings and slices *)

Lemma length_take n s : n <= String.length s -> String.length (Str.take n s) = n.
Proof.
  revert s. induction n as [|n IH]; intros [|c s]; simpl; intros H; try lia.
  rewrite IH; lia.
Qed.

Lemma take_append a b : Str.take (String.length a) (a ++ b) = a.
Proof.
  induction a as [|c a IH]; simpl.
  - now destruct b.
  - now rewrite IH.
Qed.

Lemma drop_append a b : Str.drop (String.length a) (a ++ b) = b.
Proof. induction a as [|c a IH]; simpl; [reflexivity|exact IH]. Qed.

Lemma take_drop n s : (Str.take n s ++ Str.drop n s)%string = s.
Proof.
  revert s. induction n as [|n IH]; intros [|c s]; simpl; try reflexivity.
  now rewrite IH.
Qed.

Lemma slice_empty {A : Type} n (l : list A) : slice n n l = [].
Proof. unfold slice. now rewrite Nat.sub_diag. Qed.

Lemma update_nth_app {A : Type} (f : A -> A) (l1 l2 : list A) j :
  update_nth f (List.length l1 + j) (l1 ++ l2) = l1 ++ update_nth f j l2.
Proof.
  unfold update_nth.
  rewrite nth_error_app2 by lia.
  replace (List.length l1 + j - List.length l1) with j by lia.
  destruct (nth_error l2 j) as [x|] eqn:H; [|reflexivity].
  rewrite firstn_app, firstn_all2 by lia.
  replace (List.length l1 + j - List.length l1) with j by lia.
  rewrite <- app_assoc. f_equal. f_equal. f_equal.
  change (S (List.length l1 + j)) with (S (List.length l1 + j)).
  rewrite skipn_app, skipn_all2 by lia.
  replace (S (List.length l1 + j) - List.length l1) with (S j) by lia.
  reflexivity.
Qed.

Lemma split_common_same p : split_common p p = (p, [], []).
Proof.
  induction p as [|i p IH]; simpl; [reflexivity|].
  now rewrite Nat.eqb_refl, IH.
Qed.

Lemma split_common_spec p q c rp rq :
  split_common p q = (c, rp, rq) ->
  p = c ++ rp /\ q = c ++ rq
  /\ match rp, rq with i :: _, j :: _ => i <> j | _, _ => True end.
Proof.
  revert q c rp rq. induction p as [|i p IH]; intros q c rp rq; simpl.
  - intros [= <- <- <-]. repeat split. 
  - destruct q as [|j q].
    + intros [= <- <- <-]. repeat split.
    + destruct (Nat.eqb_spec i j) as [->|Hij].
      * destruct (split_common p q) as [[c' rp'] rq'] eqn:E.
        intros [= <- <- <-]. destruct (IH _ _ _ _ E) as (-> & -> & H).
        repeat split. exact H.
      * intros [= <- <- <-]. repeat split. exact Hij.
Qed.

Lemma path_eqb_refl p : path_eqb p p = true.
Proof. induction p; simpl; [reflexivity|]. now rewrite Nat.eqb_refl. Qed.

Lemma path_eqb_eq p q : path_eqb p q = true <-> p = q.
Proof.
  revert q. induction p as [|i p IH]; intros [|j q]; simpl; split; try easy.
  - rewrite andb_true_iff, Nat.eqb_eq, IH. now intros [-> ->].
  - intros [= -> ->]. now rewrite Nat.eqb_refl, path_eqb_refl.
Qed.

(** ** Markup that comes back as it stands *)

Lemma node_nested_ind (P : node -> Prop) :
  (forall d, P (Text d)) ->
  (forall t a cs, Forall P cs -> P (Element t a cs)) ->
  forall n, P n.
Proof.
  intros HT HE. fix IH 1. intros [d|t a cs]; [apply HT|].
  apply HE. induction cs as [|c cs IHcs]; constructor; [apply IH|exact IHcs].
Qed.

Lemma append_nil_r (s : string) : (s ++ "")%string = s.
Proof. induction s as [|c s IH]; simpl; [reflexivity|now rewrite IH]. Qed.

Lemma append_assoc (a b c : string) : (a ++ (b ++ c))%string = ((a ++ b) ++ c)%string.
Proof. induction a as [|x a IH]; simpl; [reflexivity|now rewrite IH]. Qed.

Lemma text_of_merge_text l : text_of (merge_text l) = text_of l.
Proof.
  unfold text_of. induction l as [|n l IH]; [reflexivity|].
  destruct n as [d|t a cs]; cbn [merge_text map Str.join textContent].
  - rewrite <- IH. destruct (merge_text l) as [|[d'|t' a' cs'] m].
    + destruct d; [reflexivity|]. cbn [map Str.join textContent]. reflexivity.
    + cbn [map Str.join textContent]. now rewrite append_assoc.
    + destruct d; reflexivity.
  - now rewrite IH.
Qed.

Lemma textContent_reparse n : textContent (reparse n) = textContent n.
Proof.
  induction n as [d|t a cs IH] using node_nested_ind; [reflexivity|].
  cbn [reparse textContent]. fold (text_of (merge_text (map reparse cs))).
  rewrite text_of_merge_text. unfold text_of. f_equal.
  rewrite map_map. induction IH as [|c cs Hc _ IHcs]; [reflexivity|].
  simpl. now rewrite Hc, IHcs.
Qed.

(** The copy has the text of the original. *)
Lemma text_of_reparse_children cs : text_of (reparse_children cs) = text_of cs.
Proof.
  unfold reparse_children. rewrite text_of_merge_text. unfold text_of. f_equal.
  rewrite map_map. induction cs as [|c cs IH]; [reflexivity|].
  simpl. now rewrite textContent_reparse, IH.
Qed.

(** ** Wrapping a range *)

Lemma set_children_twice cs cs' n :
  set_children cs (set_children cs' n) = set_children cs n.
Proof. now destruct n. Qed.

(** A range inside one text node: the text node gives way to the text
    before the range, the new parent holding the text of the range, and the
    text after the range. *)
Lemma take_take_append n d x :
  n <= String.length d -> Str.take n (Str.take n d ++ x) = Str.take n d.
Proof.
  intros H. pose proof (take_append (Str.take n d) x) as E.
  now rewrite (length_take n d H) in E.
Qed.

Lemma drop_take_append n d x :
  n <= String.length d -> Str.drop n (Str.take n d ++ x) = x.
Proof.
  intros H. pose proof (drop_append (Str.take n d) x) as E.
  now rewrite (length_take n d H) in E.
Qed.

Lemma update_nth_split {A : Type} (f : A -> A) i (l : list A) x :
  nth_error l i = Some x -> update_nth f i l = firstn i l ++ f x :: skipn (S i) l.
Proof. intros H. unfold update_nth. now rewrite H. Qed.

Lemma surroundContents_in_text doc pp k t a cs d so eo newParent :
  node_at doc pp = Some (Element t a cs) ->
  nth_error cs k = Some (Text d) ->
  so <= eo -> eo <= String.length d ->
  surroundContents doc (span_of (pp ++ [k]) so (pp ++ [k]) eo) newParent
  = inr (alter_at
           (set_children
              (firstn k cs
               ++ [Text (Str.take so d);
                   set_children
                     (if (so =? eo)%nat then []
                      else [Text (Str.substringData so (eo - so) d)]) newParent;
                   Text (Str.drop eo d)]
               ++ skipn (S k) cs)) doc pp,
         selectNode (pp ++ [S k])).
Proof.
  intros Hpp Hk Hle Hlen.
  assert (Htext : node_at doc (pp ++ [k]) = Some (Text d)).
  { rewrite node_at_app, Hpp. simpl. now rewrite Hk. }
  assert (Hkl : k < List.length cs) by (apply nth_error_Some; congruence).
  unfold surroundContents, partially_contains_non_text, extractContents, collapsed.
  cbn [span_of rstart rend container offset].
  rewrite !split_common_same. cbv beta iota zeta.
  rewrite !Htext, path_eqb_refl. cbn [orb andb].
  assert (Hne : exists i tp, pp ++ [k] = i :: tp).
  { destruct pp; simpl; eauto. }
  destruct Hne as (i0 & tp0 & Hne).
  assert (Hfk : List.length (firstn k cs) = k) by (rewrite length_firstn; lia).
  destruct (Nat.eqb_spec so eo) as [->|Hneq].
  - cbv beta iota zeta. unfold insertNode.
    cbn [span_of rstart container offset]. rewrite Htext, Hne, <- Hne.
    rewrite removelast_last, last_last.
    f_equal. f_equal.
    rewrite alter_at_app, alter_at_twice. apply alter_at_ext.
    intros n Hn. rewrite Hpp in Hn. injection Hn as <-.
    cbn [alter_at set_children children]. f_equal.
    rewrite <- Hfk at 1.
    replace (S (List.length (firstn k cs)))
      with (List.length (firstn k cs) + 1) by lia.
    rewrite update_nth_app. unfold update_nth. cbn [nth_error firstn skipn app].
    now rewrite set_children_twice.
  - cbv beta iota zeta. unfold insertNode.
    cbn [span_of rstart container offset].
    rewrite (node_at_alter_at_same _ _ _ _ Htext), Hne, <- Hne.
    rewrite removelast_last, last_last.
    f_equal. f_equal.
    rewrite (alter_at_app _ _ pp [k]), alter_at_twice.
    rewrite alter_at_app, alter_at_twice. apply alter_at_ext.
    intros n Hn. rewrite Hpp in Hn. injection Hn as <-.
    cbn [alter_at set_children children]. f_equal.
    rewrite !(update_nth_split (fun _ => Text (Str.take so d ++ Str.drop eo d)) k cs _ Hk).
    assert (Hf : firstn k (firstn k cs
                           ++ Text (Str.take so d ++ Str.drop eo d)
                              :: skipn (S k) cs)
                 = firstn k cs).
    { rewrite <- Hfk at 1. rewrite firstn_app, Nat.sub_diag, firstn_O, app_nil_r.
      apply firstn_all. }
    assert (Hs : skipn (S k) (firstn k cs
                              ++ Text (Str.take so d ++ Str.drop eo d)
                                 :: skipn (S k) cs)
                 = skipn (S k) cs).
    { rewrite skipn_app, Hfk.
      rewrite skipn_all2 by lia.
      replace (S k - k) with 1 by lia. reflexivity. }
    rewrite Hf, Hs.
    rewrite <- Hfk at 1.
    replace (S (List.length (firstn k cs)))
      with (List.length (firstn k cs) + 1) by lia.
    rewrite update_nth_app. unfold update_nth. cbn [nth_error firstn skipn app].
    rewrite set_children_twice.
    assert (Hso : so <= String.length d) by lia.
    now rewrite take_take_append, drop_take_append.
Qed.

Lemma insertNode_in_element doc p t a cs o n :
  node_at doc p = Some (Element t a cs) ->
  o <= List.length cs ->
  insertNode doc {| container := p; offset := o |} n
  = inr (alter_at (set_children (firstn o cs ++ n :: skipn o cs)) doc p,
         p ++ [o],
         {| rstart := {| container := p; offset := o |};
            rend := {| container := p; offset := S o |} |}).
Proof.
  intros Hp Ho. unfold insertNode. cbn [container offset].
  rewrite Hp. now rewrite Nat.min_l by lia.
Qed.

Lemma fill_inserted doc p t a cs l1 l2 n contents :
  node_at doc p = Some (Element t a cs) ->
  alter_at (set_children contents)
    (alter_at (set_children (l1 ++ n :: l2)) doc p) (p ++ [List.length l1])
  = alter_at (set_children (l1 ++ set_children contents n :: l2)) doc p.
Proof.
  intros Hp. rewrite alter_at_app, alter_at_twice. apply alter_at_ext.
  intros m Hm. rewrite Hp in Hm. injection Hm as <-.
  cbn [alter_at set_children]. f_equal.
  replace (List.length l1) with (List.length l1 + 0) by lia.
  rewrite update_nth_app. reflexivity.
Qed.

Lemma cut_children_before_length cs sr so er eo :
  match sr with [] => so | i :: _ => S i end <= List.length cs ->
  List.length (fst (fst (cut_children cs sr so er eo)))
  = match sr with [] => so | i :: _ => S i end.
Proof.
  intros H. unfold cut_children.
  destruct sr as [|i sr], er as [|j er]; cbn [fst];
    rewrite ?length_app, length_firstn; simpl; lia.
Qed.

(** A range whose common ancestor is an element and which cuts no element
    in two: the children of the common ancestor that the range holds, with
    the parts of the text nodes it starts and ends in, give way to the new
    parent holding them. *)
Lemma surroundContents_in_element doc sp so ep eo ca sr er t a cs newParent :
  split_common sp ep = (ca, sr, er) ->
  node_at doc ca = Some (Element t a cs) ->
  partially_contains_non_text doc (span_of sp so ep eo) = false ->
  match sr with [] => so | i :: _ => S i end <= List.length cs ->
  surroundContents doc (span_of sp so ep eo) newParent
  = let '(before, inside, after) := cut_children cs sr so er eo in
    inr (alter_at
           (set_children (before ++ set_children inside newParent :: after)) doc ca,
         selectNode (ca ++ [match sr with [] => so | i :: _ => S i end])).
Proof.
  intros Hsplit Hca Hpart Hidx.
  unfold surroundContents. rewrite Hpart.
  unfold extractContents, collapsed. cbn [span_of rstart rend container offset].
  pose proof (cut_children_before_length cs sr so er eo Hidx) as Hlen.
  destruct (path_eqb sp ep && (so =? eo)%nat) eqn:Hcol.
  - apply andb_true_iff in Hcol as [Hp Ho].
    apply path_eqb_eq in Hp. apply Nat.eqb_eq in Ho. subst ep eo.
    rewrite split_common_same in Hsplit. injection Hsplit as <- <- <-.
    cbn [cut_children] in *. cbn [fst] in Hlen. 
    rewrite slice_empty.
    cbn [rstart]. rewrite (insertNode_in_element _ _ _ _ _ _ _ Hca Hidx).
    pose proof (fill_inserted doc sp t a cs (firstn so cs) (skipn so cs)
                  (set_children [] newParent) [] Hca) as E.
    rewrite Hlen in E. rewrite E.
    now rewrite set_children_twice.
  - rewrite Hsplit, Hca.
    destruct (cut_children cs sr so er eo) as [[before inside] after] eqn:Hcut.
    cbn [fst] in Hlen. cbn [rstart].
    pose proof (node_at_alter_at_same (set_children (before ++ after)) _ _ _ Hca) as Hca'.
    cbn [set_children] in Hca'.
    rewrite (insertNode_in_element _ _ _ _ _ _ _ Hca')
      by (rewrite length_app; lia).
    rewrite alter_at_twice.
    assert (Hf : firstn (match sr with [] => so | i :: _ => S i end)
                   (before ++ after) = before).
    { rewrite <- Hlen. rewrite firstn_app, Nat.sub_diag, firstn_O, app_nil_r.
      apply firstn_all. }
    assert (Hs : skipn (match sr with [] => so | i :: _ => S i end)
                   (before ++ after) = after).
    { rewrite <- Hlen. rewrite skipn_app, Nat.sub_diag, skipn_all. reflexivity. }
    rewrite Hf, Hs.
    f_equal. f_equal.
    rewrite (alter_at_ext _
               (set_children (before ++ set_children [] newParent :: after)) doc ca)
      by (intros m Hm; rewrite Hca in Hm; now injection Hm as <-).
    pose proof (fill_inserted doc ca t a cs before after
                  (set_children [] newParent) inside Hca) as E.
    rewrite Hlen in E. rewrite E.
    now rewrite set_children_twice.
Qed.

Lemma node_at_app_some doc p q n :
  node_at doc (p ++ q) = Some n ->
  exists m, node_at doc p = Some m /\ node_at m q = Some n.
Proof.
  rewrite node_at_app. destruct (node_at doc p) as [m|]; [eauto|discriminate].
Qed.

Lemma node_at_text_nil d p n : node_at (Text d) p = Some n -> p = [].
Proof. destruct p as [|i p]; [reflexivity|]. simpl. now destruct i. Qed.

Lemma nth_error_middle {A : Type} (l1 l2 : list A) x :
  nth_error (l1 ++ x :: l2) (List.length l1) = Some x.
Proof. rewrite nth_error_app2, Nat.sub_diag by lia. reflexivity. Qed.

(** What [surroundContents] comes to on a range of the document that cuts
    no element in two: it returns; the new parent stands at [wrapper_path]
    and holds what the range held; the range selects it. *)
Lemma surroundContents_wraps doc r newParent :
  is_text doc = false ->
  valid_range doc r = true ->
  partially_contains_non_text doc r = false ->
  exists doc',
    surroundContents doc r newParent = inr (doc', selectNode (wrapper_path doc r))
    /\ node_at doc' (wrapper_path doc r)
       = Some (set_children (cloneContents doc r) newParent).
Proof.
  intros Hroot Hvalid Hpart.
  destruct r as [[sp so] [ep eo]].
  unfold valid_range, valid_boundary, boundary_leb in Hvalid.
  cbn [rstart rend container offset] in Hvalid.
  apply andb_true_iff in Hvalid as [Hvalid Hord].
  apply andb_true_iff in Hvalid as [Hs He].
  destruct (node_at doc sp) as [ns|] eqn:Hsp; [|discriminate].
  destruct (node_at doc ep) as [ne|] eqn:Hep; [|discriminate].
  apply Nat.leb_le in Hs, He.
  unfold wrapper_path, cloneContents, collapsed.
  cbn [rstart rend container offset].
  destruct (split_common sp ep) as [[ca sr] er] eqn:Hsplit.
  destruct (split_common_spec _ _ _ _ _ Hsplit) as (Esp & Eep & Hdiff).
  subst sp ep.
  destruct (node_at_app_some _ _ _ _ Hsp) as (nca & Hca & Hsr).
  destruct (node_at_app_some _ _ _ _ Hep) as (nca' & Hca' & Her).
  rewrite Hca in Hca'. injection Hca' as <-. rewrite Hca.
  destruct nca as [d|t a cs].
  - (* the common ancestor is a text node *)
    apply node_at_text_nil in Hsr as Esr. apply node_at_text_nil in Her as Eer.
    subst sr er. rewrite !app_nil_r in *.
    simpl in Hsr, Her. injection Hsr as <-. injection Her as <-.
    simpl in Hs, He. apply Nat.leb_le in Hord.
    destruct ca as [|i0 ca0] using rev_ind.
    { simpl in Hca. injection Hca as ->. discriminate. }
    clear IHca0. rename ca0 into pp, i0 into k.
    destruct (node_at_app_some _ _ _ _ Hca) as (par & Hpar & Hk).
    destruct par as [d'|t a cs]; [now destruct k|].
    simpl in Hk. destruct (nth_error cs k) as [c|] eqn:Hck; [|discriminate].
    injection Hk as ->.
    rewrite path_eqb_refl. cbn [andb].
    rewrite removelast_last, last_last.
    eexists. split.
    + apply (surroundContents_in_text doc pp k t a cs d so eo newParent Hpar Hck Hord He).
    + rewrite node_at_app, (node_at_alter_at_same _ _ _ _ Hpar).
      cbn [set_children node_at children].
      assert (Hfk : List.length (firstn k cs) = k).
      { rewrite length_firstn. apply Nat.min_l.
        apply Nat.lt_le_incl, nth_error_Some. congruence. }
      rewrite nth_error_app2 by lia. rewrite Hfk.
      replace (S k - k) with 1 by lia. reflexivity.
  - (* the common ancestor is an element *)
    assert (Hidx : match sr with [] => so | i :: _ => S i end <= List.length cs).
    { destruct sr as [|i sr].
      - simpl in Hsr. injection Hsr as <-. exact Hs.
      - simpl in Hsr. destruct (nth_error cs i) eqn:Hi; [|discriminate].
        assert (i < List.length cs) by (apply nth_error_Some; congruence). lia. }
    pose proof (surroundContents_in_element doc (ca ++ sr) so (ca ++ er) eo ca sr er
                  t a cs newParent Hsplit Hca Hpart Hidx) as Hrun.
    pose proof (cut_children_before_length cs sr so er eo Hidx) as Hlen.
    destruct (cut_children cs sr so er eo) as [[before inside] after] eqn:Hcut.
    cbn [fst snd] in *.
    eexists. split; [exact Hrun|].
    rewrite node_at_app, (node_at_alter_at_same _ _ _ _ Hca).
    cbn [set_children node_at children].
    rewrite <- Hlen, nth_error_middle. f_equal. f_equal.
    destruct (path_eqb (ca ++ sr) (ca ++ er) && (so =? eo)%nat) eqn:Hcol; [|reflexivity].
    apply andb_true_iff in Hcol as [Hp Ho].
    apply path_eqb_eq in Hp. apply Nat.eqb_eq in Ho. subst eo.
    rewrite Hp, split_common_same in Hsplit. injection Hsplit as _ <- <-.
    cbn [cut_children] in Hcut. injection Hcut as _ <- _.
    apply slice_empty.
Qed.

Lemma list_sum_split_nth (l : list node) i x :
  nth_error l i = Some x ->
  list_sum (map node_count l)
  = list_sum (map node_count (firstn i l)) + node_count x
    + list_sum (map node_count (skipn (S i) l)).
Proof.
  intros H. rewrite (list_split_nth l i x H) at 1.
  rewrite map_app, list_sum_app. simpl. lia.
Qed.

Lemma node_count_alter_at f doc p n :
  node_at doc p = Some n ->
  node_count (alter_at f doc p) + node_count n = node_count doc + node_count (f n).
Proof.
  revert doc. induction p as [|i p IH]; intros doc; simpl.
  - intros [= ->]. lia.
  - destruct doc as [d|t a cs]; simpl; [now destruct i|].
    destruct (nth_error cs i) as [c|] eqn:Hc; [|discriminate].
    intros Hn. specialize (IH c Hn).
    rewrite (update_nth_split _ _ _ _ Hc).
    rewrite (list_sum_split_nth cs i c Hc).
    rewrite map_app, list_sum_app. simpl. lia.
Qed.

Lemma node_count_positive n : 0 < node_count n.
Proof. destruct n; simpl; lia. Qed.

(** On a collapsed range [surroundContents] is no no-op: the emptied new
    parent is inserted at the boundary point, and the tree grows. *)
Lemma surroundContents_collapsed doc b newParent :
  is_text doc = false ->
  valid_boundary doc b = true ->
  let r := {| rstart := b; rend := b |} in
  exists doc',
    surroundContents doc r newParent = inr (doc', selectNode (wrapper_path doc r))
    /\ node_at doc' (wrapper_path doc r) = Some (set_children [] newParent)
    /\ node_count doc < node_count doc'.
Proof.
  intros Hroot Hvalid r. destruct b as [sp so]. subst r.
  unfold valid_boundary in Hvalid. cbn [container offset] in Hvalid.
  destruct (node_at doc sp) as [ns|] eqn:Hsp; [|discriminate].
  apply Nat.leb_le in Hvalid.
  unfold wrapper_path. cbn [rstart rend container offset].
  rewrite split_common_same, Hsp.
  destruct ns as [d|t a cs].
  - destruct sp as [|k pp _] using rev_ind.
    { simpl in Hsp. injection Hsp as ->. discriminate. }
    destruct (node_at_app_some _ _ _ _ Hsp) as (par & Hpar & Hk).
    destruct par as [d'|t a cs]; [now destruct k|].
    simpl in Hk. destruct (nth_error cs k) as [c|] eqn:Hck; [|discriminate].
    injection Hk as ->. simpl in Hvalid.
    rewrite removelast_last, last_last.
    pose proof (surroundContents_in_text doc pp k t a cs d so so newParent
                  Hpar Hck (le_n _) Hvalid) as Hrun.
    rewrite Nat.eqb_refl in Hrun.
    eexists. split; [exact Hrun|].
    assert (Hfk : List.length (firstn k cs) = k).
    { rewrite length_firstn. apply Nat.min_l.
      apply Nat.lt_le_incl, nth_error_Some. congruence. }
    split.
    + rewrite node_at_app, (node_at_alter_at_same _ _ _ _ Hpar).
      cbn [set_children node_at children].
      rewrite nth_error_app2 by lia. rewrite Hfk.
      replace (S k - k) with 1 by lia. reflexivity.
    + pose proof (node_count_alter_at
                    (set_children
                       (firstn k cs
                        ++ [Text (Str.take so d); set_children [] newParent;
                            Text (Str.drop so d)] ++ skipn (S k) cs))
                    doc pp _ Hpar) as Hcount.
      set (doc' := alter_at _ doc pp) in *.
      cbn [set_children node_count] in Hcount.
      rewrite (list_sum_split_nth cs k _ Hck) in Hcount.
      rewrite !map_app, !list_sum_app in Hcount.
      unfold list_sum in Hcount. cbn [map fold_right node_count] in Hcount.
      pose proof (node_count_positive (set_children [] newParent)). lia.
  - simpl in Hvalid.
    pose proof (surroundContents_in_element doc sp so sp so sp [] [] t a cs newParent
                  (split_common_same sp) Hsp) as Hrun.
    cbn [cut_children] in Hrun. rewrite slice_empty in Hrun.
    assert (Hpart : partially_contains_non_text doc (span_of sp so sp so) = false).
    { unfold partially_contains_non_text. cbn [span_of rstart rend container].
      rewrite split_common_same, Hsp. reflexivity. }
    specialize (Hrun Hpart Hvalid).
    eexists. split; [exact Hrun|].
    assert (Hfk : List.length (firstn so cs) = so).
    { rewrite length_firstn. now apply Nat.min_l. }
    split.
    + rewrite node_at_app, (node_at_alter_at_same _ _ _ _ Hsp).
      cbn [set_children node_at children].
      rewrite <- Hfk at 3. now rewrite nth_error_middle.
    + pose proof (node_count_alter_at
                    (set_children (firstn so cs ++ set_children [] newParent :: skipn so cs))
                    doc sp _ Hsp) as Hcount.
      set (doc' := alter_at _ doc sp) in *.
      cbn [set_children node_count] in Hcount.
      rewrite <- (firstn_skipn so cs) in Hcount at 1.
      rewrite !map_app, !list_sum_app in Hcount.
      unfold list_sum in Hcount. cbn [map fold_right node_count] in Hcount.
      pose proof (node_count_positive (set_children [] newParent)). lia.
Qed.

(** ** Wrapping keeps the text *)

Lemma text_of_app l1 l2 : text_of (l1 ++ l2) = (text_of l1 ++ text_of l2)%string.
Proof.
  unfold text_of. induction l1 as [|n l1 IH]; [reflexivity|].
  simpl. now rewrite IH, append_assoc.
Qed.

Lemma text_of_cons n l : text_of (n :: l) = (textContent n ++ text_of l)%string.
Proof. reflexivity. Qed.

Lemma textContent_alter_at f doc p n :
  node_at doc p = Some n ->
  textContent (f n) = textContent n ->
  textContent (alter_at f doc p) = textContent doc.
Proof.
  revert doc. induction p as [|i p IH]; intros doc; simpl.
  - now intros [= ->].
  - destruct doc as [d|t a cs]; simpl; [now destruct i|].
    destruct (nth_error cs i) as [c|] eqn:Hc; [|discriminate].
    intros Hn Hf. rewrite (update_nth_split _ _ _ _ Hc).
    rewrite (list_split_nth cs i c Hc) at 3.
    fold (text_of (firstn i cs ++ alter_at f c p :: skipn (S i) cs)).
    fold (text_of (firstn i cs ++ c :: skipn (S i) cs)).
    rewrite !text_of_app, !text_of_cons. now rewrite (IH c Hn Hf).
Qed.

Lemma drop_drop a b s : Str.drop a (Str.drop b s) = Str.drop (b + a) s.
Proof.
  revert s. induction b as [|b IH]; intros s; [reflexivity|].
  destruct s as [|c s]; simpl; [now destruct a|apply IH].
Qed.

Lemma substringData_drop so eo d :
  so <= eo ->
  (Str.substringData so (eo - so) d ++ Str.drop eo d)%string = Str.drop so d.
Proof.
  intros H. unfold Str.substringData.
  replace eo with (so + (eo - so)) at 2 by lia.
  rewrite <- drop_drop. apply take_drop.
Qed.

Lemma skipn_nth_error {A : Type} (l : list A) i x :
  nth_error l i = Some x -> skipn i l = x :: skipn (S i) l.
Proof.
  revert l. induction i as [|i IH]; intros [|y l]; simpl; try discriminate.
  - now intros [= ->].
  - apply IH.
Qed.

Lemma skipn_slice {A : Type} a b (l : list A) :
  a <= b -> skipn a l = slice a b l ++ skipn b l.
Proof.
  intros H. unfold slice.
  replace b with ((b - a) + a) at 2 by lia.
  rewrite <- skipn_skipn. symmetry. apply firstn_skipn.
Qed.

Lemma take_drop_append n s r :
  (Str.take n s ++ (Str.drop n s ++ r))%string = (s ++ r)%string.
Proof. now rewrite append_assoc, take_drop. Qed.

(** The three parts that [cut_children] makes of the children of the common
    ancestor have, together, the text of the children, when the boundary
    points are in order and the children they lie in are text nodes. *)
Lemma cut_children_text cs sr so er eo :
  match sr, er with
  | [], [] => so <= eo
  | [], j :: _ => so <= j
  | i :: _, [] => i < eo
  | i :: _, j :: _ => i < j
  end ->
  match sr with
  | [] => True
  | i :: sr' => sr' = [] /\ exists d, nth_error cs i = Some (Text d)
  end ->
  match er with
  | [] => True
  | j :: er' => er' = [] /\ exists d, nth_error cs j = Some (Text d)
  end ->
  let '(before, inside, after) := cut_children cs sr so er eo in
  (text_of before ++ text_of inside ++ text_of after)%string = text_of cs.
Proof.
  intros Hord Hs He. unfold cut_children.
  remember (text_of cs) as T eqn:ET.
  destruct sr as [|i sr], er as [|j er].
  - rewrite <- (firstn_skipn so cs), (skipn_slice so eo cs Hord) in ET.
    subst T. now rewrite !text_of_app.
  - destruct He as (-> & d & Hj).
    rewrite (nth_error_nth _ _ _ Hj). cbn [before_node after_node].
    rewrite <- (firstn_skipn so cs), (skipn_slice so j cs Hord),
      (skipn_nth_error _ _ _ Hj) in ET.
    subst T. rewrite !text_of_app, !text_of_cons. cbn [textContent].
    change (text_of []) with EmptyString. rewrite ?append_nil_r.
    rewrite <- !append_assoc. now rewrite take_drop_append.
  - destruct Hs as (-> & d & Hi).
    rewrite (nth_error_nth _ _ _ Hi). cbn [before_node after_node].
    rewrite <- (firstn_skipn i cs), (skipn_nth_error _ _ _ Hi),
      (skipn_slice (S i) eo cs) in ET by lia.
    subst T. rewrite !text_of_app, !text_of_cons. cbn [textContent].
    rewrite !text_of_app.
    change (text_of []) with EmptyString. rewrite ?append_nil_r.
    rewrite <- !append_assoc. now rewrite take_drop_append.
  - destruct Hs as (-> & d & Hi). destruct He as (-> & d' & Hj).
    rewrite (nth_error_nth _ _ _ Hi), (nth_error_nth _ _ _ Hj).
    cbn [before_node after_node].
    rewrite <- (firstn_skipn i cs), (skipn_nth_error _ _ _ Hi),
      (skipn_slice (S i) j cs), (skipn_nth_error _ _ _ Hj) in ET by lia.
    subst T. rewrite !text_of_app, !text_of_cons. cbn [textContent].
    rewrite !text_of_app, !text_of_cons. cbn [textContent].
    change (text_of []) with EmptyString. rewrite ?append_nil_r.
    rewrite <- !append_assoc. now rewrite !take_drop_append.
Qed.

Lemma textContent_element t a l : textContent (Element t a l) = text_of l.
Proof. reflexivity. Qed.

Lemma textContent_set_children l n :
  is_text n = false -> textContent (set_children l n) = text_of l.
Proof. now destruct n. Qed.

Lemma partial_child_is_text cs i (sr' : path) ns :
  node_at (Element "" no_attributes cs) (i :: sr') = Some ns ->
  is_text (nth i cs (Text "")) = true ->
  sr' = [] /\ exists d, nth_error cs i = Some (Text d).
Proof.
  simpl. destruct (nth_error cs i) as [c|] eqn:Hc; [|discriminate].
  rewrite (nth_error_nth _ _ _ Hc). intros Hn Ht.
  destruct c as [d|]; [|discriminate].
  split; [now apply node_at_text_nil in Hn|eauto].
Qed.

(** Wrapping a range that cuts no element in two changes no text of the
    document. *)
Lemma surroundContents_keeps_text doc r newParent doc' r' :
  is_text doc = false ->
  is_text newParent = false ->
  valid_range doc r = true ->
  partially_contains_non_text doc r = false ->
  surroundContents doc r newParent = inr (doc', r') ->
  textContent doc' = textContent doc.
Proof.
  intros Hroot Hnew Hvalid Hpart.
  destruct r as [[sp so] [ep eo]].
  unfold valid_range, valid_boundary, boundary_leb in Hvalid.
  cbn [rstart rend container offset] in Hvalid.
  apply andb_true_iff in Hvalid as [Hvalid Hord].
  apply andb_true_iff in Hvalid as [Hs He].
  destruct (node_at doc sp) as [ns|] eqn:Hsp; [|discriminate].
  destruct (node_at doc ep) as [ne|] eqn:Hep; [|discriminate].
  apply Nat.leb_le in Hs, He.
  destruct (split_common sp ep) as [[ca sr] er] eqn:Hsplit.
  destruct (split_common_spec _ _ _ _ _ Hsplit) as (Esp & Eep & Hdiff).
  subst sp ep.
  destruct (node_at_app_some _ _ _ _ Hsp) as (nca & Hca & Hsr).
  destruct (node_at_app_some _ _ _ _ Hep) as (nca' & Hca' & Her).
  rewrite Hca in Hca'. injection Hca' as <-.
  destruct nca as [d|t a cs].
  - apply node_at_text_nil in Hsr as Esr. apply node_at_text_nil in Her as Eer.
    subst sr er. rewrite !app_nil_r in *.
    simpl in Hsr, Her. injection Hsr as <-. injection Her as <-.
    simpl in Hs, He. apply Nat.leb_le in Hord.
    destruct ca as [|k pp _] using rev_ind.
    { simpl in Hca. injection Hca as ->. discriminate. }
    destruct (node_at_app_some _ _ _ _ Hca) as (par & Hpar & Hk).
    destruct par as [d'|t a cs]; [now destruct k|].
    simpl in Hk. destruct (nth_error cs k) as [c|] eqn:Hck; [|discriminate].
    injection Hk as ->.
    change {| rstart := {| container := pp ++ [k]; offset := so |};
              rend := {| container := pp ++ [k]; offset := eo |} |}
      with (span_of (pp ++ [k]) so (pp ++ [k]) eo).
    rewrite (surroundContents_in_text doc pp k t a cs d so eo newParent Hpar Hck Hord He).
    intros [= <- _].
    apply (textContent_alter_at _ _ _ _ Hpar).
    cbn [set_children]. rewrite !textContent_element.
    remember (text_of cs) as T eqn:ET.
    rewrite (list_split_nth cs k _ Hck) in ET. subst T.
    rewrite !text_of_app, !text_of_cons. cbn [textContent].
    rewrite textContent_set_children by exact Hnew.
    f_equal. rewrite append_assoc, append_assoc. f_equal.
    rewrite <- append_assoc.
    destruct (Nat.eqb_spec so eo) as [->|Hne].
    + change (text_of []) with EmptyString. apply take_drop.
    + rewrite text_of_cons. cbn [textContent].
      change (text_of []) with EmptyString. rewrite append_nil_r.
      rewrite substringData_drop by exact Hord. apply take_drop.
  - assert (Hidx : match sr with [] => so | i :: _ => S i end <= List.length cs).
    { destruct sr as [|i sr].
      - simpl in Hsr. injection Hsr as <-. exact Hs.
      - simpl in Hsr. destruct (nth_error cs i) eqn:Hi; [|discriminate].
        assert (i < List.length cs) by (apply nth_error_Some; congruence). lia. }
    change {| rstart := {| container := ca ++ sr; offset := so |};
              rend := {| container := ca ++ er; offset := eo |} |}
      with (span_of (ca ++ sr) so (ca ++ er) eo) in *.
    rewrite (surroundContents_in_element doc (ca ++ sr) so (ca ++ er) eo ca sr er
               t a cs newParent Hsplit Hca Hpart Hidx).
    unfold partially_contains_non_text in Hpart.
    cbn [span_of rstart rend container] in Hpart. rewrite Hsplit, Hca in Hpart.
    apply orb_false_iff in Hpart as [Hps Hpe].
    assert (Hstart : match sr with
                     | [] => True
                     | i :: sr' => sr' = [] /\ exists d, nth_error cs i = Some (Text d)
                     end).
    { destruct sr as [|i sr']; [exact I|].
      apply negb_false_iff in Hps. eapply partial_child_is_text; [|exact Hps].
      exact Hsr. }
    assert (Hend : match er with
                   | [] => True
                   | j :: er' => er' = [] /\ exists d, nth_error cs j = Some (Text d)
                   end).
    { destruct er as [|j er']; [exact I|].
      apply negb_false_iff in Hpe. eapply partial_child_is_text; [|exact Hpe].
      exact Her. }
    assert (Horder : match sr, er with
                     | [], [] => so <= eo
                     | [], j :: _ => so <= j
                     | i :: _, [] => i < eo
                     | i :: _, j :: _ => i < j
                     end).
    { destruct sr, er; first [now apply Nat.leb_le | now apply Nat.ltb_lt]. }
    pose proof (cut_children_text cs sr so er eo Horder Hstart Hend) as Htext.
    destruct (cut_children cs sr so er eo) as [[before inside] after].
    intros [= <- _].
    apply (textContent_alter_at _ _ _ _ Hca).
    cbn [set_children]. rewrite !textContent_element, <- Htext.
    rewrite text_of_app, text_of_cons.
    now rewrite textContent_set_children by exact Hnew.
Qed.

(** ** What the inspector leaves alone *)

Section InspectorFrame.

Variable engine : Host.

Lemma updateEditorState_returns st :
  exists st', updateEditorState engine st = Returned st'.
Proof.
  unfold updateEditorState.
  destruct (editorRef st); simpl; [|eauto].
  destruct (selection st) as [r|]; [|eauto].
  destruct (element_of (document st) (commonAncestorContainer r)) as [e|]; [|eauto].
  destruct (closest (document st) e block_tags); eauto.
Qed.

Lemma updateEditorState_frame st :
  let st' := final_state (updateEditorState engine st) in
  document st' = document st /\ selection st' = selection st
  /\ effects st' = effects st /\ editorRef st' = editorRef st.
Proof.
  unfold updateEditorState.
  destruct (editorRef st) eqn:He; simpl; [|tauto].
  destruct (selection st) as [r|] eqn:Hs; simpl; [|tauto].
  destruct (element_of (document st) (commonAncestorContainer r)) as [e|]; simpl; [|tauto].
  destruct (closest (document st) e block_tags); simpl; tauto.
Qed.

End InspectorFrame.

(** ** Toggling bold and inspecting again *)

Lemma In_climb_is_prefix fuel p q : In q (climb fuel p) -> is_prefix q p = true.
Proof.
  revert p. induction fuel as [|fuel IH]; intros p; simpl.
  - intros [<-|[]]. apply is_prefix_refl.
  - intros [<-|H]; [apply is_prefix_refl|].
    destruct p as [|i p]; [destruct H|]. cbn [parentElement] in H.
    eapply is_prefix_trans; [apply IH, H|apply is_prefix_removelast].
Qed.

Lemma existsb_ext_in {A : Type} (f g : A -> bool) (l : list A) :
  (forall x, In x l -> f x = g x) -> existsb f l = existsb g l.
Proof.
  induction l as [|x l IH]; intros H; simpl; [reflexivity|].
  rewrite (H x (or_introl eq_refl)), IH; [reflexivity|].
  intros y Hy. apply H. now right.
Qed.

(** Rewriting the children of a node leaves the tags of its inclusive
    ancestors as they were. *)
Lemma has_tag_in_set_children doc p L tags q :
  is_prefix q p = true ->
  has_tag_in (alter_at (set_children L) doc p) tags q = has_tag_in doc tags q.
Proof.
  intros Hq. apply is_prefix_app in Hq as [r ->].
  rewrite alter_at_app. unfold has_tag_in.
  destruct (node_at doc q) as [m|] eqn:Hm.
  - rewrite (node_at_alter_at_same _ _ _ _ Hm).
    destruct r, m; reflexivity.
  - now rewrite (alter_at_missing _ _ _ Hm), Hm.
Qed.

Lemma hasParentWithTag_set_children doc p L tags :
  hasParentWithTag (alter_at (set_children L) doc p) (Some p) tags
  = hasParentWithTag doc (Some p) tags.
Proof.
  unfold hasParentWithTag, inclusive_ancestors. apply existsb_ext_in.
  intros q Hq. apply has_tag_in_set_children. eapply In_climb_is_prefix, Hq.
Qed.

(** The contents of the range that selects a node: the node. *)
Lemma cloneContents_selectNode doc pp k n :
  node_at doc (pp ++ [k]) = Some n ->
  cloneContents doc (selectNode (pp ++ [k])) = [n].
Proof.
  intros Hn. destruct (node_at_app_some _ _ _ _ Hn) as (par & Hpar & Hk).
  unfold cloneContents, collapsed, selectNode.
  cbn [rstart rend container offset].
  rewrite removelast_last, last_last, path_eqb_refl, split_common_same, Hpar.
  replace (k =? S k)%nat with false by (symmetry; apply Nat.eqb_neq; lia).
  cbn [andb].
  destruct par as [d|t a cs]; [now destruct k|].
  simpl in Hk. destruct (nth_error cs k) as [c|] eqn:Hc; [|discriminate].
  injection Hk as ->. cbn [cut_children fst snd]. unfold slice.
  replace (S k - k) with 1 by lia.
  rewrite (list_split_nth cs k n Hc) at 1.
  assert (Hfk : List.length (firstn k cs) = k).
  { rewrite length_firstn. apply Nat.min_l.
    apply Nat.lt_le_incl, nth_error_Some. congruence. }
  rewrite <- Hfk at 1. rewrite skipn_app, Nat.sub_diag, skipn_all. reflexivity.
Qed.

Section ToggleBold.

Variable engine : Host.

(** Whatever part of a text node is selected, as long as no [b] or [strong]
    is among the inclusive ancestors of its parent: after
    [toggleFormat('bold')] the text of the range stands in a [strong] with
    the style text [font-weight: bold;], and the inspector, run by the
    handler, reports [isBold = false].  The range now selects the [strong]
    in its parent, so the [strong] is no ancestor of the anchor element, and
    the selector [[style*="font-weight:bold"]] does not match a style text
    with a space after the colon. *)
Lemma toggleFormat_bold_in_text st (pp : path) k t a cs d so eo :
  editorRef st = true ->
  selection st = Some (span_of (pp ++ [k]) so (pp ++ [k]) eo) ->
  node_at (document st) pp = Some (Element t a cs) ->
  nth_error cs k = Some (Text d) ->
  so < eo -> eo <= String.length d ->
  hasParentWithTag (document st) (Some pp) ["b"; "strong"] = false ->
  exists st',
    toggleFormat engine "bold" st = Returned st'
    /\ node_at (document st') (pp ++ [S k])
       = Some (Element "strong" (set_cssText [("font-weight", "bold")] no_attributes)
                 [Text (Str.substringData so (eo - so) d)])
    /\ isBold st' = false.
Proof.
  intros Href Hsel Hpp Hk Hlt Hlen Hanc.
  unfold toggleFormat. rewrite Href, Hsel. simpl negb. cbv iota.
  change (format_wrapper "bold")
    with (Some (styled_element "strong" [("font-weight", "bold")])).
  cbv iota. unfold and_then, surroundSelection. rewrite Hsel.
  rewrite (surroundContents_in_text _ _ _ _ _ _ _ _ _ _ Hpp Hk
             (Nat.lt_le_incl _ _ Hlt) Hlen).
  replace (so =? eo)%nat with false by (symmetry; apply Nat.eqb_neq; lia).
  set (L := firstn k cs ++ _).
  set (doc' := alter_at (set_children L) (document st) pp).
  assert (Hpp' : node_at doc' pp = Some (Element t a L)).
  { subst doc'. now rewrite (node_at_alter_at_same _ _ _ _ Hpp). }
  assert (Hfk : List.length (firstn k cs) = k).
  { rewrite length_firstn. apply Nat.min_l.
    apply Nat.lt_le_incl, nth_error_Some. congruence. }
  assert (Hw : node_at doc' (pp ++ [S k])
               = Some (Element "strong" (set_cssText [("font-weight", "bold")] no_attributes)
                         [Text (Str.substringData so (eo - so) d)])).
  { rewrite node_at_app, Hpp'. cbn [node_at children]. subst L.
    rewrite nth_error_app2 by lia. rewrite Hfk.
    replace (S k - k) with 1 by lia. reflexivity. }
  set (st1 := with_selection _ _).
  assert (Hst1 : forall prop value,
             hasStyle engine prop value st1
             = Str.includes (prop ++ ":" ++ value) "font-weight: bold;").
  { intros prop value. unfold hasStyle. subst st1.
    cbn [with_selection with_document selection document].
    rewrite (cloneContents_selectNode _ _ _ _ Hw).
    unfold collapsed, selectNode. cbn [rstart rend container offset].
    rewrite removelast_last, last_last, path_eqb_refl.
    replace (S k =? S (S k))%nat with false by (symmetry; apply Nat.eqb_neq; lia).
    cbn [andb]. unfold querySelector_finds, style_attribute_includes.
    cbn [existsb matches_within]. now rewrite !orb_false_r. }
  unfold updateEditorState.
  replace (editorRef st1) with true by (symmetry; exact Href).
  replace (selection st1) with (Some (selectNode (pp ++ [S k]))) by reflexivity.
  replace (document st1) with doc' by reflexivity.
  assert (Hca : commonAncestorContainer (selectNode (pp ++ [S k])) = pp).
  { unfold commonAncestorContainer, selectNode. cbn [rstart rend container].
    now rewrite removelast_last, split_common_same. }
  rewrite Hca. unfold element_of at 1. rewrite Hpp'. simpl negb. cbv iota.
  rewrite !Hst1.
  unfold doc'. rewrite !hasParentWithTag_set_children, Hanc. fold doc'.
  change (Str.includes ("font-weight" ++ ":" ++ "bold") "font-weight: bold;") with false.
  change (Str.includes ("font-weight" ++ ":" ++ "700") "font-weight: bold;") with false.
  cbn [orb].
  destruct (closest doc' pp block_tags); eexists; (split; [reflexivity|]); split;
    solve [exact Hw | reflexivity].
Qed.

End ToggleBold.

(** C1 on "Hello": with the whole word selected in [<p>Hello</p>],
    [toggleFormat('bold')] returns with [<strong style="font-weight:
    bold;">Hello</strong>] in the paragraph (between the two empty text
    nodes that splitting the text node leaves), and the inspector it runs
    reports [isBold = false]. *)
Theorem toggleFormat_bold_then_inspect :
  exists st',
    toggleFormat inline_style_engine "bold"
      (mounted hello_page (span_of [0; 0; 0; 0] 0 [0; 0; 0; 0] 5)) = Returned st'
    /\ document st'
       = page [plain "p" [Text "";
                          Element "strong"
                            (set_cssText [("font-weight", "bold")] no_attributes)
                            [Text "Hello"];
                          Text ""]]
    /\ styleText (set_cssText [("font-weight", "bold")] no_attributes)
       = "font-weight: bold;"
    /\ selection st' = Some (span_of [0; 0; 0] 1 [0; 0; 0] 2)
    /\ isBold st' = false
    /\ isBold (final_state (updateEditorState inline_style_engine st')) = false.
Proof. eexists. repeat split. Qed.

(** ** The handlers that wrap the selection *)

Section Wrapping.

Variable engine : Host.

Lemma collapsed_eq r : collapsed r = true -> rend r = rstart r.
Proof.
  destruct r as [[sp so] [ep eo]]. unfold collapsed. simpl.
  rewrite andb_true_iff, path_eqb_eq, Nat.eqb_eq. now intros [-> ->].
Qed.

Lemma collapsed_not_partial doc r :
  collapsed r = true -> partially_contains_non_text doc r = false.
Proof.
  intros H. pose proof (collapsed_eq r H) as E.
  unfold partially_contains_non_text. rewrite E, split_common_same.
  now destruct (node_at doc (container (rstart r))).
Qed.

(** Wrapping the selection and running the inspector, on a range of the
    document that cuts no element in two. *)
Lemma wrap_then_update newParent st r :
  selection st = Some r ->
  is_text (document st) = false ->
  is_text newParent = false ->
  valid_range (document st) r = true ->
  partially_contains_non_text (document st) r = false ->
  exists st',
    (surroundSelection newParent ;; updateEditorState engine) st = Returned st'
    /\ node_at (document st') (wrapper_path (document st) r)
       = Some (set_children (cloneContents (document st) r) newParent)
    /\ selection st' = Some (selectNode (wrapper_path (document st) r))
    /\ textContent (document st') = textContent (document st)
    /\ effects st' = effects st.
Proof.
  intros Hsel Hroot Hnew Hvalid Hpart.
  destruct (surroundContents_wraps _ _ newParent Hroot Hvalid Hpart)
    as (doc' & Hrun & Hnode).
  pose proof (surroundContents_keeps_text _ _ _ _ _ Hroot Hnew Hvalid Hpart Hrun)
    as Htext.
  unfold and_then, surroundSelection. rewrite Hsel, Hrun.
  set (st1 := with_selection _ _).
  destruct (updateEditorState_returns engine st1) as [st' Hup].
  destruct (updateEditorState_frame engine st1) as (Hd & Hs & He & _).
  rewrite Hup in *. simpl in Hd, Hs, He.
  exists st'. split; [reflexivity|]. rewrite Hd, Hs, He. auto.
Qed.

Lemma format_wrapper_childless format newParent :
  format_wrapper format = Some newParent -> children newParent = [].
Proof.
  unfold format_wrapper.
  repeat match goal with
         | |- context [String.eqb ?a ?b] => destruct (String.eqb a b)
         end; intros [= <-]; reflexivity.
Qed.

Lemma set_children_children n : set_children (children n) n = n.
Proof. now destruct n. Qed.

(** C2, as the code has it.  [toggleFormat] asks [surroundContents] for the
    wrapping and has no [try] around it.  On a range that cuts an element in
    two the call throws [InvalidStateError] before anything is changed, and
    the exception leaves the handler: the tree (and the whole state) is as it
    was, and the inspector is not run.  On a collapsed selection the call
    succeeds: the empty wrapper is inserted at the cursor, the tree has grown
    and the selection selects the wrapper. *)
Theorem toggleFormat_on_unfit_selection
  (format : string) (newParent : node) (st : state) (r : range) :
  editorRef st = true ->
  selection st = Some r ->
  format_wrapper format = Some newParent ->
  (partially_contains_non_text (document st) r = true ->
   toggleFormat engine format st = Thrown InvalidStateError st)
  /\ (collapsed r = true ->
      is_text (document st) = false ->
      valid_range (document st) r = true ->
      exists st',
        toggleFormat engine format st = Returned st'
        /\ node_at (document st') (wrapper_path (document st) r) = Some newParent
        /\ node_count (document st) < node_count (document st')
        /\ selection st' = Some (selectNode (wrapper_path (document st) r))).
Proof.
  intros Href Hsel Hfmt. unfold toggleFormat. rewrite Href, Hsel, Hfmt.
  simpl negb. cbv iota. split.
  - intros Hpart. unfold and_then, surroundSelection, surroundContents.
    now rewrite Hsel, Hpart.
  - intros Hcol Hroot Hvalid.
    pose proof (collapsed_eq r Hcol) as E.
    assert (Hb : valid_boundary (document st) (rstart r) = true).
    { unfold valid_range in Hvalid.
      now apply andb_true_iff in Hvalid as [Hv _]; apply andb_true_iff in Hv as [Hv _]. }
    destruct (surroundContents_collapsed _ _ newParent Hroot Hb)
      as (doc' & Hrun & Hnode & Hgrow).
    assert (Er : {| rstart := rstart r; rend := rstart r |} = r).
    { destruct r as [s e]. simpl in *. now subst e. }
    rewrite Er in *.
    unfold and_then, surroundSelection. rewrite Hsel, Hrun.
    set (st1 := with_selection _ _).
    destruct (updateEditorState_returns engine st1) as [st' Hup].
    destruct (updateEditorState_frame engine st1) as (Hd & Hs & _).
    rewrite Hup in *. simpl in Hd, Hs.
    exists st'. split; [reflexivity|]. rewrite Hd, Hs.
    rewrite <- (format_wrapper_childless _ _ Hfmt), set_children_children in Hnode.
    auto.
Qed.

(** C7, as the code has it.  For a size index of the menu, the font size
    that [handleFontSizeChange] writes is [(index * 4 + 12)px]: [16px],
    [24px], [32px] and [40px] for 1, 3, 5 and 7.  The handler asks
    [surroundContents] to wrap the range of the selection and has no [try]
    around the call.  On a range that cuts an element in two the call throws
    [InvalidStateError], the exception leaves the handler, and the state is
    as it was: no [span] is inserted.  On a range of the document that cuts
    no element in two the handler returns; a [span] whose only inline
    declaration is that font size, and which has no class, stands where the
    range was and holds what the range held; the text of the document is
    what it was and the selection selects the [span]. *)
Theorem handleFontSizeChange_font_size (z : Z) (st : state) (r : range) :
  In z [1; 3; 5; 7]%Z ->
  selection st = Some r ->
  let px := (Number.toString (z * 4 + 12) ++ "px")%string in
  (z = 1%Z -> px = "16px")
  /\ (z = 3%Z -> px = "24px")
  /\ (z = 5%Z -> px = "32px")
  /\ (z = 7%Z -> px = "40px")
  /\ (partially_contains_non_text (document st) r = true ->
      handleFontSizeChange engine (Number.toString z) st
      = Thrown InvalidStateError st)
  /\ (is_text (document st) = false ->
      valid_range (document st) r = true ->
      partially_contains_non_text (document st) r = false ->
      exists st' at_,
        handleFontSizeChange engine (Number.toString z) st = Returned st'
        /\ node_at (document st') (wrapper_path (document st) r)
           = Some (Element "span" at_ (cloneContents (document st) r))
        /\ styleDecls at_ = [("font-size", px)]
        /\ styleText at_ = ("font-size: " ++ px ++ ";")%string
        /\ classList at_ = []
        /\ textContent (document st') = textContent (document st)
        /\ selection st' = Some (selectNode (wrapper_path (document st) r))).
Proof.
  intros Hz Hsel px.
  set (span := Element "span" (style_set "font-size" px no_attributes) []).
  assert (Hrun : handleFontSizeChange engine (Number.toString z) st
                 = (surroundSelection span ;; updateEditorState engine) st).
  { unfold handleFontSizeChange. rewrite Hsel. subst span px.
    simpl in Hz. destruct Hz as [<-|[<-|[<-|[<-|[]]]]]; reflexivity. }
  split; [subst px; intros ->; reflexivity|].
  split; [subst px; intros ->; reflexivity|].
  split; [subst px; intros ->; reflexivity|].
  split; [subst px; intros ->; reflexivity|].
  split.
  - intros Hpart. rewrite Hrun.
    unfold and_then, surroundSelection, surroundContents.
    now rewrite Hsel, Hpart.
  - intros Hroot Hvalid Hpart.
    destruct (wrap_then_update span st r Hsel Hroot eq_refl Hvalid Hpart)
      as (st' & Hwrap & Hnode & Hs & Htext & _).
    exists st', (style_set "font-size" px no_attributes).
    rewrite Hrun. split; [exact Hwrap|]. split; [exact Hnode|].
    split; [reflexivity|]. split; [reflexivity|]. split; [reflexivity|].
    split; [exact Htext|exact Hs].
Qed.

(** C5, as the code has it.  With a selection whose text, as the host
    renders it, is not blank, and a URL that is not empty, [handleCreateLink]
    prompts and then asks [surroundContents] to wrap the range, with no [try]
    around the call.  On a range that cuts an element in two the call throws
    [InvalidStateError] and the exception leaves the handler after the
    prompt: the tree is as it was, without an anchor.  On a range of the
    document that cuts no element in two the handler returns; an anchor
    stands where the range was and holds what the range held, so its text is
    the text of the range, and the text of the document is what it was; its
    [href] is the URL, with [https://] put in front exactly when the URL
    does not start with [http]; its [target] is [_blank] and its [rel] has
    the tokens [noopener] and [noreferrer]. *)
Theorem handleCreateLink_wraps_in_anchor (url : string) (st : state) (r : range) :
  selection st = Some r ->
  blank (selection_text engine st) = false ->
  url <> "" ->
  (partially_contains_non_text (document st) r = true ->
   handleCreateLink engine (Some url) st
   = Thrown InvalidStateError (log (Prompt "Enter URL:") st)
   /\ document (final_state (handleCreateLink engine (Some url) st)) = document st)
  /\ (is_text (document st) = false ->
      valid_range (document st) r = true ->
      partially_contains_non_text (document st) r = false ->
      exists st' at_ inner,
        handleCreateLink engine (Some url) st = Returned st'
        /\ node_at (document st') (wrapper_path (document st) r)
           = Some (Element "a" at_ inner)
        /\ inner = cloneContents (document st) r
        /\ text_of inner = selection_toString st
        /\ href at_ = Some (if Str.startsWith "http" url then url
                            else ("https://" ++ url)%string)
        /\ target at_ = Some "_blank"
        /\ (exists v, rel at_ = Some v
                       /\ In "noopener" (tokens v) /\ In "noreferrer" (tokens v))
        /\ textContent (document st') = textContent (document st)
        /\ selection st' = Some (selectNode (wrapper_path (document st) r))).
Proof.
  intros Hsel Hblank Hurl.
  unfold handleCreateLink. unfold blank in Hblank. rewrite Hblank.
  destruct url as [|c url]; [congruence|]. cbn [Str.truthy negb].
  set (u := String c url) in *.
  split.
  - intros Hpart. unfold and_then, surroundSelection, surroundContents.
    cbn [log selection document]. rewrite Hsel, Hpart. split; reflexivity.
  - intros Hroot Hvalid Hpart.
    destruct (wrap_then_update (link_element u) (log (Prompt "Enter URL:") st) r
                Hsel Hroot eq_refl Hvalid Hpart)
      as (st' & Hwrap & Hnode & Hs & Htext & _).
    cbn [log document] in *.
    eexists st', _, _. split; [exact Hwrap|]. split; [exact Hnode|].
    split; [reflexivity|].
    split; [unfold selection_toString, range_toString; now rewrite Hsel|].
    split; [reflexivity|]. split; [reflexivity|].
    split; [|split; [exact Htext|exact Hs]].
    exists "noopener noreferrer". split; [reflexivity|]. simpl. auto.
Qed.

End Wrapping.

(** C7 on an instance: size 3 on "el" of "Hello". *)
Lemma handleFontSizeChange_font_size_witness :
  exists at_ st',
    handleFontSizeChange inline_style_engine "3"
      (mounted hello_page (span_of [0; 0; 0; 0] 1 [0; 0; 0; 0] 3)) = Returned st'
    /\ node_at (document st') [0; 0; 0; 1] = Some (Element "span" at_ [Text "el"])
    /\ styleText at_ = "font-size: 24px;".
Proof.
  destruct (handleFontSizeChange_font_size inline_style_engine 3
              (mounted hello_page (span_of [0; 0; 0; 0] 1 [0; 0; 0; 0] 3))
              (span_of [0; 0; 0; 0] 1 [0; 0; 0; 0] 3)
              (or_intror (or_introl eq_refl)) eq_refl)
    as (_ & _ & _ & _ & _ & Hwrap).
  destruct (Hwrap eq_refl eq_refl eq_refl)
    as (st' & at_ & Hrun & Hnode & _ & Htext & _).
  exists at_, st'. split; [exact Hrun|]. split; [exact Hnode|exact Htext].
Defined.

(** C7 as stated fails on a selection that cuts an element in two: with "b"
    of "ab" and "c" of the bold "cd" selected in [<p>ab<b>cd</b></p>], size 3
    chosen from the menu wraps nothing.  [surroundContents] throws, the
    handler does not return, and the tree is as it was, without a [span]. *)
Lemma handleFontSizeChange_on_unfit_range :
  let st := mounted mixed_page (span_of [0; 0; 0; 0] 1 [0; 0; 0; 1; 0] 1) in
  In 3%Z [1; 3; 5; 7]%Z
  /\ handleFontSizeChange inline_style_engine (Number.toString 3) st
     = Thrown InvalidStateError st
  /\ (forall st', handleFontSizeChange inline_style_engine (Number.toString 3) st
                  <> Returned st')
  /\ document (final_state
                 (handleFontSizeChange inline_style_engine (Number.toString 3) st))
     = mixed_page.
Proof.
  intros st. split; [simpl; auto|]. split; [reflexivity|].
  split; [intros st'; discriminate|reflexivity].
Qed.

(** C5 on an instance: "example.com" on "el" of "Hello". *)
Lemma handleCreateLink_wraps_in_anchor_witness :
  exists st' at_,
    handleCreateLink inline_style_engine (Some "example.com")
      (mounted hello_page (span_of [0; 0; 0; 0] 1 [0; 0; 0; 0] 3)) = Returned st'
    /\ node_at (document st') [0; 0; 0; 1] = Some (Element "a" at_ [Text "el"])
    /\ href at_ = Some "https://example.com"
    /\ target at_ = Some "_blank".
Proof.
  destruct (proj2 (handleCreateLink_wraps_in_anchor inline_style_engine "example.com"
                     (mounted hello_page (span_of [0; 0; 0; 0] 1 [0; 0; 0; 0] 3))
                     (span_of [0; 0; 0; 0] 1 [0; 0; 0; 0] 3)
                     eq_refl eq_refl ltac:(discriminate))
              eq_refl eq_refl eq_refl)
    as (st' & at_ & inner & Hrun & Hnode & -> & _ & Hhref & Htarget & _).
  exists st', at_. repeat split; assumption.
Defined.

(** C5 as stated fails on a selection that cuts an element in two: with
    "b" of "ab" and "c" of the bold "cd" selected, the text of the selection
    is "bc" and the URL is not empty, but [surroundContents] throws; the
    exception leaves the handler after the prompt, and the tree is as it was,
    without an anchor. *)
Lemma handleCreateLink_on_unfit_range :
  let st := mounted mixed_page (span_of [0; 0; 0; 0] 1 [0; 0; 0; 1; 0] 1) in
  selection_text inline_style_engine st = "bc"
  /\ handleCreateLink inline_style_engine (Some "example.com") st
     = Thrown InvalidStateError (log (Prompt "Enter URL:") st)
  /\ document (final_state
                 (handleCreateLink inline_style_engine (Some "example.com") st))
     = mixed_page.
Proof. repeat split. Qed.

(** C2 on two instances: [toggleFormat] on the same selection, and on a
    cursor after "He" of "Hello". *)
Lemma toggleFormat_on_unfit_selection_witness :
  toggleFormat inline_style_engine "bold"
    (mounted mixed_page (span_of [0; 0; 0; 0] 1 [0; 0; 0; 1; 0] 1))
  = Thrown InvalidStateError
      (mounted mixed_page (span_of [0; 0; 0; 0] 1 [0; 0; 0; 1; 0] 1))
  /\ exists st',
       toggleFormat inline_style_engine "bold"
         (mounted hello_page (span_of [0; 0; 0; 0] 2 [0; 0; 0; 0] 2)) = Returned st'
       /\ node_at (document st') [0; 0; 0; 1]
          = Some (styled_element "strong" [("font-weight", "bold")]).
Proof.
  split.
  - exact (proj1 (toggleFormat_on_unfit_selection inline_style_engine "bold" _
                    (mounted mixed_page (span_of [0; 0; 0; 0] 1 [0; 0; 0; 1; 0] 1))
                    _ eq_refl eq_refl eq_refl) eq_refl).
  - destruct (proj2 (toggleFormat_on_unfit_selection inline_style_engine "bold" _
                       (mounted hello_page (span_of [0; 0; 0; 0] 2 [0; 0; 0; 0] 2))
                       _ eq_refl eq_refl eq_refl) eq_refl eq_refl eq_refl)
      as (st' & Hrun & Hnode & _).
    exists st'. split; [exact Hrun|exact Hnode].
Defined.

(** C2 as stated fails on both kinds of selection.  On a selection that cuts
    the bold element of [mixed_page] in two, [toggleFormat] does not return:
    [InvalidStateError] leaves it.  On a cursor after "He" of "Hello" it
    returns, and the tree is not what it was: an empty [strong] stands
    between "He" and "llo". *)
Lemma toggleFormat_throws_or_inserts :
  (forall st', toggleFormat inline_style_engine "bold"
                 (mounted mixed_page (span_of [0; 0; 0; 0] 1 [0; 0; 0; 1; 0] 1))
               <> Returned st')
  /\ document (final_state
                 (toggleFormat inline_style_engine "bold"
                    (mounted hello_page (span_of [0; 0; 0; 0] 2 [0; 0; 0; 0] 2))))
     = page [plain "p" [Text "He";
                        styled_element "strong" [("font-weight", "bold")];
                        Text "llo"]]
  /\ document (final_state
                 (toggleFormat inline_style_engine "bold"
                    (mounted hello_page (span_of [0; 0; 0; 0] 2 [0; 0; 0; 0] 2))))
     <> hello_page.
Proof.
  split; [intros st'; discriminate|]. split; [reflexivity|discriminate].
Qed.

(** ** List toggling *)

Section Lists.

Variable engine : Host.

(** What the branch "change list type" of [toggleList] does: it is the list
    item that gives way to the new list, which holds the content of the item
    followed by a new item with the same content, each as the parser gives
    it back; the list that held the item keeps its tag. *)
Lemma toggleList_other_type (type : list_type) (st : state) (r : range)
  (item list : path) :
  editorRef st = true ->
  selection st = Some r ->
  listItem_of (document st) r = Some item ->
  parentElement item = Some list ->
  tag_at (document st) list <> list_tag type ->
  let content := children_at (document st) item in
  let newList :=
    Element (list_tag type) no_attributes
      (innerHTML_copy engine (list_tag type) content
       ++ [Element "li" no_attributes (innerHTML_copy engine "li" content)]) in
  exists st',
    toggleList engine type st = Returned st'
    /\ document st' = alter_at (fun _ => newList) (document st) item
    /\ tag_at (document st') list = tag_at (document st) list.
Proof.
  intros Href Hsel Hitem Hlist Htag content newList.
  unfold toggleList. rewrite Href, Hsel, Hitem, Hlist. simpl negb. cbv iota zeta.
  destruct (String.eqb_spec (tag_at (document st) list) (list_tag type)) as [E|_];
    [contradiction|].
  fold content. fold newList.
  set (st1 := replaceChild item newList st).
  destruct (updateEditorState_returns engine st1) as [st' Hup].
  destruct (updateEditorState_frame engine st1) as (Hd & _).
  rewrite Hup in *. simpl in Hd.
  assert (Hne : exists i p, item = i :: p).
  { destruct item; [discriminate|eauto]. }
  destruct Hne as (i & p & Ei).
  assert (Hdoc1 : document st1 = alter_at (fun _ => newList) (document st) item).
  { subst st1. unfold replaceChild. now rewrite Ei. }
  exists st'. split; [reflexivity|]. rewrite Hd, Hdoc1. split; [reflexivity|].
  assert (El : list = removelast item).
  { rewrite Ei in Hlist. cbn [parentElement] in Hlist. rewrite Ei. congruence. }
  assert (Es : item = list ++ [last item 0]).
  { rewrite El. apply app_removelast_last. rewrite Ei. discriminate. }
  rewrite Es at 1. rewrite alter_at_app. unfold tag_at.
  destruct (node_at (document st) list) as [m|] eqn:Hm.
  - rewrite (node_at_alter_at_same _ _ _ _ Hm). now destruct m.
  - now rewrite (alter_at_missing _ _ _ Hm), Hm.
Qed.

End Lists.

(** C3 on an ordered list: with the selection in "x" of
    [<ol><li>x</li><li>y</li></ol>], [toggleList('ul')] leaves
    [<ol><ul>x<li>x</li></ul><li>y</li></ol>]: the ordered list is still
    there and the new bullet list stands in it, where the item was. *)
Theorem toggleList_other_type_nests_new_list :
  exists st',
    toggleList inline_style_engine ul
      (mounted ordered_page (span_of [0; 0; 0; 0; 0] 0 [0; 0; 0; 0; 0] 1))
    = Returned st'
    /\ document st'
       = page [plain "ol" [plain "ul" [Text "x"; plain "li" [Text "x"]];
                           plain "li" [Text "y"]]]
    /\ tag_at (document st') [0; 0; 0] = "ol"
    /\ tag_at (document st') [0; 0; 0; 0] = "ul".
Proof. eexists. repeat split. Qed.

(** ** Block type change *)

Section Heading.

Variable engine : Host.

(** C4, as the code has it, for a value of the menu and a selection whose
    common ancestor is a text node.  The block that [handleHeadingChange]
    replaces is the nearest
    inclusive ancestor of the parent of that text node with one of the five
    tags h1, h2, h3, p, div (list items and lists are passed over).  In an
    HTML document, where the document element is none of the five, the
    handler returns; the block has given way, in place, to a new element of
    the target tag (p for the empty value of the menu) without attributes,
    whose children are what the parser of the host makes of the markup of
    the children of the block; nothing else in the tree has changed.  The
    content comes through [innerHTML], so it is the parser that says what
    comes back: where the new children have the text of the old ones, the
    text of the document is what it was. *)
Theorem handleHeadingChange_replaces_block
  (select_value : string) (st : state) (r : range) (d : string) (anchor block : path) :
  In select_value [""; "h1"; "h2"; "h3"] ->
  selection st = Some r ->
  node_at (document st) (commonAncestorContainer r) = Some (Text d) ->
  parentElement (commonAncestorContainer r) = Some anchor ->
  closest (document st) anchor heading_tags = Some block ->
  has_tag_in (document st) heading_tags [] = false ->
  let value := if Str.truthy select_value then select_value else "p" in
  let old := children_at (document st) block in
  let new := innerHTML_copy engine value old in
  exists st',
    handleHeadingChange engine select_value st = Returned st'
    /\ nearest_with_tag (document st) heading_tags anchor block
    /\ document st'
       = alter_at (fun _ => Element value no_attributes new) (document st) block
    /\ node_at (document st') block = Some (Element value no_attributes new)
    /\ (forall q, is_prefix block q = false -> is_prefix q block = false ->
                   node_at (document st') q = node_at (document st) q)
    /\ (text_of new = text_of old ->
        textContent (document st') = textContent (document st)).
Proof.
  intros _ Hsel Hca Hanchor Hblock Hroot value old new.
  pose proof (closest_nearest _ _ _ _ Hblock) as Hnear.
  assert (Hne : block <> []).
  { intros ->. destruct Hnear as (_ & Ht & _). congruence. }
  assert (Hn : exists t a cs, node_at (document st) block = Some (Element t a cs)).
  { destruct Hnear as (_ & Ht & _). unfold has_tag_in in Ht.
    destruct (node_at (document st) block) as [[d0|t a cs]|]; try discriminate.
    eauto. }
  destruct Hn as (t & a & cs & Hn).
  unfold handleHeadingChange. rewrite Hsel, Hanchor, Hblock.
  cbv zeta. fold value. fold old. fold new.
  set (newElement := Element value no_attributes new).
  set (st1 := replaceChild block newElement st).
  destruct (updateEditorState_returns engine st1) as [st' Hup].
  destruct (updateEditorState_frame engine st1) as (Hd & _).
  rewrite Hup in *. simpl in Hd.
  assert (Hdoc1 : document st1 = alter_at (fun _ => newElement) (document st) block).
  { subst st1. unfold replaceChild. destruct block; [congruence|reflexivity]. }
  exists st'. split; [reflexivity|]. split; [exact Hnear|].
  rewrite Hd, Hdoc1. split; [reflexivity|]. split; [|split].
  - now rewrite (node_at_alter_at_same _ _ _ _ Hn).
  - intros q H1 H2. now apply node_at_alter_at_apart.
  - intros Htext. apply (textContent_alter_at _ _ _ _ Hn).
    subst newElement. rewrite !textContent_element, Htext.
    subst old. unfold children_at. now rewrite Hn.
Qed.

End Heading.

(** C4 on the case of the specification: with a selection
    in "Hello" of [<p>Hello</p>], the change to "h1" leaves [<h1>Hello</h1>]
    where the paragraph was, and no paragraph. *)
Lemma handleHeadingChange_replaces_block_witness :
  exists st',
    handleHeadingChange inline_style_engine "h1"
      (mounted hello_page (span_of [0; 0; 0; 0] 1 [0; 0; 0; 0] 3)) = Returned st'
    /\ document st' = page [plain "h1" [Text "Hello"]].
Proof.
  destruct (handleHeadingChange_replaces_block inline_style_engine "h1"
              (mounted hello_page (span_of [0; 0; 0; 0] 1 [0; 0; 0; 0] 3))
              (span_of [0; 0; 0; 0] 1 [0; 0; 0; 0] 3) "Hello" [0; 0; 0] [0; 0; 0]
              (or_intror (or_introl eq_refl)) eq_refl eq_refl eq_refl eq_refl eq_refl)
    as (st' & Hrun & _ & Hdoc & _).
  exists st'. split; [exact Hrun|exact Hdoc].
Defined.

(** C4 as stated fails in a list.  With the selection in "Hello" of
    [<ul><li>Hello</li></ul>], the nearest ancestor with a tag of the block
    vocabulary is the list item, but [handleHeadingChange] passes over the
    list item and the list and replaces the [div] that holds the list, the
    editor itself: the list item is still there, now inside the heading. *)
Lemma handleHeadingChange_passes_over_list_item :
  let st := mounted bullet_page (span_of [0; 0; 0; 0; 0] 1 [0; 0; 0; 0; 0] 3) in
  closest (document st) [0; 0; 0; 0] block_tags = Some [0; 0; 0; 0]
  /\ tag_at (document st) [0; 0; 0; 0] = "li"
  /\ document (final_state (handleHeadingChange inline_style_engine "h1" st))
     = plain "html"
         [plain "body"
            [plain "h1" [plain "ul" [plain "li" [Text "Hello"]]]]]
  /\ node_at (document (final_state (handleHeadingChange inline_style_engine "h1" st)))
       [0; 0; 0; 0]
     = Some (plain "li" [Text "Hello"]).
Proof. repeat split. Qed.

(** The case that the amended statement leaves out: when the common
    ancestor of the range is the paragraph itself (the range runs from before
    its text node to after it), the search starts at the parent of the
    paragraph, and it is the editor's [div] that gives way to the heading;
    the paragraph is still there. *)
Lemma handleHeadingChange_from_element_container :
  document (final_state
              (handleHeadingChange inline_style_engine "h1"
                 (mounted hello_page (span_of [0; 0; 0] 0 [0; 0; 0] 1))))
  = plain "html" [plain "body" [plain "h1" [plain "p" [Text "Hello"]]]].
Proof. reflexivity. Qed.

(** ** Link insertion: validation *)

Section LinkValidation.

Variable engine : Host.

(** C6, as the code has it.  When the text of the selection, as the host
    renders it, is empty or white space only, or the prompt for the URL is
    dismissed or answered with the empty string, [handleCreateLink] returns
    the state it got with one effect added, so the document, the selection
    and the signals are untouched.  The effect is the alert in the first
    case; in the second it is the prompt itself, and nothing is reported
    after it. *)
Theorem handleCreateLink_aborts (st : state) (answer : option string) :
  blank (selection_text engine st) = true \/ answer = None \/ answer = Some "" ->
  handleCreateLink engine answer st
  = Returned
      (log (if blank (selection_text engine st)
            then Alert "Please select text to create a link"
            else Prompt "Enter URL:") st)
  /\ document (final_state (handleCreateLink engine answer st)) = document st.
Proof.
  intros H. unfold handleCreateLink, blank in *.
  destruct (negb (Str.truthy (Str.trim (selection_text engine st)))) eqn:Hb.
  - split; reflexivity.
  - destruct H as [H|[->| ->]]; [discriminate| |]; split; reflexivity.
Qed.

End LinkValidation.

(** C6 on an instance: "el" of "Hello" selected, then the prompt
    dismissed. *)
Lemma handleCreateLink_aborts_witness :
  let st := mounted hello_page (span_of [0; 0; 0; 0] 1 [0; 0; 0; 0] 3) in
  handleCreateLink inline_style_engine None st = Returned (log (Prompt "Enter URL:") st)
  /\ document (final_state (handleCreateLink inline_style_engine None st)) = hello_page.
Proof.
  intros st.
  exact (handleCreateLink_aborts inline_style_engine st None (or_intror (or_introl eq_refl))).
Defined.

(** C6 as stated fails where the URL is left empty: with "el" selected and
    the prompt answered with the empty string, the handler returns without an
    alert; the only effect is the prompt that asked for the URL. *)
Lemma handleCreateLink_empty_url_is_silent :
  let st := mounted hello_page (span_of [0; 0; 0; 0] 1 [0; 0; 0; 0] 3) in
  selection_text inline_style_engine st = "el"
  /\ effects (final_state (handleCreateLink inline_style_engine (Some "") st))
     = [Prompt "Enter URL:"]
  /\ ~ (exists m, In (Alert m)
                    (effects (final_state
                                (handleCreateLink inline_style_engine (Some "") st)))).
Proof.
  intros st. split; [reflexivity|]. split; [reflexivity|].
  intros [m [H|[]]]. discriminate H.
Qed.

(** ** Alignment *)

Lemma get_property_set_same p v ds :
  get_property p (set_property p v ds) = Some v.
Proof.
  induction ds as [|[p' v'] ds IH]; simpl.
  - now rewrite String.eqb_refl.
  - destruct (String.eqb p' p) eqn:E; simpl.
    + now rewrite String.eqb_refl.
    + now rewrite E.
Qed.

Lemma get_property_set_other p q v ds :
  q <> p -> get_property q (set_property p v ds) = get_property q ds.
Proof.
  intros Hq. induction ds as [|[p' v'] ds IH]; simpl.
  - destruct (String.eqb_spec p q); [congruence|reflexivity].
  - destruct (String.eqb_spec p' p) as [->|Hp]; simpl.
    + destruct (String.eqb_spec p q); [congruence|reflexivity].
    + destruct (String.eqb p' q); [reflexivity|exact IH].
Qed.

Lemma filter_filter_negb {A : Type} (f : A -> bool) (l : list A) :
  filter f (filter (fun x => negb (f x)) l) = [].
Proof.
  induction l as [|x l IH]; simpl; [reflexivity|].
  destruct (f x) eqn:E; simpl; [exact IH|]. now rewrite E.
Qed.

Lemma filter_idem {A : Type} (f : A -> bool) (l : list A) :
  filter f (filter f l) = filter f l.
Proof.
  induction l as [|x l IH]; simpl; [reflexivity|].
  destruct (f x) eqn:E; simpl; [rewrite E; now f_equal|exact IH].
Qed.

Lemma mem_filter_false (c : string) (f : string -> bool) (l : list string) :
  f c = false -> Str.mem c (filter f l) = false.
Proof.
  intros Hc. induction l as [|x l IH]; simpl; [reflexivity|].
  destruct (f x) eqn:E; simpl; [|exact IH].
  destruct (String.eqb_spec c x) as [->|_]; [congruence|exact IH].
Qed.

Lemma alignment_class_is_one a : is_alignment_class (alignment_class a) = true.
Proof. now destruct a. Qed.

(** The class list after [formatAlignment]: the classes that are not
    alignment classes, in their order, then the class asked for. *)
Lemma align_attributes_classList a at_ :
  classList (align_attributes a at_)
  = filter (fun c => negb (is_alignment_class c)) (classList at_)
    ++ [alignment_class a].
Proof.
  unfold align_attributes, style_set, classList_add, classList_remove. simpl.
  fold is_alignment_class.
  rewrite mem_filter_false; [reflexivity|].
  now destruct a.
Qed.

Section Alignment.

Variable engine : Host.

(** C8.  After [formatAlignment] on a block element that resolves, the
    element carries, of the three alignment classes [text-left],
    [text-center] and [text-right], the one asked for ([text-left] for left,
    [text-center] for center, [text-right] for right) and that one once; the
    classes that are not alignment classes are the ones it had, in their
    order; its inline [text-align] is the value asked for ([left], [center]
    or [right]), the other inline declarations are the ones it had, and the
    text of the style attribute is the serialisation of the declarations. *)
Theorem formatAlignment_sets_alignment
  (a : alignment) (st : state) (r : range) (b : path)
  (t : string) (at_ : attributes) (cs : list node) :
  editorRef st = true ->
  selection st = Some r ->
  element_of (document st) (commonAncestorContainer r) = Some b ->
  node_at (document st) b = Some (Element t at_ cs) ->
  let aligns := fun c => Str.mem c ["text-left"; "text-center"; "text-right"] in
  exists st' at',
    formatAlignment engine a st = Returned st'
    /\ node_at (document st') b = Some (Element t at' cs)
    /\ filter aligns (classList at')
       = [match a with
          | left => "text-left"
          | center => "text-center"
          | right => "text-right"
          end]
    /\ filter (fun c => negb (aligns c)) (classList at')
       = filter (fun c => negb (aligns c)) (classList at_)
    /\ get_property "text-align" (styleDecls at')
       = Some match a with
              | left => "left"
              | center => "center"
              | right => "right"
              end
    /\ (forall p, p <> "text-align" ->
                  get_property p (styleDecls at') = get_property p (styleDecls at_))
    /\ styleText at' = serialize_block (styleDecls at').
Proof.
  intros Href Hsel He Hb aligns. unfold formatAlignment.
  rewrite Href, Hsel, He. simpl negb. cbv iota.
  set (st1 := with_document _ st).
  destruct (updateEditorState_returns engine st1) as [st' Hrun].
  destruct (updateEditorState_frame engine st1) as (Hdoc & _).
  rewrite Hrun in *. simpl in Hdoc.
  exists st', (align_attributes a at_). split; [reflexivity|].
  split.
  { rewrite Hdoc. subst st1. simpl.
    now rewrite (node_at_alter_at_same _ _ _ _ Hb). }
  change aligns with is_alignment_class.
  rewrite align_attributes_classList, !filter_app, filter_filter_negb, filter_idem.
  simpl. rewrite alignment_class_is_one. simpl.
  split; [now destruct a|]. split; [now rewrite app_nil_r|].
  split; [rewrite get_property_set_same; now destruct a|].
  split; [|reflexivity].
  intros p Hp. now apply get_property_set_other.
Qed.

End Alignment.

(** C8 on an instance: centring a paragraph that carried two alignment
    classes and [text-align: left]. *)
Lemma formatAlignment_sets_alignment_witness :
  exists st' at',
    formatAlignment inline_style_engine center
      (mounted aligned_page (span_of [0; 0; 0; 0] 1 [0; 0; 0; 0] 3)) = Returned st'
    /\ node_at (document st') [0; 0; 0] = Some (Element "p" at' [Text "Hello"])
    /\ filter (fun c => Str.mem c ["text-left"; "text-center"; "text-right"])
         (classList at')
       = ["text-center"]
    /\ get_property "text-align" (styleDecls at') = Some "center".
Proof.
  destruct (formatAlignment_sets_alignment inline_style_engine center
              (mounted aligned_page (span_of [0; 0; 0; 0] 1 [0; 0; 0; 0] 3))
              (span_of [0; 0; 0; 0] 1 [0; 0; 0; 0] 3) [0; 0; 0]
              "p" _ [Text "Hello"] eq_refl eq_refl eq_refl eq_refl)
    as (st' & at' & H1 & H2 & H3 & _ & H5 & _).
  exists st', at'. repeat split; assumption.
Defined.

(** ** The selection inspector *)

Section Inspector.

Variable engine : Host.

(** C9, as the code has it.  The inspector looks for the nearest inclusive
    ancestor of the anchor element with a tag of the block vocabulary, up to
    the document element.  When there is one, the current block becomes its
    tag.  When there is none, the current block is left as it was: it is "p"
    only if it was "p" before. *)
Theorem updateEditorState_block (st : state) (r : range) (e : path) :
  editorRef st = true ->
  selection st = Some r ->
  element_of (document st) (commonAncestorContainer r) = Some e ->
  exists st',
    updateEditorState engine st = Returned st'
    /\ ((forall q, is_prefix q e = true ->
                   has_tag_in (document st) block_tags q = false) ->
        currentBlock st' = currentBlock st)
    /\ (forall q, nearest_with_tag (document st) block_tags e q ->
                  currentBlock st' = tag_at (document st) q).
Proof.
  intros Href Hsel He. unfold updateEditorState.
  rewrite Href, Hsel, He. simpl negb. cbv iota.
  destruct (closest (document st) e block_tags) as [b|] eqn:Hc.
  - eexists. split; [reflexivity|]. split.
    + intros Hnone. apply closest_nearest in Hc. destruct Hc as (Hp & Ht & _).
      rewrite (Hnone b Hp) in Ht. discriminate.
    + intros q Hq. apply closest_nearest in Hc.
      now rewrite (nearest_with_tag_unique _ _ _ _ _ Hq Hc).
  - eexists. split; [reflexivity|]. split.
    + reflexivity.
    + intros q (Hp & Ht & _).
      rewrite (closest_none _ _ _ Hc q Hp) in Ht. discriminate.
Qed.

End Inspector.

(** C9 on two instances: with the selection in the paragraph of
    [hello_page] the inspector reports "p", the tag of the paragraph; in
    [note_selected], where no block element holds the anchor, it reports
    what it reported before. *)
Lemma updateEditorState_block_witness :
  (exists st',
     updateEditorState inline_style_engine
       (mounted hello_page (span_of [0; 0; 0; 0] 1 [0; 0; 0; 0] 3)) = Returned st'
     /\ currentBlock st' = "p")
  /\ (exists st',
        updateEditorState inline_style_engine note_selected = Returned st'
        /\ currentBlock st' = currentBlock note_selected).
Proof.
  split.
  - destruct (updateEditorState_block inline_style_engine
                (mounted hello_page (span_of [0; 0; 0; 0] 1 [0; 0; 0; 0] 3))
                (span_of [0; 0; 0; 0] 1 [0; 0; 0; 0] 3) [0; 0; 0]
                eq_refl eq_refl eq_refl) as (st' & Hrun & _ & Hnear).
    exists st'. split; [exact Hrun|].
    apply (Hnear [0; 0; 0]). split; [reflexivity|]. split; [reflexivity|].
    intros q' H1 H2 _. apply is_prefix_antisym; assumption.
  - destruct (updateEditorState_block inline_style_engine note_selected
                (span_of [0; 0; 0] 0 [0; 0; 0] 4) [0; 0]
                eq_refl eq_refl eq_refl) as (st' & Hrun & Hnone & _).
    exists st'. split; [exact Hrun|].
    apply Hnone. apply closest_none. reflexivity.
Defined.

(** C9 as stated fails: in [note_selected] the anchor element, the [span] of
    the note, has no inclusive ancestor with a tag of the block vocabulary,
    and the inspector reports the block it reported before, "h1", not "p". *)
Lemma updateEditorState_no_block_keeps_previous :
  element_of (document note_selected) [0; 0; 0] = Some [0; 0]
  /\ (forall q, is_prefix q [0; 0] = true ->
                has_tag_in (document note_selected) block_tags q = false)
  /\ currentBlock (final_state (updateEditorState inline_style_engine note_selected))
     = "h1"
  /\ currentBlock (final_state (updateEditorState inline_style_engine note_selected))
     <> "p".
Proof.
  split; [reflexivity|]. split; [|split; [reflexivity|discriminate]].
  apply closest_none. reflexivity.
Qed.

(** ** Keyboard shortcuts *)

Section EffectLog.

Variable engine : Host.

Lemma surroundSelection_effects newParent st :
  effects (final_state (surroundSelection newParent st)) = effects st.
Proof.
  unfold surroundSelection.
  destruct (selection st) as [r|]; [|reflexivity].
  destruct (surroundContents (document st) r newParent) as [e|[doc' r']]; reflexivity.
Qed.

Lemma and_then_update_effects (h : handler) st :
  (forall s, effects (final_state (h s)) = effects s) ->
  effects (final_state ((h ;; updateEditorState engine) st)) = effects st.
Proof.
  intros Hh. unfold and_then. specialize (Hh st).
  destruct (h st) as [st'|e st']; simpl in *; [|assumption].
  destruct (updateEditorState_frame engine st') as (_ & _ & He & _).
  simpl in He. congruence.
Qed.

Lemma toggleFormat_effects format st :
  effects (final_state (toggleFormat engine format st)) = effects st.
Proof.
  unfold toggleFormat.
  destruct (editorRef st); simpl; [|reflexivity].
  destruct (selection st) as [r|] eqn:Hs; [|reflexivity].
  apply and_then_update_effects. intros s.
  destruct (format_wrapper format); [apply surroundSelection_effects|reflexivity].
Qed.

(** C10.  A key-down with Control or Meta held: [preventDefault] is the
    first thing the handler does, whatever the key and whatever becomes of
    the dispatch (the effects of the handler start with it, and only undo and
    redo add a host command after it); for a key that is none of b, i, u, z,
    y nothing else happens at all: the handler returns the state it got, with
    that one effect added. *)
Theorem handleKeyDown_prevents_default (e : KeyboardEvent) (st : state) :
  ctrlKey e || metaKey e = true ->
  let k := Str.toLowerCase (key e) in
  effects (final_state (handleKeyDown engine e st))
  = effects st
    ++ PreventDefault
       :: (if String.eqb k "z" then [ExecCommand "undo"]
           else if String.eqb k "y" then [ExecCommand "redo"]
           else [])
  /\ (~ In k ["b"; "i"; "u"; "z"; "y"] ->
      handleKeyDown engine e st = Returned (log PreventDefault st)).
Proof.
  intros Hmod k. unfold handleKeyDown. rewrite Hmod. fold k.
  split.
  - destruct (String.eqb_spec k "b") as [->|Hb].
    { rewrite toggleFormat_effects. reflexivity. }
    destruct (String.eqb_spec k "i") as [->|Hi].
    { rewrite toggleFormat_effects. reflexivity. }
    destruct (String.eqb_spec k "u") as [->|Hu].
    { rewrite toggleFormat_effects. reflexivity. }
    destruct (String.eqb_spec k "z") as [->|Hz].
    { simpl. rewrite <- app_assoc. reflexivity. }
    destruct (String.eqb_spec k "y") as [->|Hy].
    { simpl. rewrite <- app_assoc. reflexivity. }
    reflexivity.
  - intros Hnot. simpl in Hnot.
    destruct (String.eqb_spec k "b") as [E|_]; [exfalso; apply Hnot; auto 10|].
    destruct (String.eqb_spec k "i") as [E|_]; [exfalso; apply Hnot; auto 10|].
    destruct (String.eqb_spec k "u") as [E|_]; [exfalso; apply Hnot; auto 10|].
    destruct (String.eqb_spec k "z") as [E|_]; [exfalso; apply Hnot; auto 10|].
    destruct (String.eqb_spec k "y") as [E|_]; [exfalso; apply Hnot; auto 10|].
    reflexivity.
Qed.

End EffectLog.

(** C10 on an instance: Control+C on the mounted editor. *)
Lemma handleKeyDown_prevents_default_witness :
  let e := {| ctrlKey := true; metaKey := false; key := "C" |} in
  let st := mounted hello_page (span_of [0; 0; 0; 0] 1 [0; 0; 0; 0] 3) in
  effects (final_state (handleKeyDown inline_style_engine e st)) = [PreventDefault]
  /\ handleKeyDown inline_style_engine e st = Returned (log PreventDefault st).
Proof.
  intros e st.
  destruct (handleKeyDown_prevents_default inline_style_engine e st eq_refl) as [H1 H2].
  split.
  - exact H1.
  - apply H2. simpl. intros [H|[H|[H|[H|[H|[]]]]]]; discriminate H.
Defined.

(** ** The ancestor test *)

Lemma is_prefix_In_climb fuel (p q : path) :
  is_prefix q p = true -> List.length p <= fuel -> In q (climb fuel p).
Proof.
  revert p. induction fuel as [|fuel IH]; intros p Hq Hlen.
  - destruct p; [|simpl in Hlen; lia]. destruct q; [now left|discriminate].
  - destruct (is_prefix_proper _ _ Hq) as [->|Hq']; [now left|].
    destruct p as [|i p].
    + destruct q; [now left|discriminate].
    + right. cbn [parentElement]. apply IH; [exact Hq'|].
      rewrite length_removelast_cons. simpl in Hlen. lia.
Qed.

Lemma hasParentWithTag_above doc (p q : path) tagNames :
  is_prefix q p = true ->
  has_tag_in doc tagNames q = true ->
  hasParentWithTag doc (Some p) tagNames = true.
Proof.
  intros Hpre Hq. unfold hasParentWithTag. apply existsb_exists.
  exists q. split; [|exact Hq]. apply is_prefix_In_climb; [exact Hpre|apply le_n].
Qed.

(** X1.  The loop of [hasParentWithTag] answers [true] exactly when the
    element it is given, or one of the elements above it up to the document
    element, has one of the tag names; given no element it answers
    [false]. *)
Theorem hasParentWithTag_iff (doc : node) (element : option path) (tagNames : list string) :
  hasParentWithTag doc element tagNames = true
  <-> exists p q, element = Some p /\ is_prefix q p = true
                  /\ has_tag_in doc tagNames q = true.
Proof.
  unfold hasParentWithTag. destruct element as [p|].
  - rewrite existsb_exists. split.
    + intros (q & Hin & Hq). exists p, q. repeat split; [|exact Hq].
      eapply In_climb_is_prefix, Hin.
    + intros (p' & q & [= <-] & Hpre & Hq). apply existsb_exists.
      now apply (hasParentWithTag_above doc p q tagNames).
  - split; [discriminate|]. now intros (p & q & H & _).
Qed.

(** ** The inspector run twice *)

Section InspectorTwice.

Variable engine : Host.

Lemma hasStyle_reads st st' prop value :
  document st' = document st -> selection st' = selection st ->
  hasStyle engine prop value st' = hasStyle engine prop value st.
Proof. intros Hd Hs. unfold hasStyle. now rewrite Hd, Hs. Qed.

(** X2.  The inspector computes its signals from the document and the
    selection, and changes neither: run a second time with nothing changed
    in between, it leaves the five signals, the document and the selection
    as the first run left them. *)
Theorem updateEditorState_idempotent (st : state) :
  let st1 := final_state (updateEditorState engine st) in
  let st2 := final_state (updateEditorState engine st1) in
  isBold st2 = isBold st1
  /\ isItalic st2 = isItalic st1
  /\ isUnderline st2 = isUnderline st1
  /\ isStrikethrough st2 = isStrikethrough st1
  /\ currentBlock st2 = currentBlock st1
  /\ document st2 = document st1
  /\ selection st2 = selection st1.
Proof.
  intros st1 st2. subst st2 st1.
  enough (E : updateEditorState engine (final_state (updateEditorState engine st))
              = updateEditorState engine st) by (rewrite E; repeat split).
  unfold updateEditorState at 2 3.
  destruct (editorRef st) eqn:Href; cbn [negb].
  2:{ cbn [final_state]. unfold updateEditorState. now rewrite Href. }
  destruct (selection st) as [r|] eqn:Hsel.
  2:{ cbn [final_state]. unfold updateEditorState. now rewrite Href, Hsel. }
  destruct (element_of (document st) (commonAncestorContainer r)) as [e|] eqn:He.
  2:{ cbn [final_state]. unfold updateEditorState. now rewrite Href, Hsel, He. }
  destruct (closest (document st) e block_tags) as [b|] eqn:Hb; cbn [final_state].
  - unfold updateEditorState.
    cbn [with_currentBlock with_formats editorRef selection document].
    rewrite Href, Hsel, He, Hb. cbn [negb].
    rewrite !(hasStyle_reads st (with_currentBlock _ _)) by reflexivity.
    reflexivity.
  - unfold updateEditorState.
    cbn [with_currentBlock with_formats editorRef selection document].
    rewrite Href, Hsel, He, Hb. cbn [negb].
    rewrite !(hasStyle_reads st (with_formats _ _ _ _ _)) by reflexivity.
    reflexivity.
Qed.

End InspectorTwice.

(** ** Formatting a piece of text, and formatting it again *)

Lemma surroundContents_selectNode doc (pp : path) k t a cs n newParent :
  node_at doc pp = Some (Element t a cs) ->
  nth_error cs k = Some n ->
  surroundContents doc (selectNode (pp ++ [k])) newParent
  = inr (alter_at
           (set_children (firstn k cs ++ set_children [n] newParent :: skipn (S k) cs))
           doc pp,
         selectNode (pp ++ [k])).
Proof.
  intros Hpp Hk.
  assert (Hkl : k < List.length cs) by (apply nth_error_Some; congruence).
  unfold selectNode at 1. rewrite removelast_last, last_last.
  change {| rstart := {| container := pp; offset := k |};
            rend := {| container := pp; offset := S k |} |}
    with (span_of pp k pp (S k)).
  rewrite (surroundContents_in_element doc pp k pp (S k) pp [] [] t a cs newParent
             (split_common_same pp) Hpp).
  - cbn [cut_children]. unfold slice. replace (S k - k) with 1 by lia.
    rewrite (skipn_nth_error _ _ _ Hk). reflexivity.
  - unfold partially_contains_non_text. cbn [span_of rstart rend container].
    now rewrite split_common_same, Hpp.
  - lia.
Qed.

Lemma format_wrapper_cases format newParent :
  format_wrapper format = Some newParent ->
  (format = "bold" /\ newParent = styled_element "strong" [("font-weight", "bold")])
  \/ (format = "italic" /\ newParent = styled_element "em" [("font-style", "italic")])
  \/ (format = "underline"
      /\ newParent = styled_element "u" [("text-decoration", "underline")])
  \/ (format = "strikeThrough"
      /\ newParent = styled_element "s" [("text-decoration", "line-through")]).
Proof.
  unfold format_wrapper.
  destruct (String.eqb_spec format "bold") as [->|_]; [intros [= <-]; auto|].
  destruct (String.eqb_spec format "italic") as [->|_]; [intros [= <-]; auto|].
  destruct (String.eqb_spec format "underline") as [->|_]; [intros [= <-]; auto|].
  destruct (String.eqb_spec format "strikeThrough") as [->|_]; [intros [= <-]; auto 6|].
  discriminate.
Qed.

Lemma format_wrapper_element format newParent :
  format_wrapper format = Some newParent -> is_text newParent = false.
Proof.
  intros H. destruct (format_wrapper_cases _ _ H) as [[_ ->]|[[_ ->]|[[_ ->]|[_ ->]]]];
    reflexivity.
Qed.

Lemma text_of_wrap_nth (l : list node) k n newParent :
  nth_error l k = Some n ->
  is_text newParent = false ->
  text_of (firstn k l ++ set_children [n] newParent :: skipn (S k) l) = text_of l.
Proof.
  intros Hk Hnew. remember (text_of l) as T eqn:ET.
  rewrite (list_split_nth l k n Hk) in ET. subst T.
  rewrite !text_of_app, !text_of_cons, textContent_set_children by exact Hnew.
  rewrite text_of_cons. change (text_of []) with EmptyString.
  now rewrite append_nil_r.
Qed.

Lemma text_of_wrap_in_text (cs : list node) k d so eo newParent :
  nth_error cs k = Some (Text d) ->
  so <= eo ->
  is_text newParent = false ->
  text_of (firstn k cs
           ++ [Text (Str.take so d);
               set_children
                 (if (so =? eo)%nat then []
                  else [Text (Str.substringData so (eo - so) d)]) newParent;
               Text (Str.drop eo d)]
           ++ skipn (S k) cs)
  = text_of cs.
Proof.
  intros Hk Hord Hnew. remember (text_of cs) as T eqn:ET.
  rewrite (list_split_nth cs k _ Hk) in ET. subst T.
  rewrite !text_of_app, !text_of_cons. cbn [textContent].
  rewrite textContent_set_children by exact Hnew.
  change (text_of []) with EmptyString. rewrite append_nil_r.
  f_equal. f_equal.
  destruct (Nat.eqb_spec so eo) as [->|Hne].
  - change (text_of []) with EmptyString. apply take_drop.
  - rewrite text_of_cons. cbn [textContent].
    change (text_of []) with EmptyString. rewrite append_nil_r.
    rewrite substringData_drop by exact Hord. apply take_drop.
Qed.

Section Formatting.

Variable engine : Host.

(** [toggleFormat] on a range inside one text node, child [k] of the
    element at [pp]. *)
Lemma toggleFormat_in_text st (pp : path) k t a cs d so eo format newParent :
  editorRef st = true ->
  selection st = Some (span_of (pp ++ [k]) so (pp ++ [k]) eo) ->
  node_at (document st) pp = Some (Element t a cs) ->
  nth_error cs k = Some (Text d) ->
  so <= eo -> eo <= String.length d ->
  format_wrapper format = Some newParent ->
  exists st',
    toggleFormat engine format st = Returned st'
    /\ document st'
       = alter_at
           (set_children
              (firstn k cs
               ++ [Text (Str.take so d);
                   set_children
                     (if (so =? eo)%nat then []
                      else [Text (Str.substringData so (eo - so) d)]) newParent;
                   Text (Str.drop eo d)]
               ++ skipn (S k) cs)) (document st) pp
    /\ selection st' = Some (selectNode (pp ++ [S k]))
    /\ editorRef st' = true
    /\ effects st' = effects st.
Proof.
  intros Href Hsel Hpp Hk Hord Hlen Hfmt.
  unfold toggleFormat. rewrite Href, Hsel, Hfmt. cbn [negb].
  unfold and_then, surroundSelection. rewrite Hsel.
  rewrite (surroundContents_in_text _ _ _ _ _ _ _ _ _ _ Hpp Hk Hord Hlen).
  set (st1 := with_selection _ _).
  destruct (updateEditorState_returns engine st1) as [st' Hst'].
  pose proof (updateEditorState_frame engine st1) as F.
  rewrite Hst' in F. cbn [final_state] in F.
  destruct F as (Fd & Fs & Fe & Fr).
  exists st'. split; [exact Hst'|].
  rewrite Fd, Fs, Fe, Fr. subst st1.
  cbn [with_selection with_document document selection editorRef effects].
  auto.
Qed.

(** [toggleFormat] on the range that selects one node, child [k] of the
    element at [pp]. *)
Lemma toggleFormat_on_selected_node st (pp : path) k t a cs n format newParent :
  editorRef st = true ->
  selection st = Some (selectNode (pp ++ [k])) ->
  node_at (document st) pp = Some (Element t a cs) ->
  nth_error cs k = Some n ->
  format_wrapper format = Some newParent ->
  exists st',
    toggleFormat engine format st = Returned st'
    /\ document st'
       = alter_at
           (set_children (firstn k cs ++ set_children [n] newParent :: skipn (S k) cs))
           (document st) pp
    /\ selection st' = Some (selectNode (pp ++ [k]))
    /\ editorRef st' = true.
Proof.
  intros Href Hsel Hpp Hk Hfmt.
  unfold toggleFormat. rewrite Href, Hsel, Hfmt. cbn [negb].
  unfold and_then, surroundSelection. rewrite Hsel.
  rewrite (surroundContents_selectNode _ _ _ _ _ _ _ _ Hpp Hk).
  set (st1 := with_selection _ _).
  destruct (updateEditorState_returns engine st1) as [st' Hst'].
  pose proof (updateEditorState_frame engine st1) as F.
  rewrite Hst' in F. cbn [final_state] in F.
  destruct F as (Fd & Fs & Fe & Fr).
  exists st'. split; [exact Hst'|].
  rewrite Fd, Fs, Fr. subst st1.
  cbn [with_selection with_document document selection editorRef].
  auto.
Qed.

(** X3.  [toggleFormat] does not toggle.  With a format applied to a piece of a
    text node, the range selects the new wrapper; the same format applied
    again does not take the wrapper away but puts a second one around it,
    and the range selects that one.  The text of the document stays as it
    was throughout. *)
Theorem toggleFormat_twice_nests
  (st : state) (pp : path) (k : nat) (t : string) (a : attributes) (cs : list node)
  (d : string) (so eo : nat) (format : string) (newParent : node) :
  editorRef st = true ->
  selection st = Some (span_of (pp ++ [k]) so (pp ++ [k]) eo) ->
  node_at (document st) pp = Some (Element t a cs) ->
  nth_error cs k = Some (Text d) ->
  so < eo -> eo <= String.length d ->
  format_wrapper format = Some newParent ->
  let once := set_children [Text (Str.substringData so (eo - so) d)] newParent in
  exists st1 st2,
    toggleFormat engine format st = Returned st1
    /\ node_at (document st1) (pp ++ [S k]) = Some once
    /\ toggleFormat engine format st1 = Returned st2
    /\ node_at (document st2) (pp ++ [S k]) = Some (set_children [once] newParent)
    /\ selection st2 = selection st1
    /\ textContent (document st2) = textContent (document st).
Proof.
  intros Href Hsel Hpp Hk Hlt Hlen Hfmt once.
  pose proof (format_wrapper_element _ _ Hfmt) as Hnew.
  destruct (toggleFormat_in_text st pp k t a cs d so eo format newParent
              Href Hsel Hpp Hk (Nat.lt_le_incl _ _ Hlt) Hlen Hfmt)
    as (st1 & Hrun1 & Hdoc1 & Hsel1 & Href1 & _).
  replace (so =? eo)%nat with false in Hdoc1 by (symmetry; apply Nat.eqb_neq; lia).
  fold once in Hdoc1.
  set (L := firstn k cs ++ [Text (Str.take so d); once; Text (Str.drop eo d)]
                        ++ skipn (S k) cs) in *.
  assert (Hfk : List.length (firstn k cs) = k).
  { rewrite length_firstn. apply Nat.min_l.
    apply Nat.lt_le_incl, nth_error_Some. congruence. }
  assert (HL : nth_error L (S k) = Some once).
  { subst L. rewrite nth_error_app2 by lia. rewrite Hfk.
    replace (S k - k) with 1 by lia. reflexivity. }
  assert (Hpp1 : node_at (document st1) pp = Some (Element t a L)).
  { rewrite Hdoc1. now rewrite (node_at_alter_at_same _ _ _ _ Hpp). }
  assert (Hw1 : node_at (document st1) (pp ++ [S k]) = Some once).
  { rewrite node_at_app, Hpp1. cbn [node_at children]. now rewrite HL. }
  destruct (toggleFormat_on_selected_node st1 pp (S k) t a L once format newParent
              Href1 Hsel1 Hpp1 HL Hfmt)
    as (st2 & Hrun2 & Hdoc2 & Hsel2 & _).
  exists st1, st2.
  split; [exact Hrun1|]. split; [exact Hw1|]. split; [exact Hrun2|].
  split; [|split].
  - rewrite Hdoc2, node_at_app, (node_at_alter_at_same _ _ _ _ Hpp1).
    cbn [set_children node_at children].
    assert (HfL : List.length (firstn (S k) L) = S k).
    { rewrite length_firstn. apply Nat.min_l.
      apply Nat.lt_le_incl, nth_error_Some. congruence. }
    rewrite nth_error_app2 by lia. now rewrite HfL, Nat.sub_diag.
  - now rewrite Hsel2, Hsel1.
  - rewrite Hdoc2.
    rewrite (textContent_alter_at _ _ _ _ Hpp1).
    + rewrite Hdoc1. apply (textContent_alter_at _ _ _ _ Hpp).
      cbn [set_children]. rewrite !textContent_element.
      pose proof (text_of_wrap_in_text cs k d so eo newParent Hk
                    (Nat.lt_le_incl _ _ Hlt) Hnew) as E.
      replace (so =? eo)%nat with false in E by (symmetry; apply Nat.eqb_neq; lia).
      exact E.
    + cbn [set_children]. rewrite !textContent_element.
      now apply text_of_wrap_nth.
Qed.

(** X4.  What the inspector makes of formatted text once the selection is put
    inside it.  (Right after [toggleFormat] the range selects the wrapper
    from outside.)  With a format applied to a piece of a text node, and the
    selection then moved to any range whose common ancestor lies in the
    wrapper, the inspector sets the signal of the format: the wrapper is
    among the ancestors that [hasParentWithTag] walks. *)
Theorem formatted_text_reads_formatted
  (st : state) (pp : path) (k : nat) (t : string) (a : attributes) (cs : list node)
  (d : string) (so eo : nat) (format : string) (newParent : node) (inside : range) :
  editorRef st = true ->
  selection st = Some (span_of (pp ++ [k]) so (pp ++ [k]) eo) ->
  node_at (document st) pp = Some (Element t a cs) ->
  nth_error cs k = Some (Text d) ->
  so <= eo -> eo <= String.length d ->
  format_wrapper format = Some newParent ->
  is_prefix (pp ++ [S k]) (commonAncestorContainer inside) = true ->
  exists st',
    toggleFormat engine format st = Returned st'
    /\ let seen :=
         final_state (updateEditorState engine (with_selection (Some inside) st')) in
       (format = "bold" -> isBold seen = true)
       /\ (format = "italic" -> isItalic seen = true)
       /\ (format = "underline" -> isUnderline seen = true)
       /\ (format = "strikeThrough" -> isStrikethrough seen = true).
Proof.
  intros Href Hsel Hpp Hk Hord Hlen Hfmt Hin.
  destruct (toggleFormat_in_text st pp k t a cs d so eo format newParent
              Href Hsel Hpp Hk Hord Hlen Hfmt)
    as (st' & Hrun & Hdoc & _ & Href' & _).
  exists st'. split; [exact Hrun|].
  set (L := firstn k cs ++ _) in Hdoc.
  set (w := set_children _ newParent) in L.
  assert (Hfk : List.length (firstn k cs) = k).
  { rewrite length_firstn. apply Nat.min_l.
    apply Nat.lt_le_incl, nth_error_Some. congruence. }
  assert (Hw : node_at (document st') (pp ++ [S k]) = Some w).
  { rewrite Hdoc, node_at_app, (node_at_alter_at_same _ _ _ _ Hpp).
    cbn [set_children node_at children]. subst L.
    rewrite nth_error_app2 by lia. rewrite Hfk.
    replace (S k - k) with 1 by lia. reflexivity. }
  set (ca := commonAncestorContainer inside) in *.
  assert (He : exists e, element_of (document st') ca = Some e
                         /\ is_prefix (pp ++ [S k]) e = true).
  { unfold element_of.
    destruct (node_at (document st') ca) as [[d'|t' a' cs']|] eqn:Hca; eauto.
    destruct (is_prefix_proper _ _ Hin) as [E|Hup].
    - rewrite <- E, Hw in Hca. subst w.
      destruct (format_wrapper_cases _ _ Hfmt) as [[_ ->]|[[_ ->]|[[_ ->]|[_ ->]]]];
        discriminate.
    - destruct ca as [|i ca']; [now destruct pp|].
      cbn [parentElement]. eauto. }
  destruct He as (e & He & Hpre).
  assert (Htag : forall tags,
             has_tag_in (document st') tags (pp ++ [S k]) = true ->
             hasParentWithTag (document st') (Some e) tags = true).
  { intros tags Ht. now apply (hasParentWithTag_above _ e (pp ++ [S k])). }
  unfold updateEditorState.
  cbn [with_selection editorRef selection document].
  rewrite Href'. cbn [negb]. fold ca. rewrite He.
  cbv zeta. unfold has_tag_in in Htag.
  destruct (closest (document st') e block_tags);
    cbn [final_state with_currentBlock with_formats
         isBold isItalic isUnderline isStrikethrough];
    (repeat split; intros ->;
     apply orb_true_iff; left; try (apply orb_true_iff; left);
     apply Htag; rewrite Hw; subst w;
     apply format_wrapper_cases in Hfmt;
     destruct Hfmt as [[E ->]|[[E ->]|[[E ->]|[E ->]]]]; try discriminate E;
     reflexivity).
Qed.

End Formatting.

(** "el" of "Hello" set in italics twice: an [em] in an [em]. *)
Lemma toggleFormat_twice_nests_witness :
  let em := styled_element "em" [("font-style", "italic")] in
  exists st1 st2,
    toggleFormat inline_style_engine "italic"
      (mounted hello_page (span_of [0; 0; 0; 0] 1 [0; 0; 0; 0] 3)) = Returned st1
    /\ toggleFormat inline_style_engine "italic" st1 = Returned st2
    /\ node_at (document st2) [0; 0; 0; 1]
       = Some (set_children [set_children [Text "el"] em] em)
    /\ textContent (document st2) = "Hello".
Proof.
  destruct (toggleFormat_twice_nests inline_style_engine
              (mounted hello_page (span_of [0; 0; 0; 0] 1 [0; 0; 0; 0] 3))
              [0; 0; 0] 0 "p" no_attributes [Text "Hello"] "Hello" 1 3 "italic"
              (styled_element "em" [("font-style", "italic")])
              eq_refl eq_refl eq_refl eq_refl ltac:(lia) ltac:(simpl; lia) eq_refl)
    as (st1 & st2 & Hrun1 & _ & Hrun2 & Hnode & _ & Htext).
  exists st1, st2. repeat split; assumption.
Defined.

(** "el" of "Hello" underlined, and the caret then put after "e" inside the
    [u]: the inspector reports underline. *)
Lemma formatted_text_reads_formatted_witness :
  exists st',
    toggleFormat inline_style_engine "underline"
      (mounted hello_page (span_of [0; 0; 0; 0] 1 [0; 0; 0; 0] 3)) = Returned st'
    /\ isUnderline
         (final_state
            (updateEditorState inline_style_engine
               (with_selection (Some (span_of [0; 0; 0; 1; 0] 1 [0; 0; 0; 1; 0] 1)) st')))
       = true.
Proof.
  destruct (formatted_text_reads_formatted inline_style_engine
              (mounted hello_page (span_of [0; 0; 0; 0] 1 [0; 0; 0; 0] 3))
              [0; 0; 0] 0 "p" no_attributes [Text "Hello"] "Hello" 1 3 "underline"
              (styled_element "u" [("text-decoration", "underline")])
              (span_of [0; 0; 0; 1; 0] 1 [0; 0; 0; 1; 0] 1)
              eq_refl eq_refl eq_refl eq_refl ltac:(lia) ltac:(simpl; lia) eq_refl eq_refl)
    as (st' & Hrun & _ & _ & Hu & _).
  exists st'. split; [exact Hrun|exact (Hu eq_refl)].
Defined.

(** ** One alignment after another *)

Lemma length_update_nth {A : Type} (f : A -> A) i (l : list A) :
  List.length (update_nth f i l) = List.length l.
Proof.
  unfold update_nth. destruct (nth_error l i) as [x|] eqn:Hx; [|reflexivity].
  rewrite (list_split_nth l i x Hx) at 3.
  now rewrite !length_app.
Qed.

(** What a change of attributes somewhere in the tree leaves as it was at
    every path: whatever of a node depends on its kind, its tag and the
    number of its children only. *)
Lemma node_at_alter_attributes {A : Type} (h : node -> A) f doc (p q : path) :
  (forall t a a' cs cs',
      List.length cs = List.length cs' -> h (Element t a cs) = h (Element t a' cs')) ->
  option_map h (node_at (alter_at (alter_attributes f) doc p) q)
  = option_map h (node_at doc q).
Proof.
  intros Hh. revert doc q. induction p as [|i p IH]; intros doc q.
  - cbn [alter_at]. destruct doc as [d|t a cs]; [reflexivity|].
    destruct q as [|j q]; [|reflexivity]. cbn. f_equal. now apply Hh.
  - destruct doc as [d|t a cs]; [reflexivity|]. cbn [alter_at].
    destruct q as [|j q].
    + cbn. f_equal. apply Hh. now rewrite length_update_nth.
    + cbn [node_at children].
      destruct (Nat.eq_dec i j) as [<-|Hij].
      * destruct (nth_error cs i) as [c|] eqn:Hc.
        -- rewrite (nth_error_update_nth_same _ _ _ _ Hc). apply IH.
        -- unfold update_nth. now rewrite Hc, Hc.
      * now rewrite nth_error_update_nth_other.
Qed.

Lemma element_of_alter_attributes f doc (p q : path) :
  element_of (alter_at (alter_attributes f) doc p) q = element_of doc q.
Proof.
  unfold element_of.
  pose proof (node_at_alter_attributes is_text f doc p q (fun _ _ _ _ _ _ => eq_refl)) as H.
  destruct (node_at (alter_at (alter_attributes f) doc p) q) as [[|]|],
    (node_at doc q) as [[|]|]; cbn in H; congruence.
Qed.

Lemma set_property_twice p v v' ds :
  set_property p v' (set_property p v ds) = set_property p v' ds.
Proof.
  induction ds as [|[p0 v0] ds IH]; cbn.
  - now rewrite String.eqb_refl.
  - destruct (String.eqb_spec p0 p) as [->|Hne]; cbn.
    + now rewrite String.eqb_refl.
    + destruct (String.eqb_spec p0 p); [contradiction|]. now rewrite IH.
Qed.

Lemma attributes_ext (x y : attributes) :
  styleText x = styleText y -> styleDecls x = styleDecls y ->
  classList x = classList y -> href x = href y ->
  target x = target y -> rel x = rel y -> x = y.
Proof. destruct x, y; cbn; intros; subst; reflexivity. Qed.

(** On the attributes of the block, the alignment set last is all that is
    left of the alignments set before it. *)
Lemma align_attributes_absorbs a b x :
  align_attributes b (align_attributes a x) = align_attributes b x.
Proof.
  assert (Hd : forall c y, styleDecls (align_attributes c y)
                           = set_property "text-align" (alignment_value c) (styleDecls y)).
  { reflexivity. }
  assert (Ht : forall c y, styleText (align_attributes c y)
                           = serialize_block (styleDecls (align_attributes c y))).
  { reflexivity. }
  apply attributes_ext; try reflexivity.
  - now rewrite !Ht, !Hd, set_property_twice.
  - now rewrite !Hd, set_property_twice.
  - rewrite !align_attributes_classList.
    rewrite filter_app, filter_idem. cbn [filter].
    rewrite alignment_class_is_one. cbn [negb]. now rewrite app_nil_r.
Qed.

Section AlignmentTwice.

Variable engine : Host.

Lemma formatAlignment_resolved a st r e :
  editorRef st = true ->
  selection st = Some r ->
  element_of (document st) (commonAncestorContainer r) = Some e ->
  let st' := final_state (formatAlignment engine a st) in
  document st' = alter_at (alter_attributes (align_attributes a)) (document st) e
  /\ selection st' = Some r /\ editorRef st' = true.
Proof.
  intros Href Hsel He. cbv zeta. unfold formatAlignment.
  rewrite Href, Hsel, He. cbn [negb].
  set (st1 := with_document _ st).
  destruct (updateEditorState_frame engine st1) as (Fd & Fs & _ & Fr).
  rewrite Fd, Fs, Fr. subst st1. cbn [with_document document selection editorRef].
  auto.
Qed.

Lemma formatAlignment_unresolved a st :
  editorRef st = false \/ selection st = None
  \/ (exists r, selection st = Some r
                /\ element_of (document st) (commonAncestorContainer r) = None) ->
  final_state (formatAlignment engine a st) = st.
Proof.
  unfold formatAlignment. intros [H|[H|(r & H & He)]].
  - now rewrite H.
  - rewrite H. now destruct (editorRef st).
  - rewrite H, He. now destruct (editorRef st).
Qed.

(** X5.  Of two alignments set one after the other on the same selection, the
    second is the one that counts: the document is the one that the second
    alone would have left, with one alignment class and one [text-align]
    declaration on the block.  In particular the same alignment set twice is
    the alignment set once. *)
Theorem formatAlignment_last_wins (a b : alignment) (st : state) :
  let st1 := final_state (formatAlignment engine a st) in
  document (final_state (formatAlignment engine b st1))
  = document (final_state (formatAlignment engine b st))
  /\ selection (final_state (formatAlignment engine b st1)) = selection st.
Proof.
  cbv zeta.
  destruct (editorRef st) eqn:Href.
  2:{ rewrite (formatAlignment_unresolved a st) by auto.
      now rewrite (formatAlignment_unresolved b st) by auto. }
  destruct (selection st) as [r|] eqn:Hsel.
  2:{ rewrite (formatAlignment_unresolved a st) by auto.
      rewrite (formatAlignment_unresolved b st) by auto. auto. }
  destruct (element_of (document st) (commonAncestorContainer r)) as [e|] eqn:He.
  2:{ rewrite (formatAlignment_unresolved a st) by eauto.
      rewrite (formatAlignment_unresolved b st) by eauto. auto. }
  destruct (formatAlignment_resolved a st r e Href Hsel He) as (Da & Sa & Ra).
  destruct (formatAlignment_resolved b st r e Href Hsel He) as (Db & _).
  set (st1 := final_state (formatAlignment engine a st)) in *.
  assert (He1 : element_of (document st1) (commonAncestorContainer r) = Some e).
  { now rewrite Da, element_of_alter_attributes. }
  destruct (formatAlignment_resolved b st1 r e Ra Sa He1) as (Dab & Sab & _).
  rewrite Dab, Sab, Db, Da. split; [|reflexivity].
  rewrite alter_at_twice. apply alter_at_ext.
  intros n _. destruct n as [d|t at_ cs]; [reflexivity|].
  cbn [alter_attributes]. now rewrite align_attributes_absorbs.
Qed.

End AlignmentTwice.

(** ** Replacing a block: the selection and the block signal afterwards *)

(** A change below the node at [p] leaves the kind and the tag of the nodes
    on the way to [p] as they were. *)
Lemma node_head_alter_below {A : Type} (h : node -> A) f doc (p q r : path) i :
  (forall t a a' cs cs', h (Element t a cs) = h (Element t a' cs')) ->
  is_prefix q p = true ->
  option_map h (node_at (alter_at f doc (p ++ i :: r)) q) = option_map h (node_at doc q).
Proof.
  intros Hh Hq. apply is_prefix_app in Hq as [r' ->].
  rewrite <- app_assoc, alter_at_app.
  destruct (node_at doc q) as [m|] eqn:Hm.
  - rewrite (node_at_alter_at_same _ _ _ _ Hm). cbn [option_map]. f_equal.
    destruct (r' ++ i :: r) as [|j rest] eqn:E; [now destruct r'|].
    destruct m as [d|t a cs]; [reflexivity|]. cbn [alter_at]. apply Hh.
  - now rewrite (alter_at_missing _ _ _ Hm), Hm.
Qed.

Lemma has_tag_in_alter_below f doc (p q r : path) i tags :
  is_prefix q p = true ->
  has_tag_in (alter_at f doc (p ++ i :: r)) tags q = has_tag_in doc tags q.
Proof.
  intros Hq.
  pose proof (node_head_alter_below
                (fun n => match n with Element t _ _ => Str.mem t tags | Text _ => false end)
                f doc p q r i (fun _ _ _ _ _ => eq_refl) Hq) as H.
  unfold has_tag_in.
  destruct (node_at (alter_at f doc (p ++ i :: r)) q) as [[|]|],
    (node_at doc q) as [[|]|]; cbn in H; congruence.
Qed.

Lemma tag_at_alter_below f doc (p q r : path) i :
  is_prefix q p = true ->
  tag_at (alter_at f doc (p ++ i :: r)) q = tag_at doc q.
Proof.
  intros Hq.
  pose proof (node_head_alter_below
                (fun n => match n with Element t _ _ => t | Text _ => "" end)
                f doc p q r i (fun _ _ _ _ _ => eq_refl) Hq) as H.
  unfold tag_at.
  destruct (node_at (alter_at f doc (p ++ i :: r)) q) as [[|]|],
    (node_at doc q) as [[|]|]; cbn in H; congruence.
Qed.

Lemma find_ext_in {A : Type} (f g : A -> bool) (l : list A) :
  (forall x, In x l -> f x = g x) -> find f l = find g l.
Proof.
  induction l as [|x l IH]; intros H; cbn; [reflexivity|].
  rewrite (H x (or_introl eq_refl)), IH; [reflexivity|].
  intros y Hy. apply H. now right.
Qed.

Lemma closest_alter_below f doc (p r : path) i tags :
  closest (alter_at f doc (p ++ i :: r)) p tags = closest doc p tags.
Proof.
  unfold closest, inclusive_ancestors. apply find_ext_in.
  intros q Hq. apply has_tag_in_alter_below. eapply In_climb_is_prefix, Hq.
Qed.

Lemma commonAncestorContainer_above r :
  is_prefix (commonAncestorContainer r) (container (rstart r)) = true
  /\ is_prefix (commonAncestorContainer r) (container (rend r)) = true.
Proof.
  unfold commonAncestorContainer.
  destruct (split_common (container (rstart r)) (container (rend r)))
    as [[c rp] rq] eqn:Hs.
  destruct (split_common_spec _ _ _ _ _ Hs) as (-> & -> & _).
  cbn [fst]. split; apply is_prefix_app; eauto.
Qed.

(** A range that lies in the node that [replaceChild] takes away is left
    collapsed where the node stood. *)
Lemma range_after_replace_inside (q : path) r :
  is_prefix q (commonAncestorContainer r) = true ->
  range_after_replace q r
  = {| rstart := {| container := removelast q; offset := last q 0 |};
       rend := {| container := removelast q; offset := last q 0 |} |}.
Proof.
  intros Hq. destruct (commonAncestorContainer_above r) as (Hs & He).
  unfold range_after_replace, boundary_after_replace.
  now rewrite (is_prefix_trans _ _ _ Hq Hs), (is_prefix_trans _ _ _ Hq He).
Qed.

Lemma commonAncestorContainer_collapsed b :
  commonAncestorContainer {| rstart := b; rend := b |} = container b.
Proof.
  unfold commonAncestorContainer. cbn [rstart rend]. now rewrite split_common_same.
Qed.

Lemma listItem_of_above doc r item :
  listItem_of doc r = Some item -> is_prefix item (commonAncestorContainer r) = true.
Proof.
  unfold listItem_of. set (ca := commonAncestorContainer r).
  assert (Hup : forall p, parentElement ca = Some p -> is_prefix p ca = true).
  { intros p. destruct ca as [|i ca']; [discriminate|].
    intros [= <-]. apply (is_prefix_removelast (i :: ca')). }
  assert (Hfrom : forall p, closest doc p ["li"] = Some item -> is_prefix item p = true).
  { intros p H. now destruct (closest_nearest _ _ _ _ H). }
  destruct (node_at doc ca) as [[d|t a cs]|].
  - destruct (parentElement ca) as [p|] eqn:Hp; [|discriminate].
    intros H. eapply is_prefix_trans; [apply Hfrom, H|now apply Hup].
  - apply Hfrom.
  - apply Hfrom.
Qed.

Section Replacing.

Variable engine : Host.

(** What the inspector makes of the state that [replaceChild] leaves when
    the range lay in the node taken away: the range is collapsed in the
    parent, so the inspector starts from the parent, and the new node is not
    among the elements it sees. *)
Lemma inspect_after_replace st r (block : path) newElement n :
  editorRef st = true ->
  selection st = Some r ->
  block <> [] ->
  node_at (document st) block = Some n ->
  is_prefix block (commonAncestorContainer r) = true ->
  let parent := removelast block in
  let here := {| container := parent; offset := last block 0 |} in
  exists st',
    updateEditorState engine (replaceChild block newElement st) = Returned st'
    /\ document st' = alter_at (fun _ => newElement) (document st) block
    /\ selection st' = Some {| rstart := here; rend := here |}
    /\ effects st' = effects st
    /\ (forall q, nearest_with_tag (document st) block_tags parent q ->
                  currentBlock st' = tag_at (document st) q)
    /\ ((forall q, is_prefix q parent = true ->
                   has_tag_in (document st) block_tags q = false) ->
        currentBlock st' = currentBlock st).
Proof.
  intros Href Hsel Hne Hn Hin parent here.
  assert (Es : block = parent ++ [last block 0]).
  { subst parent. now apply app_removelast_last. }
  set (k := last block 0) in *.
  set (st1 := replaceChild block newElement st).
  assert (Hst1 : st1 = with_selection (Some {| rstart := here; rend := here |})
                         (with_document
                            (alter_at (fun _ => newElement) (document st) block) st)).
  { subst st1. unfold replaceChild. destruct block as [|i0 b0]; [contradiction|].
    rewrite Hsel. cbn [option_map]. now rewrite range_after_replace_inside. }
  set (doc1 := alter_at (fun _ => newElement) (document st) block) in *.
  assert (Hparent : exists t a cs, node_at doc1 parent = Some (Element t a cs)).
  { rewrite Es in Hn. destruct (node_at_app_some _ _ _ _ Hn) as (m & Hm & Hk).
    subst doc1. rewrite Es, alter_at_app, (node_at_alter_at_same _ _ _ _ Hm).
    destruct m as [d|t a cs]; [now destruct k|]. cbn [alter_at]. eauto. }
  destruct Hparent as (t & a & cs & Hparent).
  assert (Hclosest : closest doc1 parent block_tags
                     = closest (document st) parent block_tags).
  { subst doc1. rewrite Es. apply closest_alter_below. }
  unfold updateEditorState. rewrite Hst1.
  cbn [with_selection with_document editorRef selection document].
  rewrite Href. cbn [negb].
  rewrite commonAncestorContainer_collapsed. cbn [here container].
  unfold element_of at 1. rewrite Hparent, Hclosest.
  destruct (closest (document st) parent block_tags) as [q0|] eqn:Hq0.
  - eexists. split; [reflexivity|].
    cbn [with_currentBlock with_formats with_selection with_document
         document selection effects currentBlock].
    repeat split.
    + intros q Hq. pose proof (closest_nearest _ _ _ _ Hq0) as Hq0'.
      rewrite (nearest_with_tag_unique _ _ _ _ _ Hq Hq0').
      subst doc1. rewrite Es. apply tag_at_alter_below. now destruct Hq0'.
    + intros Hnone. destruct (closest_nearest _ _ _ _ Hq0) as (Hp & Ht & _).
      rewrite (Hnone q0 Hp) in Ht. discriminate.
  - eexists. split; [reflexivity|].
    cbn [with_currentBlock with_formats with_selection with_document
         document selection effects currentBlock].
    repeat split.
    intros q (Hp & Ht & _). rewrite (closest_none _ _ _ Hq0 q Hp) in Ht. discriminate.
Qed.

(** X6.  After [handleHeadingChange] has replaced a block, the selection is
    collapsed in the parent of the new element, just before it: what was
    selected is selected no more.  The inspector that the handler runs
    therefore starts from that parent, and the block signal holds the tag of
    the nearest block around the new element (or keeps its value where there
    is none), never the tag of the new element on account of that
    element. *)
Theorem handleHeadingChange_selection_leaves_block
  (select_value : string) (st : state) (r : range) (anchor block : path) :
  editorRef st = true ->
  selection st = Some r ->
  parentElement (commonAncestorContainer r) = Some anchor ->
  closest (document st) anchor heading_tags = Some block ->
  has_tag_in (document st) heading_tags [] = false ->
  let parent := removelast block in
  let here := {| container := parent; offset := last block 0 |} in
  exists st',
    handleHeadingChange engine select_value st = Returned st'
    /\ selection st' = Some {| rstart := here; rend := here |}
    /\ is_prefix block parent = false
    /\ (forall q, nearest_with_tag (document st) block_tags parent q ->
                  currentBlock st' = tag_at (document st) q)
    /\ ((forall q, is_prefix q parent = true ->
                   has_tag_in (document st) block_tags q = false) ->
        currentBlock st' = currentBlock st).
Proof.
  intros Href Hsel Hanchor Hblock Hroot parent here.
  destruct (closest_nearest _ _ _ _ Hblock) as (Hpre & Htag & _).
  assert (Hne : block <> []) by (intros ->; congruence).
  assert (Hn : exists n, node_at (document st) block = Some n).
  { unfold has_tag_in in Htag. destruct (node_at (document st) block); [eauto|discriminate]. }
  destruct Hn as (n & Hn).
  assert (Hin : is_prefix block (commonAncestorContainer r) = true).
  { eapply is_prefix_trans; [exact Hpre|].
    destruct (commonAncestorContainer r) as [|i ca']; [discriminate|].
    injection Hanchor as <-. apply (is_prefix_removelast (i :: ca')). }
  unfold handleHeadingChange. rewrite Hsel, Hanchor, Hblock.
  set (newElement := Element _ no_attributes _).
  destruct (inspect_after_replace st r block newElement n Href Hsel Hne Hn Hin)
    as (st' & Hrun & _ & Hs & _ & Hfound & Hnone).
  exists st'. split; [exact Hrun|]. split; [exact Hs|]. split; [|split; assumption].
  subst parent.
  destruct (is_prefix block (removelast block)) eqn:E; [|reflexivity].
  pose proof (is_prefix_antisym _ _ E (is_prefix_removelast block)) as Eq.
  apply (f_equal (@List.length nat)) in Eq.
  destruct block as [|i b]; [contradiction|].
  rewrite length_removelast_cons in Eq. simpl in Eq. lia.
Qed.

(** X7.  The branch "convert list item to paragraph" of [toggleList]: with the
    selection in an item of a list of the type asked for, the item gives way
    to a paragraph without attributes whose children are what the parser of
    the host makes of the markup of the children of the item; the paragraph
    stands where the item stood, inside the list; the list keeps its tag and
    the rest of the tree stays as it was; where the new children have the
    text of the old ones, the text of the document is what it was; and the
    selection is collapsed in the list, just before the paragraph. *)
Theorem toggleList_same_type_makes_paragraph
  (type : list_type) (st : state) (r : range) (item list : path) :
  editorRef st = true ->
  selection st = Some r ->
  listItem_of (document st) r = Some item ->
  parentElement item = Some list ->
  tag_at (document st) list = list_tag type ->
  let content := children_at (document st) item in
  let inner := innerHTML_copy engine "p" content in
  let here := {| container := list; offset := last item 0 |} in
  exists st',
    toggleList engine type st = Returned st'
    /\ node_at (document st') item = Some (Element "p" no_attributes inner)
    /\ tag_at (document st') list = list_tag type
    /\ (forall q, is_prefix item q = false -> is_prefix q item = false ->
                  node_at (document st') q = node_at (document st) q)
    /\ (text_of inner = text_of content ->
        textContent (document st') = textContent (document st))
    /\ selection st' = Some {| rstart := here; rend := here |}.
Proof.
  intros Href Hsel Hitem Hlist Htag content inner here.
  assert (Hne : item <> []) by (intros ->; discriminate).
  assert (El : list = removelast item).
  { destruct item as [|i p]; [discriminate|]. cbn [parentElement] in Hlist. congruence. }
  assert (Es : item = list ++ [last item 0]).
  { rewrite El. now apply app_removelast_last. }
  assert (Hli : has_tag_in (document st) ["li"] item = true).
  { unfold listItem_of in Hitem.
    destruct (node_at (document st) (commonAncestorContainer r)) as [[d|t a cs]|];
      [destruct (parentElement (commonAncestorContainer r)); [|discriminate]| |];
      now destruct (closest_nearest _ _ _ _ Hitem) as (_ & H & _). }
  assert (Hn : exists t a cs, node_at (document st) item = Some (Element t a cs)).
  { unfold has_tag_in in Hli.
    destruct (node_at (document st) item) as [[d|t a cs]|]; try discriminate. eauto. }
  destruct Hn as (t & a & cs & Hn).
  pose proof (listItem_of_above _ _ _ Hitem) as Hin.
  unfold toggleList. rewrite Href, Hsel, Hitem, Hlist, Htag, String.eqb_refl.
  cbn [negb]. cbv zeta. fold content. fold inner.
  destruct (inspect_after_replace st r item (Element "p" no_attributes inner) _
              Href Hsel Hne Hn Hin)
    as (st' & Hrun & Hdoc & Hs & _).
  exists st'. split; [exact Hrun|]. rewrite Hdoc.
  split; [|split; [|split; [|split]]].
  - now rewrite (node_at_alter_at_same _ _ _ _ Hn).
  - rewrite <- Htag. rewrite Es at 1. apply tag_at_alter_below, is_prefix_refl.
  - intros q H1 H2. now apply node_at_alter_at_apart.
  - intros Htext. apply (textContent_alter_at _ _ _ _ Hn).
    rewrite !textContent_element, Htext. subst content.
    unfold children_at. now rewrite Hn.
  - rewrite Hs. subst here. now rewrite El.
Qed.

End Replacing.

(** In [<p>Hello</p>], with "el" selected, the change to "h1" leaves the
    selection collapsed in the editor [div], before the heading, and the
    block signal at "div". *)
Lemma handleHeadingChange_selection_leaves_block_witness :
  exists st',
    handleHeadingChange inline_style_engine "h1"
      (mounted hello_page (span_of [0; 0; 0; 0] 1 [0; 0; 0; 0] 3)) = Returned st'
    /\ selection st' = Some (span_of [0; 0] 0 [0; 0] 0)
    /\ currentBlock st' = "div".
Proof.
  destruct (handleHeadingChange_selection_leaves_block inline_style_engine "h1"
              (mounted hello_page (span_of [0; 0; 0; 0] 1 [0; 0; 0; 0] 3))
              (span_of [0; 0; 0; 0] 1 [0; 0; 0; 0] 3) [0; 0; 0] [0; 0; 0]
              eq_refl eq_refl eq_refl eq_refl eq_refl)
    as (st' & Hrun & Hs & _ & Hfound & _).
  exists st'. split; [exact Hrun|]. split; [exact Hs|].
  apply (Hfound [0; 0]). apply closest_nearest. reflexivity.
Defined.

(** In [<ul><li>Hello</li></ul>], with "el" selected, the bullet list button
    leaves [<ul><p>Hello</p></ul>]. *)
Lemma toggleList_same_type_makes_paragraph_witness :
  exists st',
    toggleList inline_style_engine ul
      (mounted bullet_page (span_of [0; 0; 0; 0; 0] 1 [0; 0; 0; 0; 0] 3)) = Returned st'
    /\ node_at (document st') [0; 0; 0; 0] = Some (plain "p" [Text "Hello"])
    /\ tag_at (document st') [0; 0; 0] = "ul"
    /\ selection st' = Some (span_of [0; 0; 0] 0 [0; 0; 0] 0).
Proof.
  destruct (toggleList_same_type_makes_paragraph inline_style_engine ul
              (mounted bullet_page (span_of [0; 0; 0; 0; 0] 1 [0; 0; 0; 0; 0] 3))
              (span_of [0; 0; 0; 0; 0] 1 [0; 0; 0; 0; 0] 3) [0; 0; 0; 0] [0; 0; 0]
              eq_refl eq_refl eq_refl eq_refl eq_refl)
    as (st' & Hrun & Hnode & Htag & _ & _ & Hs).
  exists st'. repeat split; assumption.
Defined.

(** ** Taking a range out and putting a node where it was *)

(** The two parts that a boundary point makes of a node have, together, the
    text of the node. *)
Lemma before_after_text c (p : path) o m :
  node_at c p = Some m ->
  (textContent (before_node c p o) ++ textContent (after_node c p o))%string
  = textContent c.
Proof.
  revert c. induction p as [|i p IH]; intros c Hm.
  - destruct c as [d|t a cs]; cbn [before_node after_node].
    + apply take_drop.
    + rewrite !textContent_element, <- text_of_app. now rewrite firstn_skipn.
  - destruct c as [d|t a cs]; [now destruct i|].
    cbn [node_at children] in Hm.
    destruct (nth_error cs i) as [c|] eqn:Hc; [|discriminate].
    cbn [before_node after_node]. unfold child. cbn [children].
    rewrite (nth_error_nth _ _ _ Hc).
    rewrite !textContent_element.
    remember (text_of cs) as T eqn:ET.
    rewrite (list_split_nth cs i c Hc) in ET. subst T.
    rewrite !text_of_app, !text_of_cons.
    change (text_of []) with EmptyString. rewrite append_nil_r.
    rewrite <- (IH c Hm). now rewrite <- !append_assoc.
Qed.

(** The three parts that [cut_children] makes of the children of the common
    ancestor have, together, the text of the children, whatever the depth at
    which the boundary points lie. *)
Lemma cut_children_text_deep cs sr so er eo :
  match sr, er with
  | [], [] => so <= eo
  | [], j :: _ => so <= j
  | i :: _, [] => i < eo
  | i :: _, j :: _ => i < j
  end ->
  match sr with
  | [] => True
  | i :: sr' => exists c m, nth_error cs i = Some c /\ node_at c sr' = Some m
  end ->
  match er with
  | [] => True
  | j :: er' => exists c m, nth_error cs j = Some c /\ node_at c er' = Some m
  end ->
  let '(before, inside, after) := cut_children cs sr so er eo in
  (text_of before ++ text_of inside ++ text_of after)%string = text_of cs.
Proof.
  intros Hord Hs He. unfold cut_children.
  remember (text_of cs) as T eqn:ET.
  destruct sr as [|i sr], er as [|j er].
  - rewrite <- (firstn_skipn so cs), (skipn_slice so eo cs Hord) in ET.
    subst T. now rewrite !text_of_app.
  - destruct He as (c & m & Hj & Hm).
    rewrite (nth_error_nth _ _ _ Hj).
    rewrite <- (firstn_skipn so cs), (skipn_slice so j cs Hord),
      (skipn_nth_error _ _ _ Hj) in ET.
    subst T. rewrite !text_of_app, !text_of_cons.
    change (text_of []) with EmptyString. rewrite ?append_nil_r.
    rewrite <- (before_after_text c er eo m Hm). now rewrite <- !append_assoc.
  - destruct Hs as (c & m & Hi & Hm).
    rewrite (nth_error_nth _ _ _ Hi).
    rewrite <- (firstn_skipn i cs), (skipn_nth_error _ _ _ Hi),
      (skipn_slice (S i) eo cs) in ET by lia.
    subst T. rewrite !text_of_app, !text_of_cons, !text_of_app.
    change (text_of []) with EmptyString. rewrite ?append_nil_r.
    rewrite <- (before_after_text c sr so m Hm). now rewrite <- !append_assoc.
  - destruct Hs as (c & m & Hi & Hm). destruct He as (c' & m' & Hj & Hm').
    rewrite (nth_error_nth _ _ _ Hi), (nth_error_nth _ _ _ Hj).
    rewrite <- (firstn_skipn i cs), (skipn_nth_error _ _ _ Hi),
      (skipn_slice (S i) j cs), (skipn_nth_error _ _ _ Hj) in ET by lia.
    subst T. rewrite !text_of_app, !text_of_cons, !text_of_app, !text_of_cons.
    change (text_of []) with EmptyString. rewrite ?append_nil_r.
    rewrite <- (before_after_text c sr so m Hm).
    rewrite <- (before_after_text c' er eo m' Hm').
    now rewrite <- !append_assoc.
Qed.

(** The text of a document around one of its nodes. *)
Lemma textContent_context doc (p : path) m :
  node_at doc p = Some m ->
  exists pre post,
    textContent doc = (pre ++ textContent m ++ post)%string
    /\ forall f, textContent (alter_at f doc p)
                 = (pre ++ textContent (f m) ++ post)%string.
Proof.
  revert doc. induction p as [|i p IH]; intros doc Hm.
  - cbn in Hm. injection Hm as ->. exists EmptyString, EmptyString.
    split; [|intros f]; cbn [alter_at]; now rewrite append_nil_r.
  - destruct doc as [d|t a cs]; [now destruct i|].
    cbn [node_at children] in Hm.
    destruct (nth_error cs i) as [c|] eqn:Hc; [|discriminate].
    destruct (IH c Hm) as (pre & post & Hdoc & Halter).
    exists (text_of (firstn i cs) ++ pre)%string,
           (post ++ text_of (skipn (S i) cs))%string.
    split.
    + rewrite textContent_element.
      remember (text_of cs) as T eqn:ET.
      rewrite (list_split_nth cs i c Hc) in ET. subst T.
      rewrite text_of_app, text_of_cons, Hdoc. now rewrite <- !append_assoc.
    + intros f. cbn [alter_at]. rewrite textContent_element.
      rewrite (update_nth_split _ _ _ _ Hc).
      rewrite text_of_app, text_of_cons, Halter. now rewrite <- !append_assoc.
Qed.

Lemma is_text_alter_at f doc (p : path) :
  (forall n, is_text (f n) = is_text n) ->
  is_text (alter_at f doc p) = is_text doc.
Proof.
  intros Hf. destruct p as [|i p]; cbn [alter_at]; [apply Hf|now destruct doc].
Qed.

Lemma is_text_set_children l n : is_text (set_children l n) = is_text n.
Proof. now destruct n. Qed.

Lemma extractContents_collapsed doc r :
  (if collapsed r then (doc, [], r) else extractContents doc r) = extractContents doc r.
Proof. unfold extractContents. now destruct (collapsed r). Qed.

(** A range inside one text node, the child of index [k] of the element at
    [pp]: the contents go, and a node inserted where the range has collapsed
    to stands between the two parts of the text node that are left. *)
Lemma extract_insert_in_text doc (pp : path) k t a cs d so eo n :
  node_at doc pp = Some (Element t a cs) ->
  nth_error cs k = Some (Text d) ->
  so <= eo -> eo <= String.length d ->
  exists doc1 r1 r2,
    extractContents doc (span_of (pp ++ [k]) so (pp ++ [k]) eo)
    = (doc1, cloneContents doc (span_of (pp ++ [k]) so (pp ++ [k]) eo), r1)
    /\ insertNode doc1 (rstart r1) n
       = inr (alter_at
                (set_children
                   (firstn k cs
                    ++ [Text (Str.take so d); n; Text (Str.drop eo d)]
                    ++ skipn (S k) cs)) doc pp,
              pp ++ [S k], r2).
Proof.
  intros Hpp Hk Hle Hlen.
  assert (Htext : node_at doc (pp ++ [k]) = Some (Text d)).
  { rewrite node_at_app, Hpp. simpl. now rewrite Hk. }
  assert (Hkl : k < List.length cs) by (apply nth_error_Some; congruence).
  unfold extractContents, cloneContents, collapsed.
  cbn [span_of rstart rend container offset].
  rewrite !split_common_same. cbv beta iota zeta.
  rewrite !Htext, path_eqb_refl. cbn [andb].
  assert (Hne : exists i tp, pp ++ [k] = i :: tp).
  { destruct pp; simpl; eauto. }
  destruct Hne as (i0 & tp0 & Hne).
  assert (Hfk : List.length (firstn k cs) = k) by (rewrite length_firstn; lia).
  destruct (Nat.eqb_spec so eo) as [->|Hneq].
  - do 3 eexists. split; [reflexivity|].
    unfold insertNode. cbn [span_of rstart container offset].
    rewrite Htext, Hne, <- Hne.
    rewrite removelast_last, last_last.
    f_equal. f_equal. f_equal.
    apply alter_at_ext.
    intros m Hm. rewrite Hpp in Hm. injection Hm as <-. reflexivity.
  - do 3 eexists. split; [reflexivity|].
    unfold insertNode. cbn [rstart container offset].
    rewrite (node_at_alter_at_same _ _ _ _ Htext), Hne, <- Hne.
    rewrite removelast_last, last_last.
    f_equal. f_equal. f_equal.
    rewrite (alter_at_app _ _ pp [k]), alter_at_twice. apply alter_at_ext.
    intros m Hm. rewrite Hpp in Hm. injection Hm as <-.
    cbn [alter_at set_children children]. f_equal.
    rewrite !(update_nth_split (fun _ => Text (Str.take so d ++ Str.drop eo d)) k cs _ Hk).
    assert (Hf : firstn k (firstn k cs
                           ++ Text (Str.take so d ++ Str.drop eo d)
                              :: skipn (S k) cs)
                 = firstn k cs).
    { rewrite <- Hfk at 1. rewrite firstn_app, Nat.sub_diag, firstn_O, app_nil_r.
      apply firstn_all. }
    assert (Hs : skipn (S k) (firstn k cs
                              ++ Text (Str.take so d ++ Str.drop eo d)
                                 :: skipn (S k) cs)
                 = skipn (S k) cs).
    { rewrite skipn_app, Hfk.
      rewrite skipn_all2 by lia.
      replace (S k - k) with 1 by lia. reflexivity. }
    rewrite Hf, Hs.
    assert (Hso : so <= String.length d) by lia.
    now rewrite take_take_append, drop_take_append.
Qed.

(** A range whose common ancestor is an element: the contents go, and a
    node inserted where the range has collapsed to stands between what was
    before the range and what was after it. *)
Lemma extract_insert_in_element doc sp so ep eo (ca sr er : path) t a cs n :
  split_common sp ep = (ca, sr, er) ->
  node_at doc ca = Some (Element t a cs) ->
  match sr with [] => so | i :: _ => S i end <= List.length cs ->
  exists doc1 r1 r2,
    extractContents doc (span_of sp so ep eo)
    = (doc1, cloneContents doc (span_of sp so ep eo), r1)
    /\ insertNode doc1 (rstart r1) n
       = inr (alter_at
                (set_children
                   (fst (fst (cut_children cs sr so er eo))
                    ++ n :: snd (cut_children cs sr so er eo))) doc ca,
              ca ++ [match sr with [] => so | i :: _ => S i end], r2).
Proof.
  intros Hsplit Hca Hidx.
  unfold extractContents, cloneContents, collapsed.
  cbn [span_of rstart rend container offset].
  pose proof (cut_children_before_length cs sr so er eo Hidx) as Hlen.
  destruct (path_eqb sp ep && (so =? eo)%nat) eqn:Hcol.
  - apply andb_true_iff in Hcol as [Hp Ho].
    apply path_eqb_eq in Hp. apply Nat.eqb_eq in Ho. subst ep eo.
    rewrite split_common_same in Hsplit. injection Hsplit as <- <- <-.
    cbn [cut_children fst snd] in *.
    do 3 eexists. split; [reflexivity|].
    cbn [rstart]. now rewrite (insertNode_in_element _ _ _ _ _ _ _ Hca Hidx).
  - rewrite Hsplit, Hca.
    destruct (cut_children cs sr so er eo) as [[before inside] after] eqn:Hcut.
    cbn [fst snd] in *.
    do 3 eexists. split; [reflexivity|].
    cbn [rstart].
    pose proof (node_at_alter_at_same (set_children (before ++ after)) _ _ _ Hca) as Hca'.
    cbn [set_children] in Hca'.
    rewrite (insertNode_in_element _ _ _ _ _ _ _ Hca')
      by (rewrite length_app; lia).
    rewrite alter_at_twice.
    assert (Hf : firstn (match sr with [] => so | i :: _ => S i end)
                   (before ++ after) = before).
    { rewrite <- Hlen. rewrite firstn_app, Nat.sub_diag, firstn_O, app_nil_r.
      apply firstn_all. }
    assert (Hs : skipn (match sr with [] => so | i :: _ => S i end)
                   (before ++ after) = after).
    { rewrite <- Hlen. rewrite skipn_app, Nat.sub_diag, skipn_all. reflexivity. }
    rewrite Hf, Hs.
    f_equal. f_equal. f_equal.
    apply alter_at_ext. intros m Hm. rewrite Hca in Hm. now injection Hm as <-.
Qed.

(** The contents of a range of the document taken out, and a node put where
    they were.  This is what [toggleList] does for a new list and what
    [handlePaste] does; unlike [surroundContents] it asks nothing of the
    range.  The node stands at [wrapper_path]; the text of the document is
    the text it had, with the text of the node in the place of the text of
    the range. *)
Lemma extract_then_insert doc r n :
  is_text doc = false ->
  valid_range doc r = true ->
  exists doc1 r1 doc2 r2 pre post,
    extractContents doc r = (doc1, cloneContents doc r, r1)
    /\ insertNode doc1 (rstart r1) n = inr (doc2, wrapper_path doc r, r2)
    /\ node_at doc2 (wrapper_path doc r) = Some n
    /\ is_text doc2 = false
    /\ textContent doc = (pre ++ range_toString doc r ++ post)%string
    /\ textContent doc2 = (pre ++ textContent n ++ post)%string.
Proof.
  intros Hroot Hvalid.
  destruct r as [[sp so] [ep eo]].
  unfold valid_range, valid_boundary, boundary_leb in Hvalid.
  cbn [rstart rend container offset] in Hvalid.
  apply andb_true_iff in Hvalid as [Hvalid Hord].
  apply andb_true_iff in Hvalid as [Hs He].
  destruct (node_at doc sp) as [ns|] eqn:Hsp; [|discriminate].
  destruct (node_at doc ep) as [ne|] eqn:Hep; [|discriminate].
  apply Nat.leb_le in Hs, He.
  change {| rstart := {| container := sp; offset := so |};
            rend := {| container := ep; offset := eo |} |}
    with (span_of sp so ep eo).
  assert (Hw : wrapper_path doc (span_of sp so ep eo)
               = let '(ca, sr, _) := split_common sp ep in
                 match node_at doc ca with
                 | Some (Text _) => removelast ca ++ [S (last ca 0)]
                 | _ => ca ++ [match sr with [] => so | i :: _ => S i end]
                 end) by reflexivity.
  assert (Hts : range_toString doc (span_of sp so ep eo)
                = text_of (cloneContents doc (span_of sp so ep eo))) by reflexivity.
  rewrite Hw, Hts. clear Hw Hts.
  destruct (split_common sp ep) as [[ca sr] er] eqn:Hsplit.
  destruct (split_common_spec _ _ _ _ _ Hsplit) as (Esp & Eep & Hdiff).
  subst sp ep.
  destruct (node_at_app_some _ _ _ _ Hsp) as (nca & Hca & Hsr).
  destruct (node_at_app_some _ _ _ _ Hep) as (nca' & Hca' & Her).
  rewrite Hca in Hca'. injection Hca' as <-. rewrite Hca.
  destruct nca as [d|t a cs].
  - (* the common ancestor is a text node *)
    apply node_at_text_nil in Hsr as Esr. apply node_at_text_nil in Her as Eer.
    subst sr er. rewrite !app_nil_r in *.
    simpl in Hsr, Her. injection Hsr as <-. injection Her as <-.
    simpl in Hs, He. apply Nat.leb_le in Hord.
    destruct ca as [|k pp _] using rev_ind.
    { simpl in Hca. injection Hca as ->. discriminate. }
    destruct (node_at_app_some _ _ _ _ Hca) as (par & Hpar & Hk).
    destruct par as [d'|t a cs]; [now destruct k|].
    simpl in Hk. destruct (nth_error cs k) as [c|] eqn:Hck; [|discriminate].
    injection Hk as ->.
    rewrite removelast_last, last_last.
    destruct (extract_insert_in_text doc pp k t a cs d so eo n Hpar Hck Hord He)
      as (doc1 & r1 & r2 & Hext & Hins).
    destruct (textContent_context doc pp _ Hpar) as (pre & post & Hdoc & Halter).
    assert (Hfk : List.length (firstn k cs) = k).
    { rewrite length_firstn. apply Nat.min_l.
      apply Nat.lt_le_incl, nth_error_Some. congruence. }
    assert (Hclone : text_of (cloneContents doc (span_of (pp ++ [k]) so (pp ++ [k]) eo))
                     = Str.substringData so (eo - so) d).
    { unfold cloneContents, collapsed. cbn [span_of rstart rend container offset].
      rewrite split_common_same, Hca, path_eqb_refl. cbn [andb].
      destruct (Nat.eqb_spec so eo) as [->|_].
      - rewrite Nat.sub_diag. unfold Str.substringData. now destruct (Str.drop eo d).
      - cbn. apply append_nil_r. }
    exists doc1, r1; eexists; exists r2,
      (pre ++ text_of (firstn k cs) ++ Str.take so d)%string,
      (Str.drop eo d ++ text_of (skipn (S k) cs) ++ post)%string.
    split; [exact Hext|]. split; [exact Hins|]. split; [|split; [|split]].
    + rewrite node_at_app, (node_at_alter_at_same _ _ _ _ Hpar).
      cbn [set_children node_at children].
      rewrite nth_error_app2 by lia. rewrite Hfk.
      replace (S k - k) with 1 by lia. reflexivity.
    + rewrite is_text_alter_at; [exact Hroot|]. intros m. apply is_text_set_children.
    + rewrite Hdoc, Hclone, textContent_element.
      remember (text_of cs) as T eqn:ET.
      rewrite (list_split_nth cs k _ Hck) in ET. subst T.
      rewrite text_of_app, text_of_cons. cbn [textContent].
      rewrite <- (take_drop so d) at 1.
      rewrite <- (substringData_drop so eo d Hord).
      now rewrite <- !append_assoc.
    + rewrite Halter. cbn [set_children]. rewrite textContent_element.
      rewrite !text_of_app, !text_of_cons. cbn [textContent].
      change (text_of []) with EmptyString. rewrite append_nil_r.
      now rewrite <- !append_assoc.
  - (* the common ancestor is an element *)
    assert (Hidx : match sr with [] => so | i :: _ => S i end <= List.length cs).
    { destruct sr as [|i sr].
      - simpl in Hsr. injection Hsr as <-. exact Hs.
      - simpl in Hsr. destruct (nth_error cs i) eqn:Hi; [|discriminate].
        assert (i < List.length cs) by (apply nth_error_Some; congruence). lia. }
    destruct (extract_insert_in_element doc (ca ++ sr) so (ca ++ er) eo ca sr er
                t a cs n Hsplit Hca Hidx)
      as (doc1 & r1 & r2 & Hext & Hins).
    destruct (textContent_context doc ca _ Hca) as (pre & post & Hdoc & Halter).
    pose proof (cut_children_before_length cs sr so er eo Hidx) as Hlen.
    assert (Horder : match sr, er with
                     | [], [] => so <= eo
                     | [], j :: _ => so <= j
                     | i :: _, [] => i < eo
                     | i :: _, j :: _ => i < j
                     end).
    { destruct sr, er; first [now apply Nat.leb_le | now apply Nat.ltb_lt]. }
    assert (Hstart : match sr with
                     | [] => True
                     | i :: sr' =>
                         exists c m, nth_error cs i = Some c /\ node_at c sr' = Some m
                     end).
    { destruct sr as [|i sr']; [exact I|]. simpl in Hsr.
      destruct (nth_error cs i) as [c|]; [eauto|discriminate]. }
    assert (Hend : match er with
                   | [] => True
                   | j :: er' =>
                       exists c m, nth_error cs j = Some c /\ node_at c er' = Some m
                   end).
    { destruct er as [|j er']; [exact I|]. simpl in Her.
      destruct (nth_error cs j) as [c|]; [eauto|discriminate]. }
    pose proof (cut_children_text_deep cs sr so er eo Horder Hstart Hend) as Htext.
    assert (Hclone : text_of (cloneContents doc (span_of (ca ++ sr) so (ca ++ er) eo))
                     = text_of (snd (fst (cut_children cs sr so er eo)))).
    { unfold cloneContents, collapsed. cbn [span_of rstart rend container offset].
      rewrite Hsplit, Hca.
      destruct (path_eqb (ca ++ sr) (ca ++ er) && (so =? eo)%nat) eqn:Hcol; [|reflexivity].
      apply andb_true_iff in Hcol as [Hp Ho].
      apply path_eqb_eq in Hp. apply Nat.eqb_eq in Ho. subst eo.
      rewrite Hp, split_common_same in Hsplit. injection Hsplit as _ <- <-.
      cbn [cut_children fst snd]. now rewrite slice_empty. }
    destruct (cut_children cs sr so er eo) as [[before inside] after] eqn:Hcut.
    cbn [fst snd] in *.
    exists doc1, r1; eexists; exists r2,
      (pre ++ text_of before)%string, (text_of after ++ post)%string.
    split; [exact Hext|]. split; [exact Hins|]. split; [|split; [|split]].
    + rewrite node_at_app, (node_at_alter_at_same _ _ _ _ Hca).
      cbn [set_children node_at children].
      rewrite <- Hlen. now rewrite nth_error_middle.
    + rewrite is_text_alter_at; [exact Hroot|]. intros m. apply is_text_set_children.
    + rewrite Hdoc, Hclone, textContent_element, <- Htext.
      now rewrite <- !append_assoc.
    + rewrite Halter. cbn [set_children]. rewrite textContent_element.
      rewrite text_of_app, text_of_cons. now rewrite <- !append_assoc.
Qed.

(** ** A new list, and pasted text *)

Section NewListAndPaste.

Variable engine : Host.

(** X8.  The branch "create new list" of [toggleList]: with a selection that no
    list item holds, the handler returns for every range of the document,
    also one that cuts elements in two (on which [toggleFormat] throws).  A
    list of the type asked for stands where the range was, with one item that
    holds what the range held; the text of the document is as it was; the
    selection is collapsed at the end of the item. *)
Theorem toggleList_new_list_holds_range (type : list_type) (st : state) (r : range) :
  editorRef st = true ->
  selection st = Some r ->
  listItem_of (document st) r = None ->
  is_text (document st) = false ->
  valid_range (document st) r = true ->
  let w := wrapper_path (document st) r in
  let content := cloneContents (document st) r in
  let inside := {| container := w ++ [0]; offset := List.length content |} in
  exists st',
    toggleList engine type st = Returned st'
    /\ node_at (document st') w
       = Some (Element (list_tag type) no_attributes
                 [Element "li" no_attributes content])
    /\ selection st' = Some {| rstart := inside; rend := inside |}
    /\ textContent (document st') = textContent (document st).
Proof.
  intros Href Hsel Hitem Hroot Hvalid w content inside.
  set (list := Element (list_tag type) no_attributes
                 [Element "li" no_attributes content]).
  destruct (extract_then_insert (document st) r list Hroot Hvalid)
    as (doc1 & r1 & doc2 & r2 & pre & post & Hext & Hins & Hnode & _ & Hdoc & Hdoc2).
  unfold toggleList. rewrite Href, Hsel, Hitem. cbn [negb].
  rewrite extractContents_collapsed, Hext. fold content. fold list.
  rewrite Hins. fold w. fold inside.
  set (st1 := with_selection _ _).
  destruct (updateEditorState_returns engine st1) as [st' Hst'].
  pose proof (updateEditorState_frame engine st1) as F.
  rewrite Hst' in F. cbn [final_state] in F. destruct F as (Fd & Fs & _).
  exists st'. split; [exact Hst'|].
  rewrite Fd, Fs. subst st1. cbn [with_selection with_document document selection].
  split; [exact Hnode|]. split; [reflexivity|].
  rewrite Hdoc2, Hdoc. subst list. rewrite !textContent_element.
  rewrite text_of_cons, textContent_element.
  change (text_of []) with EmptyString. now rewrite append_nil_r.
Qed.

(** X9.  [handlePaste] puts the plain text of the clipboard in the place of the
    selection, as one text node: markup in the text stays text.  The text of
    the document is the text it had with the pasted text in the place of the
    text of the selection; the selection is collapsed just after the new text
    node; the default action of the event is prevented, and nothing else is
    shown to the user. *)
Theorem handlePaste_puts_text (plain_text : option string) (st : state) (r : range) :
  selection st = Some r ->
  is_text (document st) = false ->
  valid_range (document st) r = true ->
  let text := match plain_text with Some s => s | None => "" end in
  let w := wrapper_path (document st) r in
  let after := {| container := removelast w; offset := S (last w 0) |} in
  exists st' pre post,
    handlePaste engine plain_text st = Returned st'
    /\ node_at (document st') w = Some (Text text)
    /\ textContent (document st) = (pre ++ selection_toString st ++ post)%string
    /\ textContent (document st') = (pre ++ text ++ post)%string
    /\ selection st' = Some {| rstart := after; rend := after |}
    /\ effects st' = effects st ++ [PreventDefault].
Proof.
  intros Hsel Hroot Hvalid text w after.
  destruct (extract_then_insert (document st) r (Text text) Hroot Hvalid)
    as (doc1 & r1 & doc2 & r2 & pre & post & Hext & Hins & Hnode & _ & Hdoc & Hdoc2).
  unfold handlePaste, deleteContents.
  cbn [log selection document].
  rewrite Hsel, Hext.
  replace (match plain_text with
           | Some s => if Str.truthy s then s else ""
           | None => ""
           end) with text by (subst text; now destruct plain_text as [[|c s]|]).
  rewrite Hins. fold w. fold after.
  set (st1 := with_selection _ _).
  destruct (updateEditorState_returns engine st1) as [st' Hst'].
  pose proof (updateEditorState_frame engine st1) as F.
  rewrite Hst' in F. cbn [final_state] in F. destruct F as (Fd & Fs & Fe & _).
  exists st', pre, post. split; [exact Hst'|].
  rewrite Fd, Fs, Fe. subst st1.
  cbn [with_selection with_document log document selection effects].
  split; [exact Hnode|]. split; [|split; [exact Hdoc2|split; reflexivity]].
  unfold selection_toString. now rewrite Hsel.
Qed.

End NewListAndPaste.

(** In [<p>ab<b>cd</b></p>], with "bc" selected across the edge of the [b]:
    the bullet list button puts a list between "a" and what is left of the
    [b], and the item holds "b" and a [b] with "c". *)
Lemma toggleList_new_list_holds_range_witness :
  exists st',
    toggleList inline_style_engine ul
      (mounted mixed_page (span_of [0; 0; 0; 0] 1 [0; 0; 0; 1; 0] 1)) = Returned st'
    /\ node_at (document st') [0; 0; 0; 1]
       = Some (plain "ul" [plain "li" [Text "b"; plain "b" [Text "c"]]])
    /\ selection st' = Some (span_of [0; 0; 0; 1; 0] 2 [0; 0; 0; 1; 0] 2)
    /\ textContent (document st') = "abcd".
Proof.
  destruct (toggleList_new_list_holds_range inline_style_engine ul
              (mounted mixed_page (span_of [0; 0; 0; 0] 1 [0; 0; 0; 1; 0] 1))
              (span_of [0; 0; 0; 0] 1 [0; 0; 0; 1; 0] 1)
              eq_refl eq_refl eq_refl eq_refl eq_refl)
    as (st' & Hrun & Hnode & Hs & Htext).
  exists st'. repeat split; assumption.
Defined.

(** In [<p>Hello</p>], with "el" selected, the text "<b>x</b>" pasted: a
    text node with these seven characters stands between "H" and "lo", and
    the caret after it. *)
Lemma handlePaste_puts_text_witness :
  exists st',
    handlePaste inline_style_engine (Some "<b>x</b>")
      (mounted hello_page (span_of [0; 0; 0; 0] 1 [0; 0; 0; 0] 3)) = Returned st'
    /\ node_at (document st') [0; 0; 0; 1] = Some (Text "<b>x</b>")
    /\ selection st' = Some (span_of [0; 0; 0] 2 [0; 0; 0] 2)
    /\ effects st' = [PreventDefault].
Proof.
  destruct (handlePaste_puts_text inline_style_engine (Some "<b>x</b>")
              (mounted hello_page (span_of [0; 0; 0; 0] 1 [0; 0; 0; 0] 3))
              (span_of [0; 0; 0; 0] 1 [0; 0; 0; 0] 3)
              eq_refl eq_refl eq_refl)
    as (st' & pre & post & Hrun & Hnode & _ & _ & Hs & He).
  exists st'. repeat split; assumption.
Defined.

(** ** Removing a link *)

(** The loop of the button "Remove Link" ends after one turn for each child
    of the link: the children stand before the link, in their order, and the
    link is empty. *)
Lemma lift_children_all (l1 l2 : list node) t a cs :
  lift_children (List.length cs) (List.length l1) (l1 ++ Element t a cs :: l2)
  = (l1 ++ cs ++ Element t a [] :: l2, List.length l1 + List.length cs).
Proof.
  revert l1. induction cs as [|c rest IH]; intros l1.
  - cbn [lift_children List.length app]. now rewrite Nat.add_0_r.
  - cbn [lift_children List.length]. unfold lift_first_child.
    rewrite nth_error_middle.
    rewrite firstn_app, Nat.sub_diag, firstn_O, app_nil_r, firstn_all.
    replace (skipn (S (List.length l1)) (l1 ++ Element t a (c :: rest) :: l2)) with l2.
    2:{ rewrite skipn_app, skipn_all2 by lia.
        replace (S (List.length l1) - List.length l1) with 1 by lia. reflexivity. }
    replace (S (List.length l1)) with (List.length (l1 ++ [c]))
      by (rewrite length_app; simpl; lia).
    replace (l1 ++ c :: Element t a rest :: l2)
      with ((l1 ++ [c]) ++ Element t a rest :: l2) by now rewrite <- app_assoc.
    rewrite IH. rewrite <- !app_assoc, length_app. cbn [app List.length].
    f_equal. lia.
Qed.

Lemma remove_nth_middle {A : Type} (l1 l2 : list A) x :
  remove_nth (List.length l1) (l1 ++ x :: l2) = l1 ++ l2.
Proof.
  unfold remove_nth.
  rewrite firstn_app, Nat.sub_diag, firstn_O, app_nil_r, firstn_all.
  rewrite skipn_app, skipn_all2 by lia.
  replace (S (List.length l1) - List.length l1) with 1 by lia. reflexivity.
Qed.

(** The loop and the removal together: the children of the link stand where
    the link stood. *)
Lemma unwrap_link_splices doc (pp : path) k tp ap siblings t a cs :
  node_at doc pp = Some (Element tp ap siblings) ->
  nth_error siblings k = Some (Element t a cs) ->
  unwrap_link (pp ++ [k]) doc
  = alter_at (set_children (firstn k siblings ++ cs ++ skipn (S k) siblings)) doc pp.
Proof.
  intros Hpp Hk. unfold unwrap_link, children_at.
  rewrite removelast_last, last_last, node_at_app, Hpp.
  cbn [node_at children]. rewrite Hk. cbn [children].
  apply alter_at_ext. intros m Hm. rewrite Hpp in Hm. injection Hm as <-.
  cbn [children].
  assert (Hfk : List.length (firstn k siblings) = k).
  { rewrite length_firstn. apply Nat.min_l.
    apply Nat.lt_le_incl, nth_error_Some. congruence. }
  rewrite (list_split_nth siblings k _ Hk) at 1.
  rewrite <- Hfk at 1. rewrite lift_children_all.
  replace (List.length (firstn k siblings) + List.length cs)
    with (List.length (firstn k siblings ++ cs)) by now rewrite length_app.
  rewrite app_assoc, remove_nth_middle. now rewrite <- app_assoc.
Qed.

Lemma find_all_false {A : Type} (f : A -> bool) (l : list A) :
  (forall x, In x l -> f x = false) -> find f l = None.
Proof.
  induction l as [|x l IH]; intros H; cbn; [reflexivity|].
  rewrite (H x (or_introl eq_refl)). apply IH. intros y Hy. apply H. now right.
Qed.

Lemma closest_is_none doc (p : path) tags :
  (forall q, is_prefix q p = true -> has_tag_in doc tags q = false) ->
  closest doc p tags = None.
Proof.
  intros H. unfold closest, inclusive_ancestors. apply find_all_false.
  intros q Hq. apply H. eapply In_climb_is_prefix, Hq.
Qed.

Lemma list_sum_app_counts (l1 l2 : list node) :
  list_sum (map node_count (l1 ++ l2))
  = list_sum (map node_count l1) + list_sum (map node_count l2).
Proof. now rewrite map_app, list_sum_app. Qed.

Section RemovingLinks.

Variable engine : Host.

Lemma handleRemoveLink_found st r (anchor link : path) :
  selection st = Some r ->
  parentElement (commonAncestorContainer r) = Some anchor ->
  closest (document st) anchor ["a"] = Some link ->
  link <> [] ->
  handleRemoveLink engine st
  = Some (updateEditorState engine
            (with_selection
               (Some {| rstart := {| container := removelast link;
                                     offset := last link 0
                                               + List.length
                                                   (children_at (document st) link) |};
                        rend := {| container := removelast link;
                                   offset := last link 0
                                             + List.length
                                                 (children_at (document st) link) |} |})
               (with_document (unwrap_link link (document st)) st))).
Proof.
  intros Hsel Hanchor Hlink Hne.
  unfold handleRemoveLink. rewrite Hsel, Hanchor, Hlink.
  destruct link; [contradiction|reflexivity].
Qed.

(** X10.  The button "Remove Link", with the selection inside a link: the handler
    returns; the link is gone and its children stand where it stood, in
    their order, among the children of its parent; the tree has one node
    less and the text it had; the selection is collapsed in the parent, just
    after the children that came out of the link. *)
Theorem handleRemoveLink_unwraps (st : state) (r : range) (anchor link : path) :
  selection st = Some r ->
  parentElement (commonAncestorContainer r) = Some anchor ->
  closest (document st) anchor ["a"] = Some link ->
  has_tag_in (document st) ["a"] [] = false ->
  let parent := removelast link in
  let k := last link 0 in
  let siblings := children_at (document st) parent in
  let inner := children_at (document st) link in
  let here := {| container := parent; offset := k + List.length inner |} in
  exists st',
    handleRemoveLink engine st = Some (Returned st')
    /\ tag_at (document st) link = "a"
    /\ children_at (document st') parent
       = firstn k siblings ++ inner ++ skipn (S k) siblings
    /\ node_count (document st') + 1 = node_count (document st)
    /\ textContent (document st') = textContent (document st)
    /\ selection st' = Some {| rstart := here; rend := here |}
    /\ effects st' = effects st.
Proof.
  intros Hsel Hanchor Hlink Hroot parent k siblings inner here.
  destruct (closest_nearest _ _ _ _ Hlink) as (_ & Htag & _).
  assert (Hne : link <> []) by (intros ->; congruence).
  assert (Es : link = parent ++ [k]).
  { subst parent k. now apply app_removelast_last. }
  assert (Hn : exists a cs, node_at (document st) link = Some (Element "a" a cs)).
  { unfold has_tag_in in Htag.
    destruct (node_at (document st) link) as [[d|t a cs]|]; try discriminate.
    cbn in Htag. destruct (String.eqb_spec t "a") as [->|]; [eauto|discriminate]. }
  destruct Hn as (a & cs & Hn).
  pose proof Hn as Hn'. rewrite Es in Hn'.
  destruct (node_at_app_some _ _ _ _ Hn') as (par & Hpar & Hk).
  destruct par as [d|tp ap pcs]; [now destruct k|].
  cbn [node_at children] in Hk.
  destruct (nth_error pcs k) as [c|] eqn:Hck; [|discriminate].
  injection Hk as ->.
  assert (Esib : siblings = pcs).
  { subst siblings. unfold children_at. now rewrite Hpar. }
  assert (Einner : inner = cs).
  { subst inner. unfold children_at. now rewrite Hn. }
  rewrite (handleRemoveLink_found st r anchor link Hsel Hanchor Hlink Hne).
  fold parent. fold k. fold inner. fold here.
  set (st1 := with_selection _ _).
  destruct (updateEditorState_returns engine st1) as [st' Hst'].
  pose proof (updateEditorState_frame engine st1) as F.
  rewrite Hst' in F. cbn [final_state] in F. destruct F as (Fd & Fs & Fe & _).
  exists st'. split; [now rewrite Hst'|].
  rewrite Fd, Fs, Fe. subst st1.
  cbn [with_selection with_document document selection effects].
  assert (Hdoc : unwrap_link link (document st)
                 = alter_at (set_children (firstn k pcs ++ cs ++ skipn (S k) pcs))
                     (document st) parent).
  { rewrite Es. apply (unwrap_link_splices _ _ _ _ _ _ _ _ _ Hpar Hck). }
  rewrite Hdoc, Esib, Einner.
  split; [unfold tag_at; now rewrite Hn|].
  split; [|split; [|split; [|split; reflexivity]]].
  - unfold children_at. now rewrite (node_at_alter_at_same _ _ _ _ Hpar).
  - pose proof (node_count_alter_at
                  (set_children (firstn k pcs ++ cs ++ skipn (S k) pcs))
                  (document st) parent _ Hpar) as Hcount.
    set (doc' := alter_at _ (document st) parent) in *.
    cbn [set_children node_count] in Hcount.
    rewrite (list_sum_split_nth pcs k _ Hck) in Hcount.
    rewrite !list_sum_app_counts in Hcount.
    cbn [node_count] in Hcount. lia.
  - apply (textContent_alter_at _ _ _ _ Hpar).
    cbn [set_children]. rewrite !textContent_element.
    remember (text_of pcs) as T eqn:ET.
    rewrite (list_split_nth pcs k _ Hck) in ET. subst T.
    now rewrite !text_of_app, text_of_cons, textContent_element.
Qed.

(** X11.  A link that has just been made cannot be removed with the selection
    that making it has left.  [handleCreateLink] on a piece of a text node
    that no link holds, the text of the selection as the host renders it
    not being blank, leaves the range selecting the new link from outside,
    in its parent; the button "Remove Link" looks for a link from the parent
    of the common ancestor of the range upwards, finds none, and leaves the
    state as it is. *)
Theorem handleRemoveLink_after_create_link_does_nothing
  (st : state) (pp : path) (k : nat) (t : string) (a : attributes) (cs : list node)
  (d : string) (so eo : nat) (url : string) :
  selection st = Some (span_of (pp ++ [k]) so (pp ++ [k]) eo) ->
  node_at (document st) pp = Some (Element t a cs) ->
  nth_error cs k = Some (Text d) ->
  so <= eo -> eo <= String.length d ->
  blank (selection_text engine st) = false ->
  url <> "" ->
  (forall q, is_prefix q pp = true -> has_tag_in (document st) ["a"] q = false) ->
  exists st',
    handleCreateLink engine (Some url) st = Returned st'
    /\ tag_at (document st') (pp ++ [S k]) = "a"
    /\ handleRemoveLink engine st' = Some (Returned st').
Proof.
  intros Hsel Hpp Hk Hord Hlen Hblank Hurl Hnolink.
  unfold handleCreateLink. unfold blank in Hblank. rewrite Hblank.
  destruct url as [|c0 url0] eqn:Eurl; [contradiction|]. rewrite <- Eurl.
  replace (negb (Str.truthy url)) with false by now rewrite Eurl.
  unfold and_then, surroundSelection. cbn [log selection document].
  rewrite Hsel.
  rewrite (surroundContents_in_text _ _ _ _ _ _ _ _ _ _ Hpp Hk Hord Hlen).
  set (L := firstn k cs ++ _).
  set (st1 := with_selection _ _).
  destruct (updateEditorState_returns engine st1) as [st' Hst'].
  pose proof (updateEditorState_frame engine st1) as F.
  rewrite Hst' in F. cbn [final_state] in F. destruct F as (Fd & Fs & _).
  subst st1. cbn [with_selection with_document log document selection] in Fd, Fs.
  exists st'. split; [exact Hst'|].
  assert (Hfk : List.length (firstn k cs) = k).
  { rewrite length_firstn. apply Nat.min_l.
    apply Nat.lt_le_incl, nth_error_Some. congruence. }
  split.
  - unfold tag_at. rewrite Fd, node_at_app, (node_at_alter_at_same _ _ _ _ Hpp).
    cbn [set_children node_at children]. subst L.
    rewrite nth_error_app2 by lia. rewrite Hfk.
    replace (S k - k) with 1 by lia. reflexivity.
  - unfold handleRemoveLink. rewrite Fs.
    unfold commonAncestorContainer, selectNode. cbn [rstart rend container].
    rewrite removelast_last, split_common_same. cbn [fst].
    destruct (parentElement pp) as [up|] eqn:Hup; [|reflexivity].
    rewrite closest_is_none; [reflexivity|].
    intros q Hq. rewrite Fd.
    assert (Hqpp : is_prefix q pp = true).
    { eapply is_prefix_trans; [exact Hq|].
      destruct pp as [|i pp']; [discriminate|].
      injection Hup as <-. apply (is_prefix_removelast (i :: pp')). }
    rewrite has_tag_in_set_children by exact Hqpp. now apply Hnolink.
Qed.

End RemovingLinks.

(** In [<p>see <a>the <b>site</b></a> now</p>], with the caret in "the ": the
    link goes, "the " and the [b] stand between "see " and " now", and the
    caret after the [b]. *)
Lemma handleRemoveLink_unwraps_witness :
  exists st',
    handleRemoveLink inline_style_engine
      (mounted linked_page (span_of [0; 0; 0; 1; 0] 2 [0; 0; 0; 1; 0] 2))
    = Some (Returned st')
    /\ children_at (document st') [0; 0; 0]
       = [Text "see "; Text "the "; plain "b" [Text "site"]; Text " now"]
    /\ textContent (document st') = "see the site now"
    /\ selection st' = Some (span_of [0; 0; 0] 3 [0; 0; 0] 3).
Proof.
  destruct (handleRemoveLink_unwraps inline_style_engine
              (mounted linked_page (span_of [0; 0; 0; 1; 0] 2 [0; 0; 0; 1; 0] 2))
              (span_of [0; 0; 0; 1; 0] 2 [0; 0; 0; 1; 0] 2) [0; 0; 0; 1] [0; 0; 0; 1]
              eq_refl eq_refl eq_refl eq_refl)
    as (st' & Hrun & _ & Hch & _ & Htext & Hs & _).
  exists st'. repeat split; assumption.
Defined.

(** "el" of "Hello" made a link to example.com: the button "Remove Link",
    pressed next, changes nothing. *)
Lemma handleRemoveLink_after_create_link_does_nothing_witness :
  exists st',
    handleCreateLink inline_style_engine (Some "example.com")
      (mounted hello_page (span_of [0; 0; 0; 0] 1 [0; 0; 0; 0] 3)) = Returned st'
    /\ tag_at (document st') [0; 0; 0; 1] = "a"
    /\ handleRemoveLink inline_style_engine st' = Some (Returned st').
Proof.
  apply (handleRemoveLink_after_create_link_does_nothing inline_style_engine
           (mounted hello_page (span_of [0; 0; 0; 0] 1 [0; 0; 0; 0] 3))
           [0; 0; 0] 0 "p" no_attributes [Text "Hello"] "Hello" 1 3 "example.com"
           eq_refl eq_refl eq_refl ltac:(lia) ltac:(simpl; lia) eq_refl
           ltac:(discriminate)).
  intros q Hq.
  destruct q as [|[|] [|[|] [|[|] [|]]]]; try discriminate; reflexivity.
Defined.

(** ** The block signal stays in its vocabulary *)

Section BlockSignal.

Variable engine : Host.

Lemma mem_In (s : string) (l : list string) : Str.mem s l = true -> In s l.
Proof.
  unfold Str.mem. rewrite existsb_exists. intros (x & Hx & E).
  apply String.eqb_eq in E. now subst x.
Qed.

Lemma updateEditorState_block_signal st :
  block_signal_kept st (final_state (updateEditorState engine st)).
Proof.
  unfold updateEditorState, block_signal_kept.
  destruct (editorRef st); cbn [negb]; [|now left].
  destruct (selection st) as [r|]; [|now left].
  destruct (element_of (document st) (commonAncestorContainer r)) as [e|]; [|now left].
  destruct (closest (document st) e block_tags) as [q|] eqn:Hq; [|now left].
  right. cbn [final_state with_currentBlock currentBlock].
  destruct (closest_nearest _ _ _ _ Hq) as (_ & Ht & _).
  unfold has_tag_in in Ht. unfold tag_at.
  destruct (node_at (document st) q) as [[d|t a cs]|]; try discriminate.
  now apply mem_In.
Qed.

Lemma then_update_block_signal (h : handler) st :
  (forall s, currentBlock (final_state (h s)) = currentBlock s) ->
  block_signal_kept st (final_state ((h ;; updateEditorState engine) st)).
Proof.
  intros Hh. unfold and_then. specialize (Hh st).
  destruct (h st) as [s1|e s1]; cbn [final_state] in *.
  - destruct (updateEditorState_block_signal s1) as [E|E]; [left|right]; congruence.
  - now left.
Qed.

Lemma update_after_block_signal st s1 :
  currentBlock s1 = currentBlock st ->
  block_signal_kept st (final_state (updateEditorState engine s1)).
Proof.
  intros E. destruct (updateEditorState_block_signal s1) as [H|H]; [left|right]; congruence.
Qed.

Lemma surroundSelection_block_signal newParent s :
  currentBlock (final_state (surroundSelection newParent s)) = currentBlock s.
Proof.
  unfold surroundSelection. destruct (selection s) as [r|]; [|reflexivity].
  destruct (surroundContents (document s) r newParent) as [e|[doc' r']]; reflexivity.
Qed.

Lemma replaceChild_block_signal q newElement st :
  currentBlock (replaceChild q newElement st) = currentBlock st.
Proof. unfold replaceChild. now destruct q. Qed.

Lemma toggleFormat_block_signal format st :
  block_signal_kept st (final_state (toggleFormat engine format st)).
Proof.
  unfold toggleFormat.
  destruct (editorRef st); cbn [negb]; [|now left].
  destruct (selection st) as [r|]; [|now left].
  apply then_update_block_signal. intros s.
  destruct (format_wrapper format); [apply surroundSelection_block_signal|reflexivity].
Qed.

Lemma block_signal_after_log e st st' :
  block_signal_kept (log e st) st' -> block_signal_kept st st'.
Proof. exact (fun H => H). Qed.

Lemma react_block_signal (i : interaction) st o :
  react engine i st = Some o -> block_signal_kept st (final_state o).
Proof.
  destruct i; cbn [react].
  - intros [= <-]. apply toggleFormat_block_signal.
  - intros [= <-]. unfold handleHeadingChange.
    destruct (selection st) as [r|]; [|now left].
    destruct (match parentElement (commonAncestorContainer r) with
              | Some parent => closest (document st) parent heading_tags
              | None => None
              end) as [block|].
    + apply update_after_block_signal, replaceChild_block_signal.
    + apply then_update_block_signal. intros s. apply surroundSelection_block_signal.
  - intros [= <-]. unfold handleFontSizeChange.
    destruct (Str.truthy value); cbn [negb]; [|now left].
    destruct (selection st) as [r|]; [|now left].
    apply then_update_block_signal. intros s. apply surroundSelection_block_signal.
  - intros [= <-]. unfold formatAlignment.
    destruct (editorRef st); cbn [negb]; [|now left].
    destruct (selection st) as [r|]; [|now left].
    destruct (element_of (document st) (commonAncestorContainer r)) as [e|]; [|now left].
    now apply update_after_block_signal.
  - intros [= <-]. unfold toggleList.
    destruct (editorRef st); cbn [negb]; [|now left].
    destruct (selection st) as [r|]; [|now left].
    destruct (listItem_of (document st) r) as [item|].
    + cbv zeta.
      destruct (match parentElement item with
                | Some list => (tag_at (document st) list =? list_tag t)%string
                | None => false
                end);
        apply update_after_block_signal, replaceChild_block_signal.
    + destruct (if collapsed r then (document st, [], r)
                else extractContents (document st) r) as [[doc1 content] range1].
      destruct (insertNode doc1 (rstart range1) _) as [e|[[doc2 w] r2]]; [now left|].
      now apply update_after_block_signal.
  - intros [= <-]. unfold handleCreateLink.
    destruct (negb (Str.truthy (Str.trim (selection_text engine st)))); [now left|].
    destruct answer as [url|]; [|now left].
    destruct (negb (Str.truthy url)); [now left|].
    apply block_signal_after_log with (e := Prompt "Enter URL:").
    apply then_update_block_signal. intros s. apply surroundSelection_block_signal.
  - unfold handleRemoveLink.
    destruct (selection st) as [r|]; [|intros [= <-]; now left].
    destruct (match parentElement (commonAncestorContainer r) with
              | Some parent => closest (document st) parent ["a"]
              | None => None
              end) as [[|i0 q0]|]; [| |intros [= <-]; now left].
    + destruct (children (document st)); [|discriminate].
      intros [= <-]. apply updateEditorState_block_signal.
    + intros [= <-]. now apply update_after_block_signal.
  - intros [= <-]. now left.
  - intros [= <-]. now left.
  - intros [= <-]. apply updateEditorState_block_signal.
  - intros [= <-]. apply updateEditorState_block_signal.
  - intros [= <-]. apply updateEditorState_block_signal.
  - intros [= <-]. apply updateEditorState_block_signal.
  - intros [= <-]. unfold handlePaste.
    cbn [log selection document].
    destruct (selection st) as [r|]; [|now left].
    destruct (deleteContents (document st) r) as [doc1 range1].
    destruct (insertNode doc1 (rstart range1) _) as [e|[[doc2 w] r2]]; [now left|].
    now apply update_after_block_signal.
  - intros [= <-]. unfold handleKeyDown.
    destruct (ctrlKey e || metaKey e); [|now left].
    apply block_signal_after_log with (e := PreventDefault).
    repeat match goal with
           | |- context [if ?c then _ else _] => destruct c
           end;
      try apply toggleFormat_block_signal; now left.
Qed.

(** X12.  Whatever the user does, button, menu or event of the editing surface,
    and whether the handler returns or an exception leaves it: if the block
    signal held one of the eight tags h1, h2, h3, p, div, li, ul, ol before,
    it holds one of them after.  It holds "p" when the component is made, so
    it never holds anything else. *)
Theorem currentBlock_stays_in_vocabulary (i : interaction) (st : state) (o : outcome) :
  In (currentBlock st) block_tags ->
  react engine i st = Some o ->
  In (currentBlock (final_state o)) block_tags.
Proof.
  intros Hin Hrun.
  destruct (react_block_signal i st o Hrun) as [E|H]; [now rewrite E|exact H].
Qed.

End BlockSignal.

(** The menu set to "Heading 1" with "el" of "Hello" selected. *)
Lemma currentBlock_stays_in_vocabulary_witness :
  In (currentBlock
        (final_state
           (handleHeadingChange inline_style_engine "h1"
              (mounted hello_page (span_of [0; 0; 0; 0] 1 [0; 0; 0; 0] 3)))))
     block_tags.
Proof.
  apply (currentBlock_stays_in_vocabulary inline_style_engine (HeadingMenu "h1")
           (mounted hello_page (span_of [0; 0; 0; 0] 1 [0; 0; 0; 0] 3))).
  - simpl. tauto.
  - reflexivity.
Defined.

(** ** The selection stays in the document *)

Lemma selection_in_document_iff st :
  selection_in_document st = true
  <-> is_text (document st) = false
      /\ forall r, selection st = Some r -> valid_range (document st) r = true.
Proof.
  unfold selection_in_document. rewrite andb_true_iff, negb_true_iff.
  split; intros [Hroot Hsel]; (split; [exact Hroot|]).
  - intros r Hr. now rewrite Hr in Hsel.
  - destruct (selection st) as [r|]; [now apply Hsel|reflexivity].
Qed.

Lemma valid_range_collapsed doc b :
  valid_boundary doc b = true -> valid_range doc {| rstart := b; rend := b |} = true.
Proof.
  intros H. unfold valid_range, boundary_leb. cbn [rstart rend].
  rewrite H, split_common_same. cbn [andb]. apply Nat.leb_refl.
Qed.

Lemma valid_boundary_child doc (x : path) k n o :
  node_at doc (x ++ [k]) = Some n ->
  o <= S k ->
  valid_boundary doc {| container := x; offset := o |} = true.
Proof.
  intros Hn Ho. destruct (node_at_app_some _ _ _ _ Hn) as (m & Hm & Hk).
  unfold valid_boundary. cbn [container offset]. rewrite Hm.
  destruct m as [d|t a cs]; [now destruct k|].
  cbn [node_at children] in Hk.
  destruct (nth_error cs k) as [c|] eqn:Hc; [|discriminate].
  assert (k < List.length cs) by (apply nth_error_Some; congruence).
  cbn [node_length]. apply Nat.leb_le. lia.
Qed.

Lemma valid_range_selectNode doc (x : path) k n :
  node_at doc (x ++ [k]) = Some n -> valid_range doc (selectNode (x ++ [k])) = true.
Proof.
  intros Hn. unfold selectNode. rewrite removelast_last, last_last.
  unfold valid_range, boundary_leb. cbn [rstart rend container offset].
  rewrite (valid_boundary_child doc x k n k Hn) by lia.
  rewrite (valid_boundary_child doc x k n (S k) Hn) by lia.
  rewrite split_common_same. cbn [andb]. apply Nat.leb_le. lia.
Qed.

Lemma wrapper_path_snoc doc r : exists (x : path) k, wrapper_path doc r = x ++ [k].
Proof.
  unfold wrapper_path.
  destruct (split_common (container (rstart r)) (container (rend r))) as [[ca sr] er].
  destruct (node_at doc ca) as [[d|t a cs]|]; eauto.
Qed.

Lemma node_below_root_element doc (x : path) k n :
  node_at doc (x ++ [k]) = Some n -> is_text doc = false.
Proof.
  intros Hn. destruct doc as [d|t a cs]; [|reflexivity].
  apply node_at_text_nil in Hn. now destruct x.
Qed.

Lemma is_text_alter_at_below f doc (p : path) :
  p <> [] -> is_text (alter_at f doc p) = is_text doc.
Proof. destruct p as [|i p]; [contradiction|]. now destruct doc. Qed.

Lemma valid_range_alter_attributes f doc (p : path) r :
  valid_range (alter_at (alter_attributes f) doc p) r = valid_range doc r.
Proof.
  assert (H : forall b, valid_boundary (alter_at (alter_attributes f) doc p) b
                        = valid_boundary doc b).
  { intros b. unfold valid_boundary.
    pose proof (node_at_alter_attributes node_length f doc p (container b)
                  (fun _ _ _ _ _ H => H)) as E.
    destruct (node_at (alter_at (alter_attributes f) doc p) (container b)) as [m|],
      (node_at doc (container b)) as [m'|];
      cbn [option_map] in E; congruence. }
  unfold valid_range. now rewrite !H.
Qed.

Section SelectionInDocument.

Variable engine : Host.

Lemma updateEditorState_selection_in_document st :
  selection_in_document st = true ->
  selection_in_document (final_state (updateEditorState engine st)) = true.
Proof.
  destruct (updateEditorState_frame engine st) as (Fd & Fs & _).
  unfold selection_in_document. now rewrite Fd, Fs.
Qed.

Lemma then_update_selection_in_document (h : handler) st :
  (forall s, selection_in_document s = true ->
             selection_in_document (final_state (h s)) = true) ->
  selection_in_document st = true ->
  selection_in_document (final_state ((h ;; updateEditorState engine) st)) = true.
Proof.
  intros Hh Hst. unfold and_then. specialize (Hh st Hst).
  destruct (h st) as [s1|e s1]; cbn [final_state] in *; [|exact Hh].
  now apply updateEditorState_selection_in_document.
Qed.

Lemma surroundSelection_selection_in_document newParent st :
  selection_in_document st = true ->
  selection_in_document (final_state (surroundSelection newParent st)) = true.
Proof.
  intros Hst. pose proof Hst as Hst'.
  apply selection_in_document_iff in Hst' as (Hroot & Hsel).
  unfold surroundSelection.
  destruct (selection st) as [r|] eqn:Hr; [|exact Hst].
  specialize (Hsel r eq_refl).
  destruct (partially_contains_non_text (document st) r) eqn:Hpart.
  - unfold surroundContents. rewrite Hpart. exact Hst.
  - destruct (surroundContents_wraps (document st) r newParent Hroot Hsel Hpart)
      as (doc' & Hrun & Hnode).
    rewrite Hrun. cbn [final_state].
    destruct (wrapper_path_snoc (document st) r) as (x & k & Ew).
    rewrite Ew in *.
    apply selection_in_document_iff.
    cbn [with_selection with_document document selection]. split.
    + eapply node_below_root_element, Hnode.
    + intros r' [= <-]. eapply valid_range_selectNode, Hnode.
Qed.

Lemma log_selection_in_document e st :
  selection_in_document (log e st) = selection_in_document st.
Proof. reflexivity. Qed.

Lemma replaceChild_selection_in_document (q : path) newElement st r n :
  selection_in_document st = true ->
  selection st = Some r ->
  is_prefix q (commonAncestorContainer r) = true ->
  node_at (document st) q = Some n ->
  selection_in_document (replaceChild q newElement st) = true.
Proof.
  intros Hst Hr Hin Hn. pose proof Hst as Hst'.
  apply selection_in_document_iff in Hst' as (Hroot & _).
  unfold replaceChild. destruct q as [|i0 q0] eqn:Eq; [exact Hst|].
  rewrite <- Eq in *. assert (Hne : q <> []) by (rewrite Eq; discriminate).
  apply selection_in_document_iff.
  cbn [with_selection with_document document selection]. split.
  - now rewrite is_text_alter_at_below.
  - rewrite Hr. cbn [option_map]. intros r' [= <-].
    rewrite range_after_replace_inside by exact Hin.
    apply valid_range_collapsed.
    assert (Es : q = removelast q ++ [last q 0]) by now apply app_removelast_last.
    set (parent := removelast q) in *. set (k := last q 0) in *.
    apply (valid_boundary_child _ parent k newElement); [|lia].
    rewrite <- Es. now rewrite (node_at_alter_at_same _ _ _ _ Hn).
Qed.

Lemma closest_found_node doc (p q : path) tags :
  closest doc p tags = Some q ->
  is_prefix q p = true /\ exists n, node_at doc q = Some n.
Proof.
  intros H. destruct (closest_nearest _ _ _ _ H) as (Hp & Ht & _).
  split; [exact Hp|]. unfold has_tag_in in Ht.
  destruct (node_at doc q) as [n|]; [eauto|discriminate].
Qed.

Lemma parentElement_above (p q : path) :
  parentElement p = Some q -> is_prefix q p = true.
Proof.
  destruct p as [|i p']; [discriminate|].
  intros [= <-]. apply (is_prefix_removelast (i :: p')).
Qed.

Lemma toggleFormat_selection_in_document format st :
  selection_in_document st = true ->
  selection_in_document (final_state (toggleFormat engine format st)) = true.
Proof.
  intros Hst. unfold toggleFormat.
  destruct (editorRef st); cbn [negb]; [|exact Hst].
  destruct (selection st) as [r|]; [|exact Hst].
  apply then_update_selection_in_document; [|exact Hst].
  intros s Hs.
  destruct (format_wrapper format);
    [now apply surroundSelection_selection_in_document|exact Hs].
Qed.

Lemma insert_after_extract_selection doc r n st (b : path -> boundary) :
  is_text doc = false ->
  valid_range doc r = true ->
  (forall doc2 (x : path) k,
      node_at doc2 (x ++ [k]) = Some n -> valid_boundary doc2 (b (x ++ [k])) = true) ->
  let '(doc1, _, range1) := extractContents doc r in
  match insertNode doc1 (rstart range1) n with
  | inl e => False
  | inr (doc2, w, _) =>
      selection_in_document
        (final_state
           (updateEditorState engine
              (with_selection (Some {| rstart := b w; rend := b w |})
                 (with_document doc2 st)))) = true
  end.
Proof.
  intros Hroot Hvalid Hb.
  destruct (extract_then_insert doc r n Hroot Hvalid)
    as (doc1 & r1 & doc2 & r2 & pre & post & Hext & Hins & Hnode & Hroot2 & _).
  rewrite Hext, Hins.
  apply updateEditorState_selection_in_document.
  apply selection_in_document_iff.
  cbn [with_selection with_document document selection].
  split; [exact Hroot2|]. intros r' [= <-].
  apply valid_range_collapsed.
  destruct (wrapper_path_snoc doc r) as (x & k & Ew). rewrite Ew in *.
  now apply Hb.
Qed.

(** X13.  Whatever the user does, button, menu or event of the editing surface,
    and whether the handler returns or an exception leaves it: if the range
    of the selection was a range of the document before, with its boundary
    points at nodes of the tree, within them and in order, it is one after,
    in the document as the handler has left it.  No handler leaves the
    selection at a node it has taken out of the tree. *)
Theorem selection_stays_in_document (i : interaction) (st : state) (o : outcome) :
  selection_in_document st = true ->
  react engine i st = Some o ->
  selection_in_document (final_state o) = true.
Proof.
  intros Hst. pose proof Hst as Hst'.
  apply selection_in_document_iff in Hst' as (Hroot & Hsel).
  destruct i; cbn [react].
  - (* a format button *)
    intros [= <-]. now apply toggleFormat_selection_in_document.
  - (* the heading menu *)
    intros [= <-]. unfold handleHeadingChange.
    destruct (selection st) as [r|] eqn:Hr; [|exact Hst].
    destruct (parentElement (commonAncestorContainer r)) as [parent|] eqn:Hp.
    + destruct (closest (document st) parent heading_tags) as [block|] eqn:Hb.
      * apply updateEditorState_selection_in_document.
        destruct (closest_found_node _ _ _ _ Hb) as (Hpre & n & Hn).
        apply (replaceChild_selection_in_document block _ st r n Hst Hr); [|exact Hn].
        eapply is_prefix_trans; [exact Hpre|now apply parentElement_above].
      * apply then_update_selection_in_document; [|exact Hst].
        intros s. apply surroundSelection_selection_in_document.
    + apply then_update_selection_in_document; [|exact Hst].
      intros s. apply surroundSelection_selection_in_document.
  - (* the font size menu *)
    intros [= <-]. unfold handleFontSizeChange.
    destruct (Str.truthy value); cbn [negb]; [|exact Hst].
    destruct (selection st) as [r|]; [|exact Hst].
    apply then_update_selection_in_document; [|exact Hst].
    intros s. apply surroundSelection_selection_in_document.
  - (* an alignment button *)
    intros [= <-]. unfold formatAlignment.
    destruct (editorRef st); cbn [negb]; [|exact Hst].
    destruct (selection st) as [r|] eqn:Hr; [|exact Hst].
    destruct (element_of (document st) (commonAncestorContainer r)) as [e|]; [|exact Hst].
    apply updateEditorState_selection_in_document.
    unfold selection_in_document.
    cbn [with_document document selection]. rewrite Hr.
    rewrite valid_range_alter_attributes, (Hsel r eq_refl).
    pose proof (node_at_alter_attributes is_text (align_attributes a) (document st) e []
                  (fun _ _ _ _ _ _ => eq_refl)) as E.
    cbn [node_at option_map] in E. injection E as ->. now rewrite Hroot.
  - (* a list button *)
    intros [= <-]. unfold toggleList.
    destruct (editorRef st); cbn [negb]; [|exact Hst].
    destruct (selection st) as [r|] eqn:Hr; [|exact Hst].
    destruct (listItem_of (document st) r) as [item|] eqn:Hitem.
    + pose proof (listItem_of_above _ _ _ Hitem) as Hin.
      assert (Hn : exists n, node_at (document st) item = Some n).
      { unfold listItem_of in Hitem.
        destruct (node_at (document st) (commonAncestorContainer r)) as [[d|t0 a0 cs0]|];
          [destruct (parentElement (commonAncestorContainer r)); [|discriminate]| |];
          now destruct (closest_found_node _ _ _ _ Hitem). }
      destruct Hn as (n & Hn).
      destruct (match parentElement item with
                | Some list => (tag_at (document st) list =? list_tag t)%string
                | None => false
                end);
        apply updateEditorState_selection_in_document;
        now apply (replaceChild_selection_in_document item _ st r n).
    + rewrite extractContents_collapsed.
      pose proof (insert_after_extract_selection (document st) r) as H.
      destruct (extractContents (document st) r) as [[doc1 content] range1] eqn:Hext.
      specialize (H (Element (list_tag t) no_attributes
                       [Element "li" no_attributes content]) st
                    (fun w => {| container := w ++ [0];
                                 offset := List.length content |})
                    Hroot (Hsel r eq_refl)).
      cbv beta in H.
      destruct (insertNode doc1 (rstart range1) _) as [e|[[doc2 w] r2]].
      * exfalso. apply H. intros doc2 x k Hn.
        unfold valid_boundary. cbn [container offset].
        rewrite node_at_app, Hn. cbn. apply Nat.leb_refl.
      * apply H. intros doc2' x k Hn.
        unfold valid_boundary. cbn [container offset].
        rewrite node_at_app, Hn. cbn. apply Nat.leb_refl.
  - (* the link button *)
    intros [= <-]. unfold handleCreateLink.
    destruct (negb (Str.truthy (Str.trim (selection_text engine st)))); [exact Hst|].
    destruct answer as [url|]; [|exact Hst].
    destruct (negb (Str.truthy url)); [exact Hst|].
    apply then_update_selection_in_document; [|exact Hst].
    intros s. apply surroundSelection_selection_in_document.
  - (* the button that removes a link *)
    unfold handleRemoveLink.
    destruct (selection st) as [r|] eqn:Hr; [|intros [= <-]; exact Hst].
    destruct (parentElement (commonAncestorContainer r)) as [anchor|] eqn:Hp;
      [|intros [= <-]; exact Hst].
    destruct (closest (document st) anchor ["a"]) as [link|] eqn:Hlink;
      [|intros [= <-]; exact Hst].
    destruct link as [|i0 q0] eqn:El.
    + destruct (children (document st)); [|discriminate].
      intros [= <-]. now apply updateEditorState_selection_in_document.
    + rewrite <- El in *. intros [= <-].
      apply updateEditorState_selection_in_document.
      assert (Hne : link <> []) by (rewrite El; discriminate).
      destruct (closest_nearest _ _ _ _ Hlink) as (_ & Htag & _).
      assert (Es : link = removelast link ++ [last link 0])
        by now apply app_removelast_last.
      set (parent := removelast link) in *. set (k := last link 0) in *.
      assert (Hn : exists t a cs, node_at (document st) link = Some (Element t a cs)).
      { unfold has_tag_in in Htag.
        destruct (node_at (document st) link) as [[d|t a cs]|]; try discriminate. eauto. }
      destruct Hn as (t & a & cs & Hn).
      pose proof Hn as Hn'. rewrite Es in Hn'.
      destruct (node_at_app_some _ _ _ _ Hn') as (par & Hpar & Hk).
      destruct par as [d|tp ap pcs]; [now destruct k|].
      cbn [node_at children] in Hk.
      destruct (nth_error pcs k) as [c|] eqn:Hck; [|discriminate].
      injection Hk as ->.
      assert (Hdoc : unwrap_link link (document st)
                     = alter_at (set_children (firstn k pcs ++ cs ++ skipn (S k) pcs))
                         (document st) parent).
      { rewrite Es. apply (unwrap_link_splices _ _ _ _ _ _ _ _ _ Hpar Hck). }
      rewrite Hdoc. unfold children_at. rewrite Hn. cbn [children].
      apply selection_in_document_iff.
      cbn [with_selection with_document document selection]. split.
      * rewrite is_text_alter_at; [exact Hroot|]. intros m. apply is_text_set_children.
      * intros r' [= <-]. apply valid_range_collapsed.
        unfold valid_boundary. cbn [container offset].
        rewrite (node_at_alter_at_same _ _ _ _ Hpar).
        cbn [set_children node_length]. apply Nat.leb_le.
        assert (k < List.length pcs) by (apply nth_error_Some; congruence).
        rewrite !length_app, length_firstn. lia.
  - intros [= <-]. exact Hst.
  - intros [= <-]. exact Hst.
  - intros [= <-]. now apply updateEditorState_selection_in_document.
  - intros [= <-]. now apply updateEditorState_selection_in_document.
  - intros [= <-]. now apply updateEditorState_selection_in_document.
  - intros [= <-]. now apply updateEditorState_selection_in_document.
  - (* paste *)
    intros [= <-]. unfold handlePaste, deleteContents.
    cbn [log selection document].
    destruct (selection st) as [r|] eqn:Hr; [|exact Hst].
    set (text := match plain_text with
                 | Some s => if Str.truthy s then s else ""
                 | None => ""
                 end).
    pose proof (insert_after_extract_selection (document st) r (Text text)
                  (log PreventDefault st)
                  (fun w => {| container := removelast w; offset := S (last w 0) |})
                  Hroot (Hsel r eq_refl)) as H.
    cbv beta in H.
    destruct (extractContents (document st) r) as [[doc1 content] range1].
    destruct (insertNode doc1 (rstart range1) (Text text)) as [e|[[doc2 w] r2]].
    + exfalso. apply H. intros doc2 x k Hn.
      rewrite removelast_last, last_last.
      apply (valid_boundary_child _ x k _ (S k) Hn). lia.
    + apply H. intros doc2' x k Hn.
      rewrite removelast_last, last_last.
      apply (valid_boundary_child _ x k _ (S k) Hn). lia.
  - (* a key *)
    intros [= <-]. unfold handleKeyDown.
    destruct (ctrlKey e || metaKey e); [|exact Hst].
    repeat match goal with
           | |- context [if ?c then _ else _] => destruct c
           end;
      try (apply toggleFormat_selection_in_document); exact Hst.
Qed.

End SelectionInDocument.

(** The bullet list button with "bc" of [<p>ab<b>cd</b></p>] selected,
    across the edge of the [b]. *)
Lemma selection_stays_in_document_witness :
  selection_in_document
    (final_state
       (toggleList inline_style_engine ul
          (mounted mixed_page (span_of [0; 0; 0; 0] 1 [0; 0; 0; 1; 0] 1)))) = true.
Proof.
  apply (selection_stays_in_document inline_style_engine (ListButton ul)
           (mounted mixed_page (span_of [0; 0; 0; 0] 1 [0; 0; 0; 1; 0] 1))).
  - reflexivity.
  - reflexivity.
Defined.

(** ** A heading where no block is, and a list item under another list type *)

Lemma parentElement_shorter (p q : path) :
  parentElement p = Some q -> List.length q < List.length p.
Proof.
  destruct p as [|i p']; [discriminate|]. intros H.
  assert (E : q = removelast (i :: p')) by (cbn [parentElement] in H; congruence).
  subst q. rewrite length_removelast_cons. simpl. lia.
Qed.

Section OtherBranches.

Variable engine : Host.

(** X14.  The last branch of [handleHeadingChange]: with a selection that no
    heading, paragraph or [div] holds (above its common ancestor), the
    selection itself is wrapped in a new element of the target tag, as
    [toggleFormat] wraps it, for a range that cuts no element in two. *)
Theorem handleHeadingChange_without_block_wraps
  (select_value : string) (st : state) (r : range) :
  selection st = Some r ->
  is_text (document st) = false ->
  valid_range (document st) r = true ->
  partially_contains_non_text (document st) r = false ->
  (forall q, is_prefix q (commonAncestorContainer r) = true ->
             q <> commonAncestorContainer r ->
             has_tag_in (document st) heading_tags q = false) ->
  let value := if Str.truthy select_value then select_value else "p" in
  exists st',
    handleHeadingChange engine select_value st = Returned st'
    /\ node_at (document st') (wrapper_path (document st) r)
       = Some (Element value no_attributes (cloneContents (document st) r))
    /\ textContent (document st') = textContent (document st)
    /\ selection st' = Some (selectNode (wrapper_path (document st) r)).
Proof.
  intros Hsel Hroot Hvalid Hpart Hnone value.
  unfold handleHeadingChange. rewrite Hsel. fold value.
  assert (Hblock : match parentElement (commonAncestorContainer r) with
                   | Some parent => closest (document st) parent heading_tags
                   | None => None
                   end = None).
  { destruct (parentElement (commonAncestorContainer r)) as [parent|] eqn:Hp;
      [|reflexivity].
    apply closest_is_none. intros q Hq.
    pose proof (parentElement_above _ _ Hp) as Hup.
    apply Hnone; [now apply (is_prefix_trans _ _ _ Hq Hup)|].
    intros ->. pose proof (is_prefix_antisym _ _ Hq Hup) as E.
    pose proof (parentElement_shorter _ _ Hp) as Hlt.
    rewrite E in Hlt. lia. }
  rewrite Hblock.
  destruct (wrap_then_update engine (Element value no_attributes []) st r
              Hsel Hroot eq_refl Hvalid Hpart)
    as (st' & Hrun & Hnode & Hs & Htext & _).
  exists st'. auto.
Qed.

(** X15.  The branch "change list type" of [toggleList] puts the content of the
    item in the tree twice: the new list that takes the place of the item
    holds the content of the item and, after it, a new item with that
    content again, each as the parser of the host gives it back from the
    markup of the item.  So where the item stood the document has the text of
    the first copy and then the text of the second; where each copy has the
    text of the item, the text of the item is doubled. *)
Theorem toggleList_other_type_doubles_text
  (type : list_type) (st : state) (r : range) (item list : path) :
  editorRef st = true ->
  selection st = Some r ->
  listItem_of (document st) r = Some item ->
  parentElement item = Some list ->
  tag_at (document st) list <> list_tag type ->
  let content := children_at (document st) item in
  let in_list := text_of (innerHTML_copy engine (list_tag type) content) in
  let in_item := text_of (innerHTML_copy engine "li" content) in
  exists st' pre post,
    toggleList engine type st = Returned st'
    /\ textContent (document st) = (pre ++ text_of content ++ post)%string
    /\ textContent (document st') = (pre ++ (in_list ++ in_item) ++ post)%string
    /\ (in_list = text_of content -> in_item = text_of content ->
        textContent (document st')
        = (pre ++ (text_of content ++ text_of content) ++ post)%string).
Proof.
  intros Href Hsel Hitem Hlist Htag content in_list in_item.
  destruct (toggleList_other_type engine type st r item list
              Href Hsel Hitem Hlist Htag)
    as (st' & Hrun & Hdoc & _).
  assert (Hn : exists tg a cs, node_at (document st) item = Some (Element tg a cs)).
  { unfold listItem_of in Hitem.
    assert (H : has_tag_in (document st) ["li"] item = true).
    { destruct (node_at (document st) (commonAncestorContainer r)) as [[d|t0 a0 cs0]|];
        [destruct (parentElement (commonAncestorContainer r)); [|discriminate]| |];
        now destruct (closest_nearest _ _ _ _ Hitem) as (_ & H & _). }
    unfold has_tag_in in H.
    destruct (node_at (document st) item) as [[d|tg a cs]|]; try discriminate. eauto. }
  destruct Hn as (tg & a & cs & Hn).
  destruct (textContent_context _ _ _ Hn) as (pre & post & Hbefore & Hafter).
  exists st', pre, post. split; [exact Hrun|].
  assert (Ec : content = cs).
  { subst content. unfold children_at. now rewrite Hn. }
  assert (Hafter' : textContent (document st')
                    = (pre ++ (in_list ++ in_item) ++ post)%string).
  { rewrite Hdoc, Hafter. fold content.
    rewrite textContent_element, text_of_app, text_of_cons, textContent_element.
    change (text_of []) with EmptyString.
    now rewrite append_nil_r. }
  split; [now rewrite Hbefore, Ec|]. split; [exact Hafter'|].
  intros E1 E2. now rewrite Hafter', E1, E2.
Qed.

End OtherBranches.

(** "note" selected in [<span>note</span>], which no block holds: the
    change to "h2" wraps it, [<span><h2>note</h2></span>]. *)
Lemma handleHeadingChange_without_block_wraps_witness :
  exists st',
    handleHeadingChange inline_style_engine "h2"
      (mounted note_page (span_of [0; 0; 0] 0 [0; 0; 0] 4)) = Returned st'
    /\ node_at (document st') [0; 0; 1] = Some (plain "h2" [Text "note"])
    /\ textContent (document st') = "noteTitle".
Proof.
  destruct (handleHeadingChange_without_block_wraps inline_style_engine "h2"
              (mounted note_page (span_of [0; 0; 0] 0 [0; 0; 0] 4))
              (span_of [0; 0; 0] 0 [0; 0; 0] 4)
              eq_refl eq_refl eq_refl eq_refl)
    as (st' & Hrun & Hnode & Htext & _).
  - intros q Hq Hne.
    destruct q as [|[|] [|[|] [|[|] [|]]]]; try discriminate; reflexivity.
  - exists st'. repeat split; assumption.
Defined.

(** In [<ol><li>x</li><li>y</li></ol>], with "x" selected, the bullet list
    button: the text "xy" of the document has "x" twice afterwards. *)
Lemma toggleList_other_type_doubles_text_witness :
  exists st' pre post,
    toggleList inline_style_engine ul
      (mounted ordered_page (span_of [0; 0; 0; 0; 0] 0 [0; 0; 0; 0; 0] 1)) = Returned st'
    /\ "xy" = (pre ++ "x" ++ post)%string
    /\ textContent (document st') = (pre ++ ("x" ++ "x") ++ post)%string.
Proof.
  destruct (toggleList_other_type_doubles_text inline_style_engine ul
              (mounted ordered_page (span_of [0; 0; 0; 0; 0] 0 [0; 0; 0; 0; 0] 1))
              (span_of [0; 0; 0; 0; 0] 0 [0; 0; 0; 0; 0] 1) [0; 0; 0; 0] [0; 0; 0]
              eq_refl eq_refl eq_refl eq_refl ltac:(cbv; discriminate))
    as (st' & pre & post & Hrun & Hbefore & _ & Hdouble).
  exists st', pre, post. split; [exact Hrun|]. split; [exact Hbefore|].
  exact (Hdouble eq_refl eq_refl).
Defined.

(** ** Which selections the link button turns down *)









Section Effects.

Variable engine : Host.

Lemma update_after_effects st s1 :
  effects s1 = effects st ->
  effects (final_state (updateEditorState engine s1)) = effects st.
Proof.
  intros E. destruct (updateEditorState_frame engine s1) as (_ & _ & Fe & _). congruence.
Qed.

Lemma wrap_effects newParent st :
  effects (final_state ((surroundSelection newParent ;; updateEditorState engine) st))
  = effects st.
Proof. apply and_then_update_effects. intros s. apply surroundSelection_effects. Qed.

Lemma replaceChild_effects q newElement st :
  effects (replaceChild q newElement st) = effects st.
Proof. unfold replaceChild. now destruct q. Qed.


(** X17.  The alerts, the prompts and the calls of [preventDefault] and
    [execCommand] that each interaction adds: the buttons and menus that
    format add none, also when an exception leaves the handler; the link
    button adds one alert, where the text of the selection as the host
    renders it is blank, and one prompt otherwise; paste and the keys pressed
    with Ctrl or Meta add one [preventDefault]; undo and redo, by button or
    by key, add one [execCommand]. *)
Theorem effects_of_interaction (i : interaction) (st : state) (o : outcome) :
  react engine i st = Some o ->
  effects (final_state o)
  = effects st
    ++ match i with
       | LinkButton _ =>
           [if blank (selection_text engine st)
            then Alert "Please select text to create a link"
            else Prompt "Enter URL:"]
       | UndoButton => [ExecCommand "undo"]
       | RedoButton => [ExecCommand "redo"]
       | Paste _ => [PreventDefault]
       | KeyDown e =>
           if ctrlKey e || metaKey e then
             PreventDefault
             :: (if String.eqb (Str.toLowerCase (key e)) "z" then [ExecCommand "undo"]
                 else if String.eqb (Str.toLowerCase (key e)) "y"
                      then [ExecCommand "redo"]
                      else [])
           else []
       | _ => []
       end.
Proof.
  destruct i; cbn [react]; rewrite ?app_nil_r.
  - intros [= <-]. apply toggleFormat_effects.
  - intros [= <-]. unfold handleHeadingChange.
    destruct (selection st) as [r|]; [|reflexivity].
    destruct (match parentElement (commonAncestorContainer r) with
              | Some parent => closest (document st) parent heading_tags
              | None => None
              end) as [block|].
    + apply update_after_effects, replaceChild_effects.
    + apply wrap_effects.
  - intros [= <-]. unfold handleFontSizeChange.
    destruct (Str.truthy value); cbn [negb]; [|reflexivity].
    destruct (selection st) as [r|]; [|reflexivity].
    apply wrap_effects.
  - intros [= <-]. unfold formatAlignment.
    destruct (editorRef st); cbn [negb]; [|reflexivity].
    destruct (selection st) as [r|]; [|reflexivity].
    destruct (element_of (document st) (commonAncestorContainer r)) as [e|];
      [|reflexivity].
    now apply update_after_effects.
  - intros [= <-]. unfold toggleList.
    destruct (editorRef st); cbn [negb]; [|reflexivity].
    destruct (selection st) as [r|]; [|reflexivity].
    destruct (listItem_of (document st) r) as [item|].
    + cbv zeta.
      destruct (match parentElement item with
                | Some list => (tag_at (document st) list =? list_tag t)%string
                | None => false
                end);
        apply update_after_effects, replaceChild_effects.
    + destruct (if collapsed r then (document st, [], r)
                else extractContents (document st) r) as [[doc1 content] range1].
      destruct (insertNode doc1 (rstart range1) _) as [e|[[doc2 w] r2]]; [reflexivity|].
      now apply update_after_effects.
  - intros [= <-]. unfold blank, handleCreateLink.
    destruct (negb (Str.truthy (Str.trim (selection_text engine st)))); [reflexivity|].
    destruct answer as [url|]; [|reflexivity].
    destruct (negb (Str.truthy url)); [reflexivity|].
    now rewrite wrap_effects.
  - unfold handleRemoveLink.
    destruct (selection st) as [r|]; [|now intros [= <-]].
    destruct (match parentElement (commonAncestorContainer r) with
              | Some parent => closest (document st) parent ["a"]
              | None => None
              end) as [[|i0 q0]|]; [| |now intros [= <-]].
    + destruct (children (document st)); [|discriminate].
      intros [= <-]. now apply update_after_effects.
    + intros [= <-]. now apply update_after_effects.
  - now intros [= <-].
  - now intros [= <-].
  - intros [= <-]. now apply update_after_effects.
  - intros [= <-]. now apply update_after_effects.
  - intros [= <-]. now apply update_after_effects.
  - intros [= <-]. now apply update_after_effects.
  - intros [= <-]. unfold handlePaste.
    cbn [log selection document].
    destruct (selection st) as [r|]; [|reflexivity].
    destruct (deleteContents (document st) r) as [doc1 range1].
    destruct (insertNode doc1 (rstart range1) _) as [e|[[doc2 w] r2]]; [reflexivity|].
    now apply (update_after_effects (log PreventDefault st)).
  - intros [= <-]. unfold handleKeyDown.
    destruct (ctrlKey e || metaKey e); [|now rewrite app_nil_r].
    cbv zeta. generalize (Str.toLowerCase (key e)). intros k.
    destruct (String.eqb_spec k "b") as [->|_]; [now rewrite toggleFormat_effects|].
    destruct (String.eqb_spec k "i") as [->|_]; [now rewrite toggleFormat_effects|].
    destruct (String.eqb_spec k "u") as [->|_]; [now rewrite toggleFormat_effects|].
    destruct (String.eqb_spec k "z") as [->|_];
      [cbn [final_state log effects]; now rewrite <- app_assoc|].
    destruct (String.eqb_spec k "y") as [->|_];
      [cbn [final_state log effects]; now rewrite <- app_assoc|].
    reflexivity.
Qed.

End Effects.

(** The bullet list button on [<ol><li>x</li><li>y</li></ol>]: nothing is
    shown. *)
Lemma effects_of_interaction_witness :
  effects
    (final_state
       (toggleList inline_style_engine ul
          (mounted ordered_page (span_of [0; 0; 0; 0; 0] 0 [0; 0; 0; 0; 0] 1))))
  = [].
Proof.
  apply (effects_of_interaction inline_style_engine (ListButton ul)
           (mounted ordered_page (span_of [0; 0; 0; 0; 0] 0 [0; 0; 0; 0; 0] 1))).
  reflexivity.
Defined.

(** ** Shortcuts and buttons *)

Section Shortcuts.

Variable engine : Host.

Lemma hasStyle_log prop value e st :
  hasStyle engine prop value (log e st) = hasStyle engine prop value st.
Proof. reflexivity. Qed.

Lemma updateEditorState_log e st :
  updateEditorState engine (log e st)
  = Returned (log e (final_state (updateEditorState engine st))).
Proof.
  unfold updateEditorState. cbn [log editorRef selection document].
  destruct (editorRef st); cbn [negb]; [|reflexivity].
  destruct (selection st) as [r|]; [|reflexivity].
  destruct (element_of (document st) (commonAncestorContainer r)) as [el|];
    [|reflexivity].
  rewrite !hasStyle_log.
  destruct (closest (document st) el block_tags); reflexivity.
Qed.

Lemma toggleFormat_log format e st :
  toggleFormat engine format (log e st)
  = match toggleFormat engine format st with
    | Returned st' => Returned (log e st')
    | Thrown x st' => Thrown x (log e st')
    end.
Proof.
  unfold toggleFormat. cbn [log editorRef selection].
  destruct (editorRef st); cbn [negb]; [|reflexivity].
  destruct (selection st) as [r|] eqn:Hr; [|reflexivity].
  unfold and_then.
  destruct (format_wrapper format) as [newParent|].
  - unfold surroundSelection. cbn [log selection document]. rewrite Hr.
    destruct (surroundContents (document st) r newParent) as [x|[doc' r']];
      [reflexivity|].
    change (with_selection (Some r') (with_document doc' (log e st)))
      with (log e (with_selection (Some r') (with_document doc' st))).
    rewrite updateEditorState_log.
    now destruct (updateEditorState_returns engine
                    (with_selection (Some r') (with_document doc' st))) as [s ->].
  - rewrite updateEditorState_log.
    now destruct (updateEditorState_returns engine st) as [s ->].
Qed.

(** X18.  A shortcut is its button.  With Ctrl or Meta held, the keys B, I and U,
    in either case, do to the document, the selection and the signals what
    the buttons "Bold", "Italic" and "Underline" do, exception included; the
    one difference is that the default action of the key is prevented. *)
Theorem handleKeyDown_is_the_button (e : KeyboardEvent) (format : string) (st : state) :
  ctrlKey e || metaKey e = true ->
  In (Str.toLowerCase (key e), format)
     [("b", "bold"); ("i", "italic"); ("u", "underline")] ->
  react engine (FormatButton format) st = Some (toggleFormat engine format st)
  /\ handleKeyDown engine e st
     = match toggleFormat engine format st with
       | Returned st' => Returned (log PreventDefault st')
       | Thrown x st' => Thrown x (log PreventDefault st')
       end.
Proof.
  intros Hmod Hkey. split; [reflexivity|]. unfold handleKeyDown. rewrite Hmod.
  destruct Hkey as [[= E <-]|[[= E <-]|[[= E <-]|[]]]]; cbv zeta; rewrite <- E;
    cbn [String.eqb Ascii.eqb Bool.eqb]; apply toggleFormat_log.
Qed.

End Shortcuts.

(** Ctrl+I, with the capital, on "el" of "Hello". *)
Lemma handleKeyDown_is_the_button_witness :
  exists st',
    toggleFormat inline_style_engine "italic"
      (mounted hello_page (span_of [0; 0; 0; 0] 1 [0; 0; 0; 0] 3)) = Returned st'
    /\ handleKeyDown inline_style_engine
         {| ctrlKey := true; metaKey := false; key := "I" |}
         (mounted hello_page (span_of [0; 0; 0; 0] 1 [0; 0; 0; 0] 3))
       = Returned (log PreventDefault st').
Proof.
  eexists. split; [reflexivity|].
  apply (handleKeyDown_is_the_button inline_style_engine
           {| ctrlKey := true; metaKey := false; key := "I" |} "italic"
           (mounted hello_page (span_of [0; 0; 0; 0] 1 [0; 0; 0; 0] 3))
           eq_refl (or_intror (or_introl eq_refl))).
Defined.

(** ** The signals right after a format is applied *)

Section SignalsAfterFormat.

Variable engine : Host.

(** X19.  Right after [toggleFormat] has wrapped a piece of a text node, each of
    the four format signals says whether the parent of the text node stood in
    an element of its tags before, and nothing about the new wrapper: the
    range selects the wrapper from outside, so its tag is not among the
    ancestors walked, and the selectors of [hasStyle], written without a
    space after the colon, do not match the style text of any of the four
    wrappers.  With none of the tags around, the signal of the format just
    applied is off. *)
Theorem toggleFormat_signals_ignore_wrapper
  (st : state) (pp : path) (k : nat) (t : string) (a : attributes) (cs : list node)
  (d : string) (so eo : nat) (format : string) (newParent : node) :
  editorRef st = true ->
  selection st = Some (span_of (pp ++ [k]) so (pp ++ [k]) eo) ->
  node_at (document st) pp = Some (Element t a cs) ->
  nth_error cs k = Some (Text d) ->
  so < eo -> eo <= String.length d ->
  format_wrapper format = Some newParent ->
  exists st',
    toggleFormat engine format st = Returned st'
    /\ isBold st' = hasParentWithTag (document st) (Some pp) ["b"; "strong"]
    /\ isItalic st' = hasParentWithTag (document st) (Some pp) ["i"; "em"]
    /\ isUnderline st' = hasParentWithTag (document st) (Some pp) ["u"]
    /\ isStrikethrough st'
       = hasParentWithTag (document st) (Some pp) ["s"; "strike"; "del"].
Proof.
  intros Href Hsel Hpp Hk Hlt Hlen Hfmt.
  unfold toggleFormat. rewrite Href, Hsel, Hfmt. cbn [negb].
  unfold and_then, surroundSelection. rewrite Hsel.
  rewrite (surroundContents_in_text _ _ _ _ _ _ _ _ _ _ Hpp Hk
             (Nat.lt_le_incl _ _ Hlt) Hlen).
  replace (so =? eo)%nat with false by (symmetry; apply Nat.eqb_neq; lia).
  set (w := set_children [Text (Str.substringData so (eo - so) d)] newParent).
  set (L := firstn k cs ++ _).
  set (doc' := alter_at (set_children L) (document st) pp).
  assert (Hpp' : node_at doc' pp = Some (Element t a L)).
  { subst doc'. now rewrite (node_at_alter_at_same _ _ _ _ Hpp). }
  assert (Hfk : List.length (firstn k cs) = k).
  { rewrite length_firstn. apply Nat.min_l.
    apply Nat.lt_le_incl, nth_error_Some. congruence. }
  assert (Hw : node_at doc' (pp ++ [S k]) = Some w).
  { rewrite node_at_app, Hpp'. cbn [node_at children]. subst L.
    rewrite nth_error_app2 by lia. rewrite Hfk.
    replace (S k - k) with 1 by lia. reflexivity. }
  set (st1 := with_selection _ _).
  assert (Hst1 : forall prop value,
             hasStyle engine prop value st1
             = querySelector_finds (style_attribute_includes prop value) [w]).
  { intros prop value. unfold hasStyle. subst st1.
    cbn [with_selection with_document selection document].
    rewrite (cloneContents_selectNode _ _ _ _ Hw).
    unfold collapsed, selectNode. cbn [rstart rend container offset].
    rewrite removelast_last, last_last, path_eqb_refl.
    replace (S k =? S (S k))%nat with false by (symmetry; apply Nat.eqb_neq; lia).
    reflexivity. }
  unfold updateEditorState.
  replace (editorRef st1) with true by (symmetry; exact Href).
  replace (selection st1) with (Some (selectNode (pp ++ [S k]))) by reflexivity.
  replace (document st1) with doc' by reflexivity.
  assert (Hca : commonAncestorContainer (selectNode (pp ++ [S k])) = pp).
  { unfold commonAncestorContainer, selectNode. cbn [rstart rend container].
    now rewrite removelast_last, split_common_same. }
  rewrite Hca. unfold element_of at 1. rewrite Hpp'. cbn [negb].
  rewrite !Hst1.
  unfold doc'. rewrite !hasParentWithTag_set_children. fold doc'.
  assert (Hoff : forall prop value,
             In (prop, value)
                [("font-weight", "bold"); ("font-weight", "700");
                 ("font-style", "italic"); ("text-decoration", "underline");
                 ("text-decoration", "line-through")] ->
             querySelector_finds (style_attribute_includes prop value) [w] = false).
  { intros prop value Hin. subst w.
    destruct (format_wrapper_cases _ _ Hfmt) as [[_ ->]|[[_ ->]|[[_ ->]|[_ ->]]]];
      repeat (destruct Hin as [[= <- <-]|Hin]; [reflexivity|]); destruct Hin. }
  rewrite !Hoff by (cbn; tauto). rewrite !orb_false_r.
  destruct (closest doc' pp block_tags); eexists; (split; [reflexivity|]);
    repeat split; reflexivity.
Qed.

End SignalsAfterFormat.

(** "el" of "Hello" set in italics: the italic signal is off afterwards. *)
Lemma toggleFormat_signals_ignore_wrapper_witness :
  exists st',
    toggleFormat inline_style_engine "italic"
      (mounted hello_page (span_of [0; 0; 0; 0] 1 [0; 0; 0; 0] 3)) = Returned st'
    /\ isItalic st' = false.
Proof.
  destruct (toggleFormat_signals_ignore_wrapper inline_style_engine
              (mounted hello_page (span_of [0; 0; 0; 0] 1 [0; 0; 0; 0] 3))
              [0; 0; 0] 0 "p" no_attributes [Text "Hello"] "Hello" 1 3 "italic"
              (styled_element "em" [("font-style", "italic")])
              eq_refl eq_refl eq_refl eq_refl ltac:(lia) ltac:(simpl; lia) eq_refl)
    as (st' & Hrun & _ & Hi & _).
  exists st'. split; [exact Hrun|exact Hi].
Defined.

(** ** Without a selection; and the text under formatting *)

Lemma textContent_alter_attributes f doc (p : path) :
  textContent (alter_at (alter_attributes f) doc p) = textContent doc.
Proof.
  destruct (node_at doc p) as [n|] eqn:Hn.
  - apply (textContent_alter_at _ _ _ _ Hn). now destruct n.
  - now rewrite (alter_at_missing _ _ _ Hn).
Qed.

Lemma closest_found_element doc (p q : path) tags :
  closest doc p tags = Some q ->
  exists t a cs, node_at doc q = Some (Element t a cs).
Proof.
  intros H. destruct (closest_nearest _ _ _ _ H) as (_ & Ht & _).
  unfold has_tag_in in Ht.
  destruct (node_at doc q) as [[d|t a cs]|]; try discriminate. eauto.
Qed.

Section TextUnderFormatting.

Variable engine : Host.

Lemma update_after_text st s1 :
  textContent (document s1) = textContent (document st) ->
  textContent (document (final_state (updateEditorState engine s1)))
  = textContent (document st).
Proof.
  intros E. destruct (updateEditorState_frame engine s1) as (Fd & _). now rewrite Fd.
Qed.

Lemma wrap_keeps_text newParent st :
  selection_in_document st = true ->
  is_text newParent = false ->
  textContent
    (document (final_state ((surroundSelection newParent ;; updateEditorState engine) st)))
  = textContent (document st).
Proof.
  intros Hst Hnew. apply selection_in_document_iff in Hst as (Hroot & Hsel).
  unfold and_then, surroundSelection.
  destruct (selection st) as [r|] eqn:Hr; [|now apply update_after_text].
  specialize (Hsel r eq_refl).
  destruct (partially_contains_non_text (document st) r) eqn:Hpart.
  - unfold surroundContents. now rewrite Hpart.
  - destruct (surroundContents (document st) r newParent) as [x|[doc' r']] eqn:Hrun;
      [reflexivity|].
    apply update_after_text. cbn [with_selection with_document document].
    apply (surroundContents_keeps_text _ _ _ _ _ Hroot Hnew Hsel Hpart Hrun).
Qed.

Lemma toggleFormat_keeps_text format st :
  selection_in_document st = true ->
  textContent (document (final_state (toggleFormat engine format st)))
  = textContent (document st).
Proof.
  intros Hst. unfold toggleFormat.
  destruct (editorRef st); cbn [negb]; [|reflexivity].
  destruct (selection st) as [r|]; [|reflexivity].
  destruct (format_wrapper format) as [newParent|] eqn:Hfmt.
  - apply wrap_keeps_text; [exact Hst|]. eapply format_wrapper_element, Hfmt.
  - unfold and_then. now apply update_after_text.
Qed.

(** X20.  Formatting does not touch the text.  The format buttons and their
    shortcuts, the font size menu, the alignment buttons, the two link
    buttons and the events that run the inspector leave the text of the
    document as it was, whether the handler returns or an exception leaves
    it.  (The heading menu and the list buttons are apart: they rebuild
    content from its markup, and one branch of the list buttons doubles the
    text of the item.  So are paste, which is there to change the text, and
    undo and redo, which are the host's.) *)
Theorem formatting_keeps_text (i : interaction) (st : state) (o : outcome) :
  selection_in_document st = true ->
  match i with
  | HeadingMenu _ | ListButton _ | Paste _ | UndoButton | RedoButton => False
  | KeyDown e => In (Str.toLowerCase (key e)) ["b"; "i"; "u"]
  | _ => True
  end ->
  react engine i st = Some o ->
  textContent (document (final_state o)) = textContent (document st).
Proof.
  intros Hst Hi.
  destruct i; cbn [react]; try contradiction.
  - intros [= <-]. now apply toggleFormat_keeps_text.
  - intros [= <-]. unfold handleFontSizeChange.
    destruct (Str.truthy value); cbn [negb]; [|reflexivity].
    destruct (selection st) as [r|]; [|reflexivity].
    now apply wrap_keeps_text.
  - intros [= <-]. unfold formatAlignment.
    destruct (editorRef st); cbn [negb]; [|reflexivity].
    destruct (selection st) as [r|]; [|reflexivity].
    destruct (element_of (document st) (commonAncestorContainer r)) as [e|];
      [|reflexivity].
    apply update_after_text. cbn [with_document document].
    apply textContent_alter_attributes.
  - intros [= <-]. unfold handleCreateLink.
    destruct (negb (Str.truthy (Str.trim (selection_text engine st)))); [reflexivity|].
    destruct answer as [url|]; [|reflexivity].
    destruct (negb (Str.truthy url)); [reflexivity|].
    now apply (wrap_keeps_text (link_element url) (log (Prompt "Enter URL:") st)).
  - unfold handleRemoveLink.
    destruct (selection st) as [r|] eqn:Hr; [|now intros [= <-]].
    destruct (parentElement (commonAncestorContainer r)) as [anchor|] eqn:Hp;
      [|now intros [= <-]].
    destruct (closest (document st) anchor ["a"]) as [link|] eqn:Hlink;
      [|now intros [= <-]].
    destruct link as [|i0 q0] eqn:El.
    + destruct (children (document st)); [|discriminate].
      intros [= <-]. now apply update_after_text.
    + rewrite <- El in *. intros [= <-]. apply update_after_text.
      cbn [with_selection with_document document].
      assert (Hne : link <> []) by (rewrite El; discriminate).
      assert (Es : link = removelast link ++ [last link 0])
        by now apply app_removelast_last.
      destruct (closest_found_element _ _ _ _ Hlink) as (t & a & cs & Hn).
      pose proof Hn as Hn'. rewrite Es in Hn'.
      destruct (node_at_app_some _ _ _ _ Hn') as (par & Hpar & Hk).
      destruct par as [d|tp ap pcs]; [now destruct (last link 0)|].
      cbn [node_at children] in Hk.
      destruct (nth_error pcs (last link 0)) as [c|] eqn:Hck; [|discriminate].
      injection Hk as ->.
      rewrite Es, (unwrap_link_splices _ _ _ _ _ _ _ _ _ Hpar Hck).
      apply (textContent_alter_at _ _ _ _ Hpar).
      cbn [set_children]. rewrite !textContent_element.
      remember (text_of pcs) as T eqn:ET.
      rewrite (list_split_nth pcs _ _ Hck) in ET. subst T.
      now rewrite !text_of_app, text_of_cons, textContent_element.
  - intros [= <-]. now apply update_after_text.
  - intros [= <-]. now apply update_after_text.
  - intros [= <-]. now apply update_after_text.
  - intros [= <-]. now apply update_after_text.
  - intros [= <-]. unfold handleKeyDown.
    destruct (ctrlKey e || metaKey e); [|reflexivity].
    cbv zeta.
    destruct Hi as [E|[E|[E|[]]]]; rewrite <- E; cbn [String.eqb Ascii.eqb Bool.eqb];
      now apply (toggleFormat_keeps_text _ (log PreventDefault st)).
Qed.


End TextUnderFormatting.

(** Size 3 chosen with "el" of "Hello" selected: the text is "Hello" as
    before. *)
Lemma formatting_keeps_text_witness :
  textContent
    (document
       (final_state
          (handleFontSizeChange inline_style_engine "3"
             (mounted hello_page (span_of [0; 0; 0; 0] 1 [0; 0; 0; 0] 3)))))
  = "Hello".
Proof.
  apply (formatting_keeps_text inline_style_engine (FontSizeMenu "3")
           (mounted hello_page (span_of [0; 0; 0; 0] 1 [0; 0; 0; 0] 3))).
  - reflexivity.
  - exact I.
  - reflexivity.
Defined.

